(** * textgrounder: wiki_disambig.py

    A shallow embedding of the geographic core of [wiki_disambig.py]
    (coordinates and tiling regions, statistical regions, the article table,
    gazetteer divisions, the toponym strategies and the result accumulators),
    with the properties its specification states about them.

    Conventions of the embedding.
    - Python floats are idealised as the real numbers [R]; Python integers
      are [Z].  Functions of the [math] module are bundled in a record
      ([MathModule]) so that a statement can be made either about every
      implementation of them (the computed values of a floating-point
      library are approximations) or about the exact functions
      ([exact_math]).
    - Where a claim depends on the rounding of floats, the function is
      embedded a second time with the kernel's binary64 numbers for Python's
      float arithmetic ([Binary64]), the functions of the C library being
      parameters again.
    - Class attributes that the program mutates (the tables of [StatRegion],
      [ArticleTable], [Division]) are explicit state records, threaded through
      the operations; Python exceptions are [None] in an [option] result.
    - Debugging output ([debug = 0], the default) is left out. *)

From Stdlib Require Import Reals Lra Lia ZArith List Permutation Sorted Ascii String.
From Corelib Require Import PrimFloat.
From stdpp Require Import gmap strings list.

#[local] Open Scope Z_scope.

(** ** Options and globals *)

(** The fields of [Opts] the modelled code reads. *)
Record Options := {
  width_of_stat_region : Z;
  max_dist_for_close_match : R;
  baseline_weight : R;
  naive_bayes_weighting : string;
  naive_bayes_type : string;
  preserve_case_words : bool
}.

(** The module-level globals set once by [implement_main]. *)
Record Globals := {
  Opts : Options;
  degrees_per_region : R;
  minimum_latind : Z;
  maximum_latind : Z;
  minimum_longind : Z;
  maximum_longind : Z
}.

Definition minimum_latitude : R := (-90)%R.
Definition maximum_latitude : R := 89.999999%R.
Definition minimum_longitude : R := (-180)%R.
Definition maximum_longitude : R := 179.999999%R.
Definition earth_radius_in_miles : R := 3963.191%R.

(** The functions and the constant of Python's [math] module that the program
    calls. *)
Record MathModule := {
  m_pi : R;
  m_sin : R -> R;
  m_cos : R -> R;
  m_acos : R -> R;
  m_log : R -> R
}.

(** The exact functions, of which a floating-point library computes
    approximations. *)
Definition exact_math : MathModule :=
  {| m_pi := PI; m_sin := sin; m_cos := cos; m_acos := acos; m_log := ln |}.

(** ** Coordinates and regions *)

Record Coord := { lat : R; long : R }.

Module Coords.

(** [spheredist]: [p1] and [p2] may be [None] (an article without
    coordinates). *)
Definition anglecos (M : MathModule) (p1 p2 : Coord) : R :=
  let thisRadLat := (lat p1 / 180 * m_pi M)%R in
  let thisRadLong := (long p1 / 180 * m_pi M)%R in
  let otherRadLat := (lat p2 / 180 * m_pi M)%R in
  let otherRadLong := (long p2 / 180 * m_pi M)%R in
  (m_sin M thisRadLat * m_sin M otherRadLat
   + m_cos M thisRadLat * m_cos M otherRadLat
     * m_cos M (otherRadLong - thisRadLong))%R.

Definition spheredist (M : MathModule) (p1 p2 : option Coord) : R :=
  match p1, p2 with
  | Some p1, Some p2 =>
      let c := anglecos M p1 p2 in
      if Rlt_dec 1 (Rabs c) then
        if Rlt_dec 1.000001 (Rabs c) then 1000000%R else 0%R
      else (earth_radius_in_miles * m_acos M c)%R
  | _, _ => 1000000%R
  end.

(** [int(math.floor(x))] *)
Definition floor (x : R) : Z := Zfloor x.

Section WithGlobals.
Variable G : Globals.

Definition coord_to_tiling_region_indices (coord : Coord) : Z * Z :=
  (floor (lat coord / degrees_per_region G),
   floor (long coord / degrees_per_region G)).

Definition coord_to_stat_region_indices (coord : Coord) : Z * Z :=
  let subval :=
    ((IZR (width_of_stat_region (Opts G)) - 1) / 2 * degrees_per_region G)%R in
  let lat0 := (lat coord - subval)%R in
  let long0 := (long coord - subval)%R in
  let lat1 := if Rlt_dec lat0 minimum_latitude then minimum_latitude else lat0 in
  let long1 := if Rlt_dec long0 minimum_longitude then (long0 + 360)%R else long0 in
  coord_to_tiling_region_indices {| lat := lat1; long := long1 |}.

(** The indices are integers in [region_indices_to_coord]'s other callers and
    reals (an integer plus [W/2.0]) in [stat_region_indices_to_center_coord]. *)
Definition region_indices_to_coord (latind longind : R) : Coord :=
  {| lat := (latind * degrees_per_region G)%R;
     long := (longind * degrees_per_region G)%R |}.

Definition stat_region_indices_to_center_coord (latind longind : Z) : Coord :=
  let addval := (IZR (width_of_stat_region (Opts G)) / 2)%R in
  let latind' := (IZR latind + addval)%R in
  let longind' := (IZR longind + addval)%R in
  let coord := region_indices_to_coord latind' longind' in
  let lat1 :=
    if Rlt_dec maximum_latitude (lat coord) then maximum_latitude else lat coord in
  let long1 :=
    if Rlt_dec maximum_longitude (long coord) then (long coord - 360)%R
    else long coord in
  {| lat := lat1; long := long1 |}.

End WithGlobals.

(** The globals as [implement_main] sets them, from the options and the size
    of the tiling regions in degrees: the index bounds are the tiling-region
    indices of the extreme coordinates. *)
Definition implement_main_globals (o : Options) (dpr : R) : Globals :=
  let G0 := {| Opts := o; degrees_per_region := dpr;
               minimum_latind := 0; maximum_latind := 0;
               minimum_longind := 0; maximum_longind := 0 |} in
  let maxind := coord_to_tiling_region_indices G0
                  {| lat := maximum_latitude; long := maximum_longitude |} in
  let minind := coord_to_tiling_region_indices G0
                  {| lat := minimum_latitude; long := minimum_longitude |} in
  {| Opts := o; degrees_per_region := dpr;
     minimum_latind := fst minind; maximum_latind := fst maxind;
     minimum_longind := snd minind; maximum_longind := snd maxind |}.

End Coords.

(** ** [spheredist] in binary64 arithmetic *)

Module Binary64.

(** The constant and the functions of the C library behind [math.pi],
    [math.sin], [math.cos] and [math.acos]. *)
Record Libm := {
  f_pi : float;
  f_sin : float -> float;
  f_cos : float -> float;
  f_acos : float -> float
}.

Record Coord64 := { lat64 : float; long64 : float }.

(** The floats nearest to 3963.191 and to 1.000001, as Python reads the two
    literals. *)
Definition earth_radius_in_miles : float := 0x1.ef661cac08312p+11%float.
Definition cosine_tolerance : float := 0x1.000010c6f7a0bp+0%float.

Definition anglecos (L : Libm) (p1 p2 : Coord64) : float :=
  (let thisRadLat := (lat64 p1 / 180) * f_pi L in
   let thisRadLong := (long64 p1 / 180) * f_pi L in
   let otherRadLat := (lat64 p2 / 180) * f_pi L in
   let otherRadLong := (long64 p2 / 180) * f_pi L in
   f_sin L thisRadLat * f_sin L otherRadLat
   + f_cos L thisRadLat * f_cos L otherRadLat
     * f_cos L (otherRadLong - thisRadLong))%float.

(** [spheredist] on two coordinates that are not [None]. *)
Definition spheredist (L : Libm) (p1 p2 : Coord64) : float :=
  let c := anglecos L p1 p2 in
  if PrimFloat.ltb 1%float (PrimFloat.abs c) then
    if PrimFloat.ltb cosine_tolerance (PrimFloat.abs c)
    then 1000000%float else 0%float
  else (earth_radius_in_miles * f_acos L c)%float.

End Binary64.

(** ** Strings *)

Module Str.

(** [str.lower()], on the ASCII letters. *)
Definition lower_ascii (c : ascii) : ascii :=
  let n := nat_of_ascii c in
  if ((65 <=? n)%nat && (n <=? 90)%nat)%bool then ascii_of_nat (n + 32) else c.

Fixpoint lower (s : string) : string :=
  match s with
  | EmptyString => EmptyString
  | String c s' => String (lower_ascii c) (lower s')
  end.

Definition upper_ascii (c : ascii) : ascii :=
  let n := nat_of_ascii c in
  if ((97 <=? n)%nat && (n <=? 122)%nat)%bool then ascii_of_nat (n - 32) else c.

(** Modelled from the spec: [capfirst] of the module [textutil], which is not
    among the sources; the spec says that names are stored with initial
    capitalisation, so it puts the first character in upper case. *)
Definition capfirst (s : string) : string :=
  match s with
  | EmptyString => EmptyString
  | String c s' => String (upper_ascii c) s'
  end.

Fixpoint drop (n : nat) (s : string) : string :=
  match n, s with
  | O, _ => s
  | S n', String _ s' => drop n' s'
  | S _, EmptyString => EmptyString
  end.

(** The first occurrence of [sep] in [s]: what is before it and after it. *)
Fixpoint split_first (sep s : string) : option (string * string) :=
  if String.prefix sep s then Some (EmptyString, drop (String.length sep) s)
  else match s with
       | EmptyString => None
       | String c s' =>
           match split_first sep s' with
           | Some (a, b) => Some (String c a, b)
           | None => None
           end
       end.

(** The last occurrence of [sep] in [s]. *)
Fixpoint split_last (sep s : string) : option (string * string) :=
  match s with
  | EmptyString =>
      if String.prefix sep EmptyString then Some (EmptyString, EmptyString)
      else None
  | String c s' =>
      match split_last sep s' with
      | Some (a, b) => Some (String c a, b)
      | None =>
          if String.prefix sep s
          then Some (EmptyString, drop (String.length sep) s)
          else None
      end
  end.

Fixpoint ends_with (c : ascii) (s : string) : bool :=
  match s with
  | EmptyString => false
  | String d EmptyString => Ascii.eqb c d
  | String _ s' => ends_with c s'
  end.

End Str.

(** [compute_short_form], for names without a newline.  Its first regular
    expression (a lazy group, a comma and a space, a group) cuts the name at
    its first comma-space; the second (a greedy group, a space, a
    parenthesised group at the end) cuts a name that ends with a closing
    parenthesis at its last space-parenthesis. *)
Definition compute_short_form (name : string) : string * option string :=
  match Str.split_first ", " name with
  | Some (short, div) => (short, Some div)
  | None =>
      if Str.ends_with ")" name then
        match Str.split_last " (" name with
        | Some (short, _) => (short, None)
        | None => (name, None)
        end
      else (name, None)
  end.

(** ** Word distributions *)

(** Modelled from the spec: the class [WordDist] of the module
    [word_distribution], which is not among the sources.  The spec gives it the
    fields [counts], [total_tokens] and [finished] (and the smoothing masses,
    which are floating-point numbers computed by [finish] and are left out);
    [add_word_distribution] sums counts and is legal only before [finish];
    [finish] freezes the counts. *)
Record WordDist := {
  counts : gmap string Z;
  total_tokens : Z;
  finished : bool
}.

Module WordDists.

Definition init : WordDist :=
  {| counts := ∅; total_tokens := 0; finished := false |}.

Definition add_word_distribution (self other : WordDist) : option WordDist :=
  if finished self then None
  else Some {| counts := union_with (fun a b => Some (a + b)) (counts self) (counts other);
               total_tokens := total_tokens self + total_tokens other;
               finished := false |}.

Definition finish_word_distribution (self : WordDist) : WordDist :=
  {| counts := counts self; total_tokens := total_tokens self; finished := true |}.

End WordDists.

(** ** Articles *)

(** The fields of [StatArticle] that the modelled code reads.  [art_id] is the
    article's [id]; it stands for the identity of the Python object where the
    code tests [art in list]. *)
Record Article := {
  art_id : Z;
  art_title : string;
  art_split : string;
  art_coord : option Coord;
  art_incoming_links : option Z;
  art_dist : option WordDist
}.

Definition same_article (a b : Article) : bool := art_id a =? art_id b.

Definition article_in (a : Article) (l : list Article) : bool :=
  existsb (same_article a) l.

(** ** Region word distributions *)

Record RegionWordDist := {
  base : WordDist;
  articles : list Article;
  num_arts : Z;
  incoming_links : Z
}.

Module RegionWordDists.

Definition init : RegionWordDist :=
  {| base := WordDists.init; articles := []; num_arts := 0; incoming_links := 0 |}.

Definition is_empty (self : RegionWordDist) : bool := num_arts self =? 0.

(** The loop of [add_articles]: [self] with the local counters [num_arts] and
    [incoming_links].  [None] is the failure of [assert art.dist.finished]. *)
Fixpoint add_articles_loop (self : RegionWordDist) (n links : Z)
    (arts : list Article) : option (RegionWordDist * Z * Z) :=
  match arts with
  | [] => Some (self, n, links)
  | art :: rest =>
      match art_dist art with
      | None => add_articles_loop self n links rest
      | Some d =>
          if negb (finished d) then None
          else if negb (String.eqb (art_split art) "training")
          then add_articles_loop self n links rest
          else
            match WordDists.add_word_distribution (base self) d with
            | None => None
            | Some b =>
                let self' := {| base := b; articles := articles self ++ [art];
                                num_arts := num_arts self;
                                incoming_links := incoming_links self |} in
                let links' :=
                  match art_incoming_links art with
                  | Some k => if k =? 0 then links else links + k
                  | None => links
                  end in
                add_articles_loop self' (n + 1) links' rest
            end
      end
  end.

Definition add_articles (self : RegionWordDist) (arts : list Article)
    : option RegionWordDist :=
  match add_articles_loop self 0 0 arts with
  | None => None
  | Some (self', n, links) =>
      Some {| base := base self'; articles := articles self';
              num_arts := num_arts self' + n;
              incoming_links := incoming_links self' + links |}
  end.

Definition finish_distribution (self : RegionWordDist) : RegionWordDist :=
  {| base := WordDists.finish_word_distribution (base self);
     articles := articles self; num_arts := num_arts self;
     incoming_links := incoming_links self |}.

End RegionWordDists.

(** ** Statistical regions *)

(** A [StatRegion] object.  The indices are [None] in the sentinel empty region,
    which the code builds as [cls(None, None)]. *)
Record StatRegion := {
  latind : option Z;
  longind : option Z;
  worddist : RegionWordDist
}.

(** The class attributes of [StatRegion].  [StatRegion] objects live in [heap],
    in allocation order; a reference to one is its position there, so that two
    references to the same object are equal numbers. *)
Record StatRegionClass := {
  tiling_region_to_articles : gmap (Z * Z) (list Article);
  heap : list StatRegion;
  corner_to_stat_region : gmap (Z * Z) nat;
  empty_stat_region : option nat;
  all_regions_computed : bool;
  num_empty_regions : Z;
  num_non_empty_regions : Z
}.

Module StatRegions.

Definition initial : StatRegionClass :=
  {| tiling_region_to_articles := ∅; heap := []; corner_to_stat_region := ∅;
     empty_stat_region := None; all_regions_computed := false;
     num_empty_regions := 0; num_non_empty_regions := 0 |}.

(** [StatRegion.__init__] *)
Definition new (latind longind : option Z) : StatRegion :=
  {| latind := latind; longind := longind; worddist := RegionWordDists.init |}.

(** [range(a, b)] *)
Definition range (a b : Z) : list Z := seqZ a (b - a).

Section WithGlobals.
Variable G : Globals.

(** The tiling regions [generate_dist] processes, in the order of its two
    loops: [(i, jj)] for [i] in [range(reglat, reglat + W)] and [j] in
    [range(reglong, reglong + W)]. *)
Definition scanned_tiles (reglat reglong : Z) : list (Z * Z) :=
  let W := width_of_stat_region (Opts G) in
  i ← range reglat (reglat + W);
  j ← range reglong (reglong + W);
  let jj := if maximum_longind G <? j then minimum_longind G else j in
  [(i, jj)].

(** [process_one_region], on the word distribution of the region under
    construction. *)
Definition process_one_region (tiles : gmap (Z * Z) (list Article))
    (wd : RegionWordDist) (tile : Z * Z) : option RegionWordDist :=
  match tiles !! tile with
  | None | Some [] => Some wd
  | Some arts => RegionWordDists.add_articles wd arts
  end.

Fixpoint process_regions (tiles : gmap (Z * Z) (list Article))
    (wd : RegionWordDist) (l : list (Z * Z)) : option RegionWordDist :=
  match l with
  | [] => Some wd
  | t :: l' =>
      match process_one_region tiles wd t with
      | None => None
      | Some wd' => process_regions tiles wd' l'
      end
  end.

(** [generate_dist]; [None] when an assertion fails, or when the indices are
    [None] ([range] raises [TypeError]). *)
Definition generate_dist (tiles : gmap (Z * Z) (list Article))
    (self : StatRegion) : option StatRegion :=
  match latind self, longind self with
  | Some reglat, Some reglong =>
      match process_regions tiles (worddist self) (scanned_tiles reglat reglong) with
      | None => None
      | Some wd =>
          Some {| latind := latind self; longind := longind self;
                  worddist := RegionWordDists.finish_distribution wd |}
      end
  | _, _ => None
  end.

(** Allocation of a new object: its reference is the next position. *)
Definition alloc (s : StatRegionClass) (r : StatRegion) : StatRegionClass * nat :=
  ({| tiling_region_to_articles := tiling_region_to_articles s;
      heap := heap s ++ [r];
      corner_to_stat_region := corner_to_stat_region s;
      empty_stat_region := empty_stat_region s;
      all_regions_computed := all_regions_computed s;
      num_empty_regions := num_empty_regions s;
      num_non_empty_regions := num_non_empty_regions s |},
   length (heap s)).

Definition find_region_for_region_indices (s : StatRegionClass)
    (latind longind : Z) (no_create_empty : bool)
    : option (StatRegionClass * nat) :=
  match corner_to_stat_region s !! (latind, longind) with
  | Some statreg => Some (s, statreg)
  | None =>
      if all_regions_computed s then
        match empty_stat_region s with
        | Some e => Some (s, e)
        | None =>
            let e := {| latind := None; longind := None;
                        worddist := RegionWordDists.finish_distribution
                                      (worddist (new None None)) |} in
            let '(s1, r) := alloc s e in
            Some ({| tiling_region_to_articles := tiling_region_to_articles s1;
                     heap := heap s1;
                     corner_to_stat_region := corner_to_stat_region s1;
                     empty_stat_region := Some r;
                     all_regions_computed := all_regions_computed s1;
                     num_empty_regions := num_empty_regions s1;
                     num_non_empty_regions := num_non_empty_regions s1 |}, r)
        end
      else
        match generate_dist (tiling_region_to_articles s)
                (new (Some latind) (Some longind)) with
        | None => None
        | Some statreg =>
            let '(s1, r) := alloc s statreg in
            let empty := RegionWordDists.is_empty (worddist statreg) in
            Some ({| tiling_region_to_articles := tiling_region_to_articles s1;
                     heap := heap s1;
                     corner_to_stat_region :=
                       if (negb empty || negb no_create_empty)%bool
                       then <[(latind, longind) := r]> (corner_to_stat_region s1)
                       else corner_to_stat_region s1;
                     empty_stat_region := empty_stat_region s1;
                     all_regions_computed := all_regions_computed s1;
                     num_empty_regions :=
                       if empty then num_empty_regions s1 + 1
                       else num_empty_regions s1;
                     num_non_empty_regions :=
                       if empty then num_non_empty_regions s1
                       else num_non_empty_regions s1 + 1 |}, r)
        end
  end.

Definition find_region_for_coord (s : StatRegionClass) (coord : Coord)
    : option (StatRegionClass * nat) :=
  let '(latind, longind) := Coords.coord_to_stat_region_indices G coord in
  find_region_for_region_indices s latind longind false.

(** The two loops of [generate_all_nonempty_regions], as one loop over the
    index pairs in their order. *)
Fixpoint find_all (s : StatRegionClass) (l : list (Z * Z)) : option StatRegionClass :=
  match l with
  | [] => Some s
  | (i, j) :: l' =>
      match find_region_for_region_indices s i j true with
      | None => None
      | Some (s', _) => find_all s' l'
      end
  end.

Definition all_indices : list (Z * Z) :=
  i ← range (minimum_latind G) (maximum_latind G + 1);
  j ← range (minimum_longind G) (maximum_longind G + 1);
  [(i, j)].

Definition generate_all_nonempty_regions (s : StatRegionClass)
    : option StatRegionClass :=
  match find_all s all_indices with
  | None => None
  | Some s' =>
      Some {| tiling_region_to_articles := tiling_region_to_articles s';
              heap := heap s';
              corner_to_stat_region := corner_to_stat_region s';
              empty_stat_region := empty_stat_region s';
              all_regions_computed := true;
              num_empty_regions := num_empty_regions s';
              num_non_empty_regions := num_non_empty_regions s' |}
  end.

(** [add_article_to_region]; [None] when the article has no coordinate. *)
Definition add_article_to_region (s : StatRegionClass) (article : Article)
    : option StatRegionClass :=
  match art_coord article with
  | None => None
  | Some c =>
      let k := Coords.coord_to_tiling_region_indices G c in
      Some {| tiling_region_to_articles :=
                <[k := (tiling_region_to_articles s !!! k) ++ [article]]>
                  (tiling_region_to_articles s);
              heap := heap s;
              corner_to_stat_region := corner_to_stat_region s;
              empty_stat_region := empty_stat_region s;
              all_regions_computed := all_regions_computed s;
              num_empty_regions := num_empty_regions s;
              num_non_empty_regions := num_non_empty_regions s |}
  end.

(** The states the class can be in: from the initial one by the class
    methods. *)
Inductive reachable : StatRegionClass -> Prop :=
| reach_initial : reachable initial
| reach_add s a s' :
    reachable s -> add_article_to_region s a = Some s' -> reachable s'
| reach_find s i j b s' r :
    reachable s -> find_region_for_region_indices s i j b = Some (s', r) ->
    reachable s'
| reach_generate_all s s' :
    reachable s -> generate_all_nonempty_regions s = Some s' -> reachable s'.

End WithGlobals.

End StatRegions.

(** ** Gazetteer locations *)

(** A [Locality].  [loc_div] refers to the [Division] the locality is in by
    the division's path, which is its key in [path_to_division]. *)
Record Locality := {
  loc_name : string;
  loc_altnames : list string;
  loc_coord : Coord;
  loc_div : option (list string)
}.

Record Boundary := { botleft : Coord; topright : Coord }.

(** A [Division]; [div_div] is the next higher division, by its path. *)
Record Division := {
  div_name : string;
  div_path : list string;
  div_level : Z;
  div_locs : list Locality;
  div_div : option (list string)
}.

(** The class attribute [Division.path_to_division] and
    [Gazetteer.lower_toponym_to_division]; the latter lists divisions by
    their paths. *)
Record DivisionTables := {
  path_to_division : gmap (list string) Division;
  lower_toponym_to_division : gmap string (list (list string))
}.

Module Divisions.

(** [Boundary.__contains__] *)
Definition contains (b : Boundary) (coord : Coord) : Prop :=
  (lat (botleft b) <= lat coord /\ lat coord <= lat (topright b) /\
   long (botleft b) <= long coord /\ long coord <= long (topright b))%R.

(** [min] and [max] of a sequence of floats; [None] for the empty sequence
    ([ValueError]). *)
Definition min_of (l : list R) : option R :=
  match l with
  | [] => None
  | x :: l' => Some (fold_left Rmin l' x)
  end.

Definition max_of (l : list R) : option R :=
  match l with
  | [] => None
  | x :: l' => Some (fold_left Rmax l' x)
  end.

(** [compute_boundary]: [goodlocs] is all of [locs] (the outlier test is
    commented out in the source), and the boundary is their bounding box. *)
Definition goodlocs (d : Division) : list Locality := div_locs d.

Definition compute_boundary (d : Division) : option Boundary :=
  let lats := map (fun x => lat (loc_coord x)) (goodlocs d) in
  let longs := map (fun x => long (loc_coord x)) (goodlocs d) in
  match min_of lats, min_of longs, max_of lats, max_of longs with
  | Some a, Some b, Some c, Some d' =>
      Some {| botleft := {| lat := a; long := b |};
              topright := {| lat := c; long := d' |} |}
  | _, _, _, _ => None
  end.

(** [Division.__init__], followed by the assignment of [div] that the only
    caller makes. *)
Definition new (path : list string) (higherdiv : option (list string)) : Division :=
  {| div_name := List.last path EmptyString; div_path := path;
     div_level := Z.of_nat (length path); div_locs := [];
     div_div := higherdiv |}.

Definition add_loc (d : Division) (loc : Locality) : Division :=
  {| div_name := div_name d; div_path := div_path d; div_level := div_level d;
     div_locs := div_locs d ++ [loc]; div_div := div_div d |}.

(** [note_point_seen_in_division], by recursion on the reversed path: the
    recursive call is on [path[0:-1]].  The result is the tables and the
    division returned (its path), or [None] for the [IndexError] of [path[-1]]
    on an empty path. *)
Fixpoint note_point_rev (t : DivisionTables) (loc : Locality)
    (rpath : list string) : option (DivisionTables * option (list string)) :=
  match rpath with
  | [] => None
  | name :: rinit =>
      let path := rev rpath in
      let higher :=
        match rinit with
        | [] => Some (t, None)
        | _ :: _ => note_point_rev t loc rinit
        end in
      match higher with
      | None => None
      | Some (t1, higherdiv) =>
          if String.eqb name EmptyString then Some (t1, higherdiv)
          else
            let '(t2, division) :=
              match path_to_division t1 !! path with
              | Some d => (t1, d)
              | None =>
                  let d := new path higherdiv in
                  ({| path_to_division := <[path := d]> (path_to_division t1);
                      lower_toponym_to_division :=
                        <[Str.lower name :=
                            (lower_toponym_to_division t1 !!! Str.lower name)
                            ++ [path]]> (lower_toponym_to_division t1) |}, d)
              end in
            Some ({| path_to_division :=
                       <[path := add_loc division loc]> (path_to_division t2);
                     lower_toponym_to_division := lower_toponym_to_division t2 |},
                  Some path)
      end
  end.

Definition note_point_seen_in_division (t : DivisionTables) (loc : Locality)
    (path : list string) : option (DivisionTables * option (list string)) :=
  note_point_rev t loc (rev path).

End Divisions.

(** ** The article table *)

(** The class attributes of [ArticleTable].  The [listdict] tables are read
    with the default [[]] for a missing key. *)
Record ArticleTable := {
  short_lower_name_to_articles : gmap string (list Article);
  lower_name_div_to_articles : gmap (string * string) (list Article);
  name_to_article : gmap string Article;
  lower_toponym_to_article : gmap string (list Article);
  lower_name_to_articles : gmap string (list Article);
  articles_by_split : gmap string (list Article)
}.

Module ArticleTables.

Definition initial : ArticleTable :=
  {| short_lower_name_to_articles := ∅; lower_name_div_to_articles := ∅;
     name_to_article := ∅; lower_toponym_to_article := ∅;
     lower_name_to_articles := ∅; articles_by_split := ∅ |}.

(** [table[key] += [art]] on a [listdict]. *)
Definition append {K} `{Countable K} (m : gmap K (list Article)) (k : K)
    (art : Article) : gmap K (list Article) :=
  <[k := (m !!! k) ++ [art]]> m.

(** [if art not in table[key]: table[key] += [art]] *)
Definition append_new (m : gmap string (list Article)) (k : string)
    (art : Article) : gmap string (list Article) :=
  if article_in art (m !!! k) then m else append m k art.

(** [lookup_article]; [None] is the result [None] of the Python method (the
    assertion that the name is not empty is left to the caller). *)
Definition lookup_article (t : ArticleTable) (name : string) : option Article :=
  name_to_article t !! Str.capfirst name.

(** [record_article]; [None] when [assert name == capfirst(name)] fails. *)
Definition record_article (t : ArticleTable) (name : string) (art : Article)
    (is_redirect : bool) : option ArticleTable :=
  if negb (String.eqb name (Str.capfirst name)) then None
  else
    let name_to_article' := <[name := art]> (name_to_article t) in
    let loname := Str.lower name in
    let lower_name_to_articles' := append (lower_name_to_articles t) loname art in
    let '(short, div) := compute_short_form loname in
    let lower_name_div_to_articles' :=
      match div with
      | Some d =>
          if String.eqb d EmptyString then lower_name_div_to_articles t
          else append (lower_name_div_to_articles t) (short, d) art
      | None => lower_name_div_to_articles t
      end in
    let short_lower_name_to_articles' :=
      append (short_lower_name_to_articles t) short art in
    let topo1 := append_new (lower_toponym_to_article t) loname art in
    let topo2 :=
      if negb (String.eqb short loname) then append_new topo1 short art
      else topo1 in
    let articles_by_split' :=
      if negb is_redirect then
        let splithash :=
          match articles_by_split t !! art_split art with
          | Some _ => articles_by_split t
          | None => <[art_split art := []]> (articles_by_split t)
          end in
        <[art_split art := (splithash !!! art_split art) ++ [art]]> splithash
      else articles_by_split t in
    Some {| short_lower_name_to_articles := short_lower_name_to_articles';
            lower_name_div_to_articles := lower_name_div_to_articles';
            name_to_article := name_to_article';
            lower_toponym_to_article := topo2;
            lower_name_to_articles := lower_name_to_articles';
            articles_by_split := articles_by_split' |}.

Section Matching.
(** [check_match] and [prefer_match] are arguments of the matching methods;
    [py_sorted] stands for the builtin [sorted] called with a [cmp] function
    and [reverse=True]. *)
Variable py_sorted : (Article -> Article -> Z) -> list Article -> list Article.
Variable t : ArticleTable.
Variable check_match : Locality -> Article -> bool.
Variable prefer_match : Locality -> Article -> Article -> bool.

(** The three families of candidate lists that [find_one_wikipedia_match]
    goes through for [name]. *)
Definition same_name_articles (name : string) : list Article :=
  lower_name_to_articles t !!! Str.lower name.

Definition name_div_articles (loc : Locality) (name : string) : list Article :=
  match loc_div loc with
  | None => []
  | Some path =>
      div ← path; lower_name_div_to_articles t !!! (Str.lower name, Str.lower div)
  end.

Definition short_name_articles (name : string) : list Article :=
  short_lower_name_to_articles t !!! Str.lower name.

Definition find_one_wikipedia_match (loc : Locality) (name : string)
    : option Article :=
  match List.find (check_match loc) (same_name_articles name) with
  | Some art => Some art
  | None =>
      match List.find (check_match loc) (name_div_articles loc name) with
      | Some art => Some art
      | None =>
          let goodarts := List.filter (check_match loc) (short_name_articles name) in
          match goodarts with
          | [] => None
          | [art] => Some art
          | _ :: _ :: _ =>
              let sortedarts :=
                py_sorted (fun x y => if prefer_match loc x y then 1 else -1)
                  goodarts in
              List.head sortedarts
          end
      end
  end.

Fixpoint first_match (loc : Locality) (names : list string) : option Article :=
  match names with
  | [] => None
  | name :: rest =>
      match find_one_wikipedia_match loc name with
      | Some art => Some art
      | None => first_match loc rest
      end
  end.

(** [find_wikipedia_match]: the canonical name, then the alternate names. *)
Definition find_wikipedia_match (loc : Locality) : option Article :=
  first_match loc (loc_name loc :: loc_altnames loc).

End Matching.

(** [find_match_for_locality], with its two local functions. *)
Definition check_match_locality (M : MathModule) (maxdist : R)
    (loc : Locality) (art : Article) : bool :=
  if Rle_dec (Coords.spheredist M (Some (loc_coord loc)) (art_coord art)) maxdist
  then true else false.

Definition prefer_match_locality (M : MathModule) (loc : Locality)
    (art1 art2 : Article) : bool :=
  if Rlt_dec (Coords.spheredist M (Some (loc_coord loc)) (art_coord art1))
            (Coords.spheredist M (Some (loc_coord loc)) (art_coord art2))
  then true else false.

Definition find_match_for_locality
    (py_sorted : (Article -> Article -> Z) -> list Article -> list Article)
    (M : MathModule) (t : ArticleTable) (loc : Locality) (maxdist : R)
    : option Article :=
  find_wikipedia_match py_sorted t (check_match_locality M maxdist)
    (prefer_match_locality M) loc.

End ArticleTables.

(** ** The world gazetteer: matching a locality *)

Module WorldGazetteer.

(** What the matching loop of [match_world_gazetteer_entry] leaves in the
    local variable [match]. *)
Inductive ring_outcome :=
| Matched (art : Article)
| Unmatched
| Unbound.  (* the loop body never ran: reading [match] raises *)

Section Ring.
(** [find maxdist] is [ArticleTable.find_match_for_locality(loc, maxdist)] and
    [limit] is [Opts.max_dist_for_close_match]. *)
Variable find : R -> option Article.
Variable limit : R.

(** The loop [while maxdist <= limit], with the radii at which [find] was
    called, in order.  [None]: out of fuel. *)
Fixpoint ring_loop (fuel : nat) (maxdist : Z) : option (list Z * option Article) :=
  match fuel with
  | O => None
  | S fuel' =>
      if Rle_dec (IZR maxdist) limit then
        match find (IZR maxdist) with
        | Some art => Some ([maxdist], Some art)
        | None =>
            match ring_loop fuel' (maxdist * 2) with
            | Some (tried, r) => Some (maxdist :: tried, r)
            | None => None
            end
        end
      else Some ([], None)
  end.

(** Fuel that is enough for every limit (see [ring_search_total]). *)
Definition ring_fuel : nat := S (Z.to_nat (up limit)).

(** The loop started at [maxdist = 5]. *)
Definition ring_search : option (list Z * ring_outcome) :=
  match ring_loop ring_fuel 5 with
  | None => None
  | Some ([], _) => Some ([], Unbound)
  | Some (tried, Some art) => Some (tried, Matched art)
  | Some (tried, None) => Some (tried, Unmatched)
  end.

End Ring.

(** The matching part of [match_world_gazetteer_entry] for a locality. *)
Definition match_locality
    (py_sorted : (Article -> Article -> Z) -> list Article -> list Article)
    (M : MathModule) (G : Globals) (t : ArticleTable) (loc : Locality)
    : option (list Z * ring_outcome) :=
  ring_search (ArticleTables.find_match_for_locality py_sorted M t loc)
    (max_dist_for_close_match (Opts G)).

End WorldGazetteer.

(** ** Accumulating results *)

(** An [Eval] object.  [attrs] holds its integer attributes by name (the three
    counters and one counter per reason), as [setattr] and [getattr] see them;
    an attribute bound to a value of another kind is not in [attrs].
    [incorrect_reasons] is the table given to [__init__] and [other_stats] the
    [intdict] of the other statistics. *)
Record Eval := {
  attrs : gmap string Z;
  incorrect_reasons : list (string * string);
  other_stats : gmap string Z
}.

Module Evals.

Definition set_attr (self : Eval) (name : string) (v : Z) : Eval :=
  {| attrs := <[name := v]> (attrs self);
     incorrect_reasons := incorrect_reasons self;
     other_stats := other_stats self |}.

(** [self.name += 1]; [None] when the attribute does not exist
    ([AttributeError]) or is not a number ([TypeError]). *)
Definition incr_attr (self : Eval) (name : string) : option Eval :=
  match attrs self !! name with
  | Some v => Some (set_attr self name (v + 1))
  | None => None
  end.

(** [Eval.__init__]: the three counters, the table of reasons, one counter per
    reason, and last the attribute [other_stats], which from then on is bound
    to an [intdict] and not to a number. *)
Definition init (reasons : list (string * string)) : Eval :=
  let self0 :=
    {| attrs := <["incorrect_instances" := 0]>
                  (<["correct_instances" := 0]>
                     (<["total_instances" := 0]> ∅));
       incorrect_reasons := reasons; other_stats := ∅ |} in
  let self1 :=
    fold_left (fun self '(attrname, _) => set_attr self attrname 0) reasons self0 in
  {| attrs := delete "other_stats" (attrs self1);
     incorrect_reasons := incorrect_reasons self1; other_stats := ∅ |}.

Definition record_result (self : Eval) (correct : bool) (reason : option string)
    : option Eval :=
  match incr_attr self "total_instances" with
  | None => None
  | Some self1 =>
      if correct then incr_attr self1 "correct_instances"
      else
        match incr_attr self1 "incorrect_instances" with
        | None => None
        | Some self2 =>
            match reason with
            | Some r => incr_attr self2 r
            | None => Some self2
            end
        end
  end.

(** A sequence of calls of [record_result]. *)
Fixpoint record_results (self : Eval) (results : list (bool * option string))
    : option Eval :=
  match results with
  | [] => Some self
  | (correct, reason) :: rest =>
      match record_result self correct reason with
      | None => None
      | Some self' => record_results self' rest
      end
  end.

Definition total_instances (self : Eval) : option Z := attrs self !! "total_instances".
Definition correct_instances (self : Eval) : option Z := attrs self !! "correct_instances".
Definition incorrect_instances (self : Eval) : option Z := attrs self !! "incorrect_instances".

(** The reason table of [Results.incorrect_geotag_toponym_reasons]. *)
Definition incorrect_geotag_toponym_reasons : list (string * string) :=
  [("incorrect_with_no_candidates", "Incorrect, with no candidates");
   ("incorrect_with_no_correct_candidates",
    "Incorrect, with candidates but no correct candidates");
   ("incorrect_with_multiple_correct_candidates",
    "Incorrect, with multiple correct candidates");
   ("incorrect_one_correct_candidate_missing_link_info",
    "Incorrect, with one correct candidate, but link info missing");
   ("incorrect_one_correct_candidate", "Incorrect, with one correct candidate")].

(** The names of the three counters. *)
Definition counter_names : list string :=
  ["total_instances"; "correct_instances"; "incorrect_instances"].

(** The invariant: the three counters exist and the total is the sum of the
    other two. *)
Definition balanced (self : Eval) : Prop :=
  exists t c i,
    total_instances self = Some t /\ correct_instances self = Some c /\
    incorrect_instances self = Some i /\ t = c + i.

(** A reason that [record_result] can be given for [self]: none, or the name
    of one of the reason counters of [self]. *)
Definition reason_of (self : Eval) (reason : option string) : Prop :=
  match reason with
  | None => True
  | Some r => In r (map fst (incorrect_reasons self))
  end.

End Evals.

(** ** Toponym strategies *)

(** The two kinds of object whose attributes the methods below read: a
    [NaiveBayesStrategy] instance, to which [__init__] gives the one attribute
    [use_baseline], and a [GeotagToponymEvaluator] instance, which has [opts]
    and [strategy]. *)
Inductive PyObject :=
| StrategyObject (use_baseline : bool)
| EvaluatorObject (opts : Options) (strategy : PyObject).

Module Strategies.

(** Attribute reads; [None] is [AttributeError]. *)
Definition get_opts (self : PyObject) : option Options :=
  match self with
  | EvaluatorObject o _ => Some o
  | StrategyObject _ => None
  end.

Definition get_strategy (self : PyObject) : option PyObject :=
  match self with
  | EvaluatorObject _ s => Some s
  | StrategyObject _ => None
  end.

Definition get_use_baseline (self : PyObject) : option bool :=
  match self with
  | StrategyObject b => Some b
  | EvaluatorObject _ _ => None
  end.

Definition get_adjusted_incoming_links (art : Article) : R :=
  let thislinks := match art_incoming_links art with
                   | None => 0
                   | Some k => k
                   end in
  if thislinks =? 0 then 0.01%R else IZR thislinks.

Section NaiveBayes.
Variable M : MathModule.
Variable G : Globals.
(** [WordDist.lookup_word], of the module [word_distribution], and the result
    of [art.find_regworddist()] (which builds the distribution of the
    article's region on first use). *)
Variable lookup_word : WordDist -> string -> R.
Variable find_regworddist : Article -> WordDist.

(** The weight of a context word at distance [dist]; [None] is the
    [ZeroDivisionError] of [1.0/(1+dist)]. *)
Definition word_weight_at (weighting : string) (dist : Z) : option R :=
  if (String.eqb weighting "equal" || String.eqb weighting "equal-words")%bool
  then Some 1%R
  else if 1 + dist =? 0 then None else Some (1 / IZR (1 + dist))%R.

(** The loop over [geogword.context] in the first definition of
    [compute_score]: the pair [(totalprob, total_word_weight)].  [None] is an
    exception: no distribution to look the word up in, a zero division, or the
    logarithm of a number that is not positive. *)
Fixpoint context_loop (weighting : string) (distobj : option WordDist)
    (context : list (Z * string)) (acc : R * R) : option (R * R) :=
  match context with
  | [] => Some acc
  | (dist, word) :: rest =>
      let word := if preserve_case_words (Opts G) then word else Str.lower word in
      match distobj with
      | None => None
      | Some d =>
          let wordprob := lookup_word d word in
          match word_weight_at weighting dist with
          | None => None
          | Some thisweight =>
              if Rle_dec wordprob 0 then None
              else context_loop weighting distobj rest
                     (fst acc + thisweight * m_log M wordprob,
                      snd acc + thisweight)%R
          end
      end
  end.

(** The first definition of [compute_score] in the body of
    [NaiveBayesStrategy] (lines 1324 to 1368). *)
Definition compute_score_first (self : PyObject) (context : list (Z * string))
    (art : Article) : option R :=
  let thislinks := get_adjusted_incoming_links art in
  match get_opts self with
  | None => None
  | Some o =>
      let distobj :=
        if String.eqb (naive_bayes_type o) "article" then art_dist art
        else Some (find_regworddist art) in
      match get_strategy self with
      | None => None
      | Some strat =>
          match get_use_baseline strat with
          | None => None
          | Some ub =>
              let '(word_weight, baseline_weight) :=
                if negb ub then (1, 0)%R
                else if String.eqb (naive_bayes_weighting o) "equal" then (1, 1)%R
                else ((1 - baseline_weight o)%R, baseline_weight o) in
              match context_loop (naive_bayes_weighting o) distobj context (0, 0)%R with
              | None => None
              | Some (totalprob, total_word_weight) =>
                  let totalprob :=
                    if Rlt_dec 0 total_word_weight
                    then (totalprob / total_word_weight)%R else totalprob in
                  Some (totalprob * word_weight
                        + baseline_weight * m_log M thislinks)%R
              end
          end
      end
  end.

(** The second definition of [compute_score] in the same class body (lines
    1373 to 1374). *)
Definition compute_score_second (self : PyObject) (context : list (Z * string))
    (art : Article) : option R :=
  Some (get_adjusted_incoming_links art).

(** The [def] statements of the body of [NaiveBayesStrategy] that bind
    [compute_score], in the order of the source. *)
Definition Method : Type := PyObject -> list (Z * string) -> Article -> option R.

Definition NaiveBayesStrategy_body : list (string * Method) :=
  [("compute_score", compute_score_first);
   ("compute_score", compute_score_second)].

(** Executing a class body: each [def] assigns its name in the class
    namespace, a later one replacing an earlier one. *)
Definition class_namespace (body : list (string * Method)) : gmap string Method :=
  fold_left (fun ns '(name, f) => <[name := f]> ns) body ∅.

(** [strategy.compute_score(geogword, art)] on an instance of
    [NaiveBayesStrategy]; [geogword] is given by its context. *)
Definition NaiveBayesStrategy_compute_score (self : PyObject)
    (context : list (Z * string)) (art : Article) : option R :=
  match class_namespace NaiveBayesStrategy_body !! "compute_score" with
  | Some f => f self context art
  | None => None
  end.

(** The score as the specification states it, for the strategy's
    [use_baseline] and the options [o]. *)
Definition weight_spec (o : Options) (d : Z) : R :=
  if (String.eqb (naive_bayes_weighting o) "equal"
      || String.eqb (naive_bayes_weighting o) "equal-words")%bool
  then 1%R else (1 / IZR (1 + d))%R.

Definition word_of (w : string) : string :=
  if preserve_case_words (Opts G) then w else Str.lower w.

Definition sum_R (l : list R) : R := fold_right Rplus 0%R l.

Definition score_spec (ub : bool) (o : Options) (distobj : WordDist)
    (context : list (Z * string)) (art : Article) : R :=
  let wordWeight :=
    if negb ub then 1%R
    else if String.eqb (naive_bayes_weighting o) "equal" then 1%R
    else (1 - baseline_weight o)%R in
  let baselineWeight :=
    if negb ub then 0%R
    else if String.eqb (naive_bayes_weighting o) "equal" then 1%R
    else baseline_weight o in
  let total_weight := sum_R (map (fun '(d, _) => weight_spec o d) context) in
  let weighted :=
    sum_R (map (fun '(d, w) =>
                  (weight_spec o d * m_log M (lookup_word distobj (word_of w)))%R)
               context) in
  let wordLogProb :=
    if Rlt_dec 0 total_weight then (weighted / total_weight)%R else weighted in
  (wordWeight * wordLogProb
   + baselineWeight * m_log M (get_adjusted_incoming_links art))%R.

End NaiveBayes.

End Strategies.

(** ** Accumulating results: the subclasses of [Eval] *)

(** [d[k]] and [d[k] += 1] on an [intdict], a dictionary whose missing keys
    read as 0. *)
Definition intdict_get {K} `{Countable K} (d : gmap K Z) (k : K) : Z :=
  default 0 (d !! k).

Definition intdict_incr {K} `{Countable K} (d : gmap K Z) (k : K) : gmap K Z :=
  <[k := intdict_get d k + 1]> d.

(** An [EvalWithCandidateList] object: the attributes of [Eval] and the three
    tables by number of candidates. *)
Record EvalWithCandidateList := {
  cl_base : Eval;
  total_instances_by_num_candidates : gmap Z Z;
  correct_instances_by_num_candidates : gmap Z Z;
  incorrect_instances_by_num_candidates : gmap Z Z
}.

Module EvalsWithCandidateList.

(** [__init__]: after [Eval.__init__], [max_individual_candidates] is bound
    to a number and the three tables to [intdict]s, which are not numbers. *)
Definition init (reasons : list (string * string)) (max_individual_candidates : Z)
    : EvalWithCandidateList :=
  let base := Evals.init reasons in
  {| cl_base :=
       {| attrs :=
            delete "incorrect_instances_by_num_candidates"
              (delete "correct_instances_by_num_candidates"
                 (delete "total_instances_by_num_candidates"
                    (<["max_individual_candidates" := max_individual_candidates]>
                       (attrs base))));
          incorrect_reasons := incorrect_reasons base;
          other_stats := other_stats base |};
     total_instances_by_num_candidates := ∅;
     correct_instances_by_num_candidates := ∅;
     incorrect_instances_by_num_candidates := ∅ |}.

Definition record_result (self : EvalWithCandidateList) (correct : bool)
    (reason : option string) (num_arts : Z) : option EvalWithCandidateList :=
  match Evals.record_result (cl_base self) correct reason with
  | None => None
  | Some base =>
      Some {| cl_base := base;
              total_instances_by_num_candidates :=
                intdict_incr (total_instances_by_num_candidates self) num_arts;
              correct_instances_by_num_candidates :=
                if correct
                then intdict_incr (correct_instances_by_num_candidates self) num_arts
                else correct_instances_by_num_candidates self;
              incorrect_instances_by_num_candidates :=
                if correct
                then incorrect_instances_by_num_candidates self
                else intdict_incr (incorrect_instances_by_num_candidates self)
                       num_arts |}
  end.

(** A sequence of calls of [record_result]. *)
Fixpoint record_results (self : EvalWithCandidateList)
    (results : list (bool * option string * Z)) : option EvalWithCandidateList :=
  match results with
  | [] => Some self
  | (correct, reason, num_arts) :: rest =>
      match record_result self correct reason num_arts with
      | None => None
      | Some self' => record_results self' rest
      end
  end.

End EvalsWithCandidateList.

(** An [EvalWithRank] object.  Its table of reasons is empty and its results
    are recorded without a reason, so that the numbers it adds to [Eval] are
    plain fields. *)
Record EvalWithRank := {
  rk_base : Eval;
  max_rank_for_credit : Z;
  incorrect_by_exact_rank : gmap Z Z;
  correct_by_up_to_rank : gmap Z Z;
  incorrect_past_max_rank : Z;
  total_credit : Z
}.

Module EvalsWithRank.

Definition init (max_rank_for_credit : Z) : EvalWithRank :=
  {| rk_base := Evals.init [];
     max_rank_for_credit := max_rank_for_credit;
     incorrect_by_exact_rank := ∅;
     correct_by_up_to_rank := ∅;
     incorrect_past_max_rank := 0;
     total_credit := 0 |}.

(** [record_result]; [None] when [assert rank >= 1] fails. *)
Definition record_result (self : EvalWithRank) (rank : Z) : option EvalWithRank :=
  if rank <? 1 then None
  else
    let correct := rank =? 1 in
    match Evals.record_result (rk_base self) correct None with
    | None => None
    | Some base =>
        if rank <=? max_rank_for_credit self then
          Some {| rk_base := base;
                  max_rank_for_credit := max_rank_for_credit self;
                  incorrect_by_exact_rank :=
                    intdict_incr (incorrect_by_exact_rank self) rank;
                  correct_by_up_to_rank :=
                    fold_left intdict_incr
                      (StatRegions.range rank (max_rank_for_credit self + 1))
                      (correct_by_up_to_rank self);
                  incorrect_past_max_rank := incorrect_past_max_rank self;
                  total_credit :=
                    total_credit self + (max_rank_for_credit self + 1 - rank) |}
        else
          Some {| rk_base := base;
                  max_rank_for_credit := max_rank_for_credit self;
                  incorrect_by_exact_rank := incorrect_by_exact_rank self;
                  correct_by_up_to_rank := correct_by_up_to_rank self;
                  incorrect_past_max_rank := incorrect_past_max_rank self + 1;
                  total_credit := total_credit self |}
    end.

Fixpoint record_results (self : EvalWithRank) (ranks : list Z) : option EvalWithRank :=
  match ranks with
  | [] => Some self
  | rank :: rest =>
      match record_result self rank with
      | None => None
      | Some self' => record_results self' rest
      end
  end.

End EvalsWithRank.

(** The three accumulators of [Results] for geotagging toponyms. *)
Record ToponymResults := {
  all_toponym : EvalWithCandidateList;
  diff_surface : EvalWithCandidateList;
  diff_short : EvalWithCandidateList
}.

(** One result of [disambiguate_toponym], as it is passed to
    [record_geotag_toponym_result]. *)
Record ToponymResult := {
  tr_correct : bool;
  tr_toponym : string;
  tr_trueloc : string;
  tr_reason : option string;
  tr_num_arts : Z
}.

Module Results.

Definition init : ToponymResults :=
  {| all_toponym :=
       EvalsWithCandidateList.init Evals.incorrect_geotag_toponym_reasons 5;
     diff_surface :=
       EvalsWithCandidateList.init Evals.incorrect_geotag_toponym_reasons 5;
     diff_short :=
       EvalsWithCandidateList.init Evals.incorrect_geotag_toponym_reasons 5 |}.

Definition record_geotag_toponym_result (cls : ToponymResults) (x : ToponymResult)
    : option ToponymResults :=
  let record self :=
    EvalsWithCandidateList.record_result self (tr_correct x) (tr_reason x)
      (tr_num_arts x) in
  match record (all_toponym cls) with
  | None => None
  | Some all =>
      if negb (String.eqb (tr_toponym x) (tr_trueloc x)) then
        match record (diff_surface cls) with
        | None => None
        | Some surface =>
            let '(short, _) := compute_short_form (tr_trueloc x) in
            if negb (String.eqb (tr_toponym x) short) then
              match record (diff_short cls) with
              | None => None
              | Some short' =>
                  Some {| all_toponym := all; diff_surface := surface;
                          diff_short := short' |}
              end
            else Some {| all_toponym := all; diff_surface := surface;
                         diff_short := diff_short cls |}
        end
      else Some {| all_toponym := all; diff_surface := diff_surface cls;
                   diff_short := diff_short cls |}
  end.

Fixpoint record_all (cls : ToponymResults) (xs : list ToponymResult)
    : option ToponymResults :=
  match xs with
  | [] => Some cls
  | x :: rest =>
      match record_geotag_toponym_result cls x with
      | None => None
      | Some cls' => record_all cls' rest
      end
  end.

End Results.

(** ** Words of an evaluation file and their contexts *)

(** A [GeogWord] object. *)
Record GeogWord := {
  gw_word : string;
  gw_is_stop : bool;
  gw_is_toponym : bool;
  gw_coord : option Coord;
  gw_location : option string;
  gw_context : option (list (Z * string));
  gw_document : option string
}.

Module Documents.

(** [l[lo:hi]], with Python's reading of negative and of too large bounds. *)
Definition slice_bound (len k : Z) : Z :=
  if k <? 0 then Z.max (k + len) 0 else Z.min k len.

Definition slice {A} (l : list A) (lo hi : Z) : list A :=
  let len := Z.of_nat (length l) in
  let lo' := slice_bound len lo in
  let hi' := slice_bound len hi in
  take (Z.to_nat (hi' - lo')) (drop (Z.to_nat lo') l).

Section YieldDocuments.
(** [nbcl] is [Opts.naive_bayes_context_len], [stopwords] the global set of
    stopwords and [need_context] the result of
    [self.strategy.need_context()]. *)
Variable nbcl : Z.
Variable stopwords : gset string.
Variable need_context : bool.

(** The first loop of [yield_documents] at one word. *)
Definition mark_stopword (w : GeogWord) : GeogWord :=
  {| gw_word := gw_word w;
     gw_is_stop :=
       match gw_coord w with
       | None => bool_decide (gw_word w ∈ stopwords)
       | Some _ => false
       end;
     gw_is_toponym := gw_is_toponym w; gw_coord := gw_coord w;
     gw_location := gw_location w; gw_context := gw_context w;
     gw_document := gw_document w |}.

(** The context computed for the word at index [i] of [results]. *)
Definition context_at (results : list GeogWord) (i : Z) : list (Z * string) :=
  let minind := Z.max 0 (i - nbcl) in
  let maxind := Z.min (Z.of_nat (length results)) (i + nbcl + 1) in
  map (fun '(dist, x) => (dist, gw_word x))
    (List.filter (fun '(_, x) => negb (bool_decide (gw_word x ∈ stopwords)))
       (zip (StatRegions.range (i - minind) (i - maxind))
          (slice results minind maxind))).

(** The second loop at the word of index [i]. *)
Definition set_context (results : list GeogWord) (i : nat) (w : GeogWord)
    : GeogWord :=
  match gw_coord w with
  | None => w
  | Some _ =>
      {| gw_word := gw_word w; gw_is_stop := gw_is_stop w;
         gw_is_toponym := gw_is_toponym w; gw_coord := gw_coord w;
         gw_location := gw_location w;
         gw_context := Some (context_at results (Z.of_nat i));
         gw_document := gw_document w |}
  end.

(** What [yield_documents] yields for the words [results] of one document:
    the words with a coordinate, after the two loops. *)
Definition yield_document (results : list GeogWord) : list GeogWord :=
  let results' :=
    if need_context then
      let marked := map mark_stopword results in
      imap (set_context marked) marked
    else results in
  List.filter (fun w => match gw_coord w with Some _ => true | None => false end)
    results'.

End YieldDocuments.

End Documents.

(** ** Disambiguating a toponym *)

Module Toponyms.

(** The score below every score: [-1e308]. *)
Definition lowest_score : R := (- 10 ^ 308)%R.

Section Disambiguate.
(** [compute_score art] is [self.strategy.compute_score(geogword, art)], with
    [None] for an exception, and [matches_coord art] is
    [art.matches_coord(coord)] for the coordinate of the toponym. *)
Variable compute_score : Article -> option R.
Variable matches_coord : Article -> bool.

(** The loop over [locs]: the match of each location is appended to
    [articles] unless it is there already. *)
Fixpoint add_matches (articles : list Article) (matches : list (option Article))
    : list Article :=
  match matches with
  | [] => articles
  | None :: rest => add_matches articles rest
  | Some m :: rest =>
      if article_in m articles then add_matches articles rest
      else add_matches (articles ++ [m]) rest
  end.

(** The loop over [articles]: the pair [(bestscore, bestart)]. *)
Fixpoint best_loop (articles : list Article) (bestscore : R)
    (bestart : option Article) : option (R * option Article) :=
  match articles with
  | [] => Some (bestscore, bestart)
  | art :: rest =>
      match compute_score art with
      | None => None
      | Some thisscore =>
          if Rlt_dec bestscore thisscore then best_loop rest thisscore (Some art)
          else best_loop rest bestscore bestart
      end
  end.

(** The reason given for an incorrect result. *)
Definition incorrect_reason (articles : list Article) : string :=
  match articles with
  | [] => "incorrect_with_no_candidates"
  | _ :: _ =>
      match List.filter matches_coord articles with
      | [] => "incorrect_with_no_correct_candidates"
      | [goodart] =>
          match art_incoming_links goodart with
          | None => "incorrect_one_correct_candidate_missing_link_info"
          | Some _ => "incorrect_one_correct_candidate"
          end
      | _ :: _ :: _ => "incorrect_with_multiple_correct_candidates"
      end
  end.

(** The part of [disambiguate_toponym] before the result is recorded, for a
    toponym with a coordinate: the candidate articles (the list filed under
    the lowercased toponym in [lower_toponym_to_article], to which the matches
    of the gazetteer locations of that name are appended in place), the best
    article and the result.  [matches] lists the [match] attribute of each
    location of [Gazetteer.lower_toponym_to_location[lotop] +
    Gazetteer.lower_toponym_to_division[lotop]]. *)
Definition judge (articles0 : list Article) (matches : list (option Article))
    : option (list Article * option Article * bool * option string) :=
  let articles := add_matches articles0 matches in
  match articles with
  | [] => Some (articles, None, false, Some (incorrect_reason articles))
  | _ :: _ =>
      match best_loop articles lowest_score None with
      | None => None
      | Some (_, bestart) =>
          let correct :=
            match bestart with
            | Some art => matches_coord art
            | None => false
            end in
          Some (articles, bestart, correct,
                if correct then None else Some (incorrect_reason articles))
      end
  end.

(** [disambiguate_toponym]: the article table (whose list for the toponym has
    grown) and the accumulators of [Results] afterwards.  [None] is an
    exception. *)
Definition disambiguate_toponym (t : ArticleTable) (cls : ToponymResults)
    (matches : list (option Article)) (geogword : GeogWord)
    : option (ArticleTable * ToponymResults) :=
  match gw_coord geogword with
  | None => Some (t, cls)
  | Some _ =>
      let lotop := Str.lower (gw_word geogword) in
      match judge (lower_toponym_to_article t !!! lotop) matches with
      | None => None
      | Some (articles, _, correct, reason) =>
          let t' :=
            {| short_lower_name_to_articles := short_lower_name_to_articles t;
               lower_name_div_to_articles := lower_name_div_to_articles t;
               name_to_article := name_to_article t;
               lower_toponym_to_article :=
                 <[lotop := articles]> (lower_toponym_to_article t);
               lower_name_to_articles := lower_name_to_articles t;
               articles_by_split := articles_by_split t |} in
          match gw_location geogword with
          | None => None
          | Some trueloc =>
              match Results.record_geotag_toponym_result cls
                      {| tr_correct := correct; tr_toponym := gw_word geogword;
                         tr_trueloc := trueloc; tr_reason := reason;
                         tr_num_arts := Z.of_nat (length articles) |} with
              | None => None
              | Some cls' => Some (t', cls')
              end
          end
      end
  end.

End Disambiguate.

End Toponyms.

(** ** Reading the article data *)

(** An article as [read_article_data_file] passes it to [process]: the
    article with, beside the fields of [Article], its namespace and the title
    it redirects to (the empty string when it is not a redirect). *)
Record ArticleRow := {
  row_article : Article;
  row_namespace : string;
  row_redir : string
}.

Module Reader.

Section ReadArticleData.
Variable G : Globals.

(** The local function [process] of [read_article_data], on the article
    table, the class [StatRegion] and the local list [redirects]. *)
Definition process (st : ArticleTable * StatRegionClass * list ArticleRow)
    (row : ArticleRow) : option (ArticleTable * StatRegionClass * list ArticleRow) :=
  let '(t, s, redirects) := st in
  let art := row_article row in
  if negb (String.eqb (row_namespace row) "Main") then Some st
  else if negb (String.eqb (row_redir row) EmptyString)
  then Some (t, s, redirects ++ [row])
  else
    match art_coord art with
    | None => Some st
    | Some _ =>
        match ArticleTables.record_article t (art_title art) art false with
        | None => None
        | Some t' =>
            if String.eqb (art_split art) "training" then
              match StatRegions.add_article_to_region G s art with
              | None => None
              | Some s' => Some (t', s', redirects)
              end
            else Some (t', s, redirects)
        end
    end.

(** [read_article_data_file] calls [process] on the articles of the file in
    order. *)
Fixpoint process_all (st : ArticleTable * StatRegionClass * list ArticleRow)
    (rows : list ArticleRow)
    : option (ArticleTable * StatRegionClass * list ArticleRow) :=
  match rows with
  | [] => Some st
  | row :: rest =>
      match process st row with
      | None => None
      | Some st' => process_all st' rest
      end
  end.

(** The loop over [redirects]. *)
Fixpoint resolve_redirects (t : ArticleTable) (redirects : list ArticleRow)
    : option ArticleTable :=
  match redirects with
  | [] => Some t
  | x :: rest =>
      match ArticleTables.lookup_article t (row_redir x) with
      | Some redart =>
          match ArticleTables.record_article t (art_title (row_article x))
                  redart true with
          | None => None
          | Some t' => resolve_redirects t' rest
          end
      | None => resolve_redirects t rest
      end
  end.

Definition read_article_data (t : ArticleTable) (s : StatRegionClass)
    (rows : list ArticleRow) : option (ArticleTable * StatRegionClass) :=
  match process_all (t, s, []) rows with
  | None => None
  | Some (t1, s1, redirects) =>
      match resolve_redirects t1 redirects with
      | None => None
      | Some t2 => Some (t2, s1)
      end
  end.

End ReadArticleData.

End Reader.

(** ** Evaluating a document *)

(** The calls that [evaluate_document] makes on [Results], in order:
    [record_geotag_document_other_stat(othertype)] and
    [record_geotag_document_result(rank, coord, pred_latind, pred_longind,
    num_arts_in_true_region)]. *)
Inductive ResultsCall :=
| OtherStat (othertype : string)
| DocumentResult (rank : Z) (coord : Coord) (pred_latind pred_longind : option Z)
    (num_arts_in_true_region : Z).

Module DocumentEvaluators.

Section EvaluateDocument.
Variable G : Globals.
(** [self.strategy.return_ranked_regions], which may read the class
    [StatRegion]; [evaluate_document] reads the regions it returns only
    through their fields [latind] and [longind]. *)
Variable return_ranked_regions : StatRegionClass -> WordDist -> list StatRegion.

(** The loop [for reg in regs] of [evaluate_document], which leaves at the
    first region that has the true indices and adds 1 to [rank] otherwise. *)
Fixpoint rank_loop (true_latind true_longind : Z) (regs : list StatRegion)
    (rank : Z) : Z :=
  match regs with
  | [] => rank
  | reg :: rest =>
      if bool_decide (latind reg = Some true_latind)
         && bool_decide (longind reg = Some true_longind)
      then rank
      else rank_loop true_latind true_longind rest (rank + 1)
  end.

(** [WikipediaGeotagDocumentEvaluator.evaluate_document]: the class
    [StatRegion] afterwards, the calls made on [Results] and the value
    returned.  [None] when [assert article.dist.finished] fails, when the
    article has no coordinate ([AttributeError]), when the region cannot be
    built, or when the strategy returns no region ([regs[0]] raises
    [IndexError]). *)
Definition evaluate_document (s : StatRegionClass) (article : Article)
    : option (StatRegionClass * list ResultsCall * bool) :=
  match art_dist article with
  | None => Some (s, [OtherStat "Skipped articles"], false)
  | Some dist =>
      if negb (finished dist) then None
      else
        match art_coord article with
        | None => None
        | Some coord =>
            let '(true_latind, true_longind) :=
              Coords.coord_to_stat_region_indices G coord in
            match StatRegions.find_region_for_coord G s coord with
            | None => None
            | Some (s', r) =>
                match heap s' !! r with
                | None => None
                | Some true_statreg =>
                    let naitr := num_arts (worddist true_statreg) in
                    let regs := return_ranked_regions s' dist in
                    let rank := rank_loop true_latind true_longind regs 1 in
                    match regs with
                    | [] => None
                    | reg0 :: _ =>
                        Some (s',
                              DocumentResult rank coord (latind reg0)
                                (longind reg0) naitr
                              :: (if naitr =? 0
                                  then [OtherStat
                                          "Articles with no training articles in region"]
                                  else []),
                              true)
                    end
                end
            end
        end
  end.

End EvaluateDocument.

End DocumentEvaluators.

(** * Vocabulary of the statements *)

(** ** Coordinates, distances and scores *)

Section RealVocabulary.
#[local] Open Scope R_scope.

(** The centre of a statistical region as the specification words it: the
    southwest corner shifted by [W/2] degrees on both axes, the latitude
    clamped and the longitude wrapped. *)
Definition center_coord_spec (G : Globals) (latind longind : Z) : Coord :=
  let sw := Coords.region_indices_to_coord G (IZR latind) (IZR longind) in
  let lat0 := lat sw + IZR (width_of_stat_region (Opts G)) / 2 in
  let long0 := long sw + IZR (width_of_stat_region (Opts G)) / 2 in
  {| lat := if Rlt_dec maximum_latitude lat0 then maximum_latitude else lat0;
     long := if Rlt_dec maximum_longitude long0 then long0 - 360 else long0 |}.

(** The distance between a locality and an article. *)
Definition miles_to (M : MathModule) (loc : Locality) (a : Article) : R :=
  Coords.spheredist M (Some (loc_coord loc)) (art_coord a).

(** A context on which the loop of the first definition of [compute_score]
    raises nothing: no zero division in the weight, and a positive
    probability for every word. *)
Definition context_ok (G : Globals) (lookup_word : WordDist -> string -> R)
    (o : Options) (d : WordDist) (context : list (Z * string)) : Prop :=
  Forall (fun '(dist, w) =>
            Strategies.word_weight_at (naive_bayes_weighting o) dist
            = Some (Strategies.weight_spec o dist) /\
            0 < lookup_word d (Strategies.word_of G w)) context.

End RealVocabulary.

(** ** Word distributions of regions *)

(** An article that [add_articles] does not skip: it has a word distribution
    and is in the training split. *)
Definition accepted (a : Article) : bool :=
  match art_dist a with
  | Some _ => String.eqb (art_split a) "training"
  | None => false
  end.

(** A word distribution with the counts of an article added, and the incoming
    links of a list of articles. *)
Definition sum_dist (acc : WordDist) (a : Article) : WordDist :=
  match art_dist a with
  | Some d =>
      {| counts := union_with (fun x y => Some (x + y)) (counts acc) (counts d);
         total_tokens := total_tokens acc + total_tokens d;
         finished := false |}
  | None => acc
  end.

Definition links_of (a : Article) : Z :=
  match art_incoming_links a with
  | Some k => k
  | None => 0
  end.

Definition sum_links (l : list Article) : Z :=
  fold_left (fun acc a => acc + links_of a) l 0.

(** Every article of the list that has a word distribution has a finished
    one, as [add_articles] asserts. *)
Definition dists_finished (l : list Article) : Prop :=
  forall a d, In a l -> art_dist a = Some d -> finished d = true.

(** The articles of a list of tiling regions, in order. *)
Definition tile_articles (tiles : gmap (Z * Z) (list Article))
    (l : list (Z * Z)) : list Article :=
  t ← l; tiles !!! t.

(** The statistical region's block of tiling regions as the specification
    words it: [W] rows and [W] columns from the southwest tile, a latitude
    index past the maximum clamped to the maximum, a longitude index past the
    maximum wrapped around to the other side. *)
Definition clamp_latind (G : Globals) (i : Z) : Z :=
  if maximum_latind G <? i then maximum_latind G else i.

Definition wrap_longind (G : Globals) (j : Z) : Z :=
  if maximum_longind G <? j
  then j - (maximum_longind G - minimum_longind G + 1) else j.

Definition block_spec (G : Globals) (reglat reglong : Z) : list (Z * Z) :=
  let W := width_of_stat_region (Opts G) in
  i ← StatRegions.range reglat (reglat + W);
  j ← StatRegions.range reglong (reglong + W);
  [(clamp_latind G i, wrap_longind G j)].

(** The same block with the latitude indices as they are. *)
Definition block_unclamped (G : Globals) (reglat reglong : Z) : list (Z * Z) :=
  let W := width_of_stat_region (Opts G) in
  i ← StatRegions.range reglat (reglat + W);
  j ← StatRegions.range reglong (reglong + W);
  [(i, wrap_longind G j)].

(** ** The table of statistical regions *)

(** The sentinel empty region, as [find_region_for_region_indices] builds
    it. *)
Definition sentinel_region : StatRegion :=
  {| latind := None; longind := None;
     worddist := RegionWordDists.finish_distribution RegionWordDists.init |}.

(** Every stored region is an object of the heap with the indices of its key,
    and the sentinel, once built, is the object [sentinel_region]. *)
Definition well_formed (s : StatRegionClass) : Prop :=
  (forall i j r, corner_to_stat_region s !! (i, j) = Some r ->
     exists reg, heap s !! r = Some reg /\
                 latind reg = Some i /\ longind reg = Some j) /\
  (forall e, empty_stat_region s = Some e -> heap s !! e = Some sentinel_region).

(** Every article filed in a tile has a finished word distribution if it has
    one: the state of the grid once [finish_article_distributions] has run. *)
Definition tiles_finished (s : StatRegionClass) : Prop :=
  forall k arts, tiling_region_to_articles s !! k = Some arts -> dists_finished arts.

(** ** Result accumulators *)

(** An [Eval] object as [__init__] builds it and [record_result] keeps it:
    the three counters exist, and every reason of its table names a counter
    of its own, which exists and is none of the three. *)
Definition sound (self : Eval) : Prop :=
  (forall n, In n Evals.counter_names -> is_Some (attrs self !! n)) /\
  (forall r, In r (map fst (incorrect_reasons self)) ->
     ~ In r Evals.counter_names /\ is_Some (attrs self !! r)).

(** ** Divisions *)

(** The localities noted in the division at path [p] so far. *)
Definition locs_before (t : DivisionTables) (p : list string) : list Locality :=
  match path_to_division t !! p with
  | Some d => div_locs d
  | None => []
  end.

(** [p] is a prefix of [path] whose last element is not the empty name. *)
Definition noted (path p : list string) : Prop :=
  p `prefix_of` path /\ exists name, last p = Some name /\ name <> EmptyString.

(** What [note_point_seen_in_division] has done to the table for [path]:
    [loc] appended at every noted prefix, nothing changed elsewhere. *)
Definition noted_in (loc : Locality) (t t' : DivisionTables) (path : list string)
    : Prop :=
  forall p,
    (noted path p ->
     exists d, path_to_division t' !! p = Some d /\
               div_locs d = locs_before t p ++ [loc]) /\
    (~ noted path p -> path_to_division t' !! p = path_to_division t !! p).

(** ** Matching a locality *)

(** The radii of the ring search from [maxdist]: [maxdist], [2 maxdist], ... *)
Definition radii (maxdist : Z) (n : nat) : list Z :=
  map (fun k => maxdist * 2 ^ Z.of_nat k) (seq 0 n).

(** The candidate articles of a locality: those of the three families of
    lists, for its canonical name and for each alternate name. *)
Definition candidates_for (t : ArticleTable) (loc : Locality) (name : string)
    : list Article :=
  ArticleTables.same_name_articles t name
  ++ ArticleTables.name_div_articles t loc name
  ++ ArticleTables.short_name_articles t name.

Definition candidates (t : ArticleTable) (loc : Locality) : list Article :=
  name ← loc_name loc :: loc_altnames loc; candidates_for t loc name.

(** An instance of [sorted] with a [cmp] function and [reverse=True]:
    insertion in decreasing order. *)
Fixpoint insert_desc (cmp : Article -> Article -> Z) (x : Article)
    (l : list Article) : list Article :=
  match l with
  | [] => [x]
  | y :: l' => if 0 <? cmp x y then x :: l else y :: insert_desc cmp x l'
  end.

Definition sorted_desc (cmp : Article -> Article -> Z) (l : list Article)
    : list Article :=
  fold_right (insert_desc cmp) [] l.

(** What Python's [sorted] with a [cmp] function and [reverse=True] puts
    first, when [cmp] compares the entries by a key, the entry with the
    smaller key being the greater one, and no two entries have the same key:
    an entry with the smallest key. *)
Definition sorts_descending
    (py_sorted : (Article -> Article -> Z) -> list Article -> list Article)
    : Prop :=
  forall (key : Article -> R) cmp l x rest,
    (forall a b, In a l -> In b l ->
       cmp a b = if Rlt_dec (key a) (key b) then 1 else -1) ->
    NoDup (map key l) ->
    py_sorted cmp l = x :: rest ->
    forall y, In y l -> (key x <= key y)%R.

(** The articles of [l] within [d] miles of [loc], in the order of [l]. *)
Definition within (M : MathModule) (loc : Locality) (d : R) (l : list Article)
    : list Article :=
  List.filter (ArticleTables.check_match_locality M d loc) l.

(** No article of [l] is within [d] miles of [loc]. *)
Definition none_within (M : MathModule) (loc : Locality) (d : R)
    (l : list Article) : Prop :=
  forall a, In a l -> (d < miles_to M loc a)%R.

(** [art] is the first article of [l] that is within [d] miles of [loc]. *)
Definition first_within (M : MathModule) (loc : Locality) (d : R)
    (l : list Article) (art : Article) : Prop :=
  exists l1 l2,
    l = l1 ++ art :: l2 /\ (miles_to M loc art <= d)%R /\ none_within M loc d l1.

(** How an article is chosen among the candidates of [loc] under [name] that
    are within [d] miles: the first one with the same lowercased name; else
    the first one under the name and a division of the locality; else one
    with that short name, which is the nearest of them when [sorted] puts
    the most preferred first and their distances differ. *)
Definition chosen_under
    (py_sorted : (Article -> Article -> Z) -> list Article -> list Article)
    (M : MathModule) (t : ArticleTable) (loc : Locality) (d : R)
    (name : string) (art : Article) : Prop :=
  first_within M loc d (ArticleTables.same_name_articles t name) art \/
  (none_within M loc d (ArticleTables.same_name_articles t name) /\
   first_within M loc d (ArticleTables.name_div_articles t loc name) art) \/
  (none_within M loc d (ArticleTables.same_name_articles t name) /\
   none_within M loc d (ArticleTables.name_div_articles t loc name) /\
   In art (ArticleTables.short_name_articles t name) /\
   (miles_to M loc art <= d)%R /\
   (sorts_descending py_sorted ->
    NoDup (map (miles_to M loc)
             (within M loc d (ArticleTables.short_name_articles t name))) ->
    forall a, In a (ArticleTables.short_name_articles t name) ->
              (miles_to M loc a <= d)%R ->
              (miles_to M loc art <= miles_to M loc a)%R)).

(** The article chosen at the radius [d]: under the first name of the
    locality, the canonical name and then the alternate names in order, that
    has a candidate within [d] miles. *)
Definition chosen_at
    (py_sorted : (Article -> Article -> Z) -> list Article -> list Article)
    (M : MathModule) (t : ArticleTable) (loc : Locality) (d : R)
    (art : Article) : Prop :=
  exists before name after,
    loc_name loc :: loc_altnames loc = before ++ name :: after /\
    (forall n, In n before -> none_within M loc d (candidates_for t loc n)) /\
    chosen_under py_sorted M t loc d name art.

(** ** Example configurations, articles and localities *)

Section ExampleData.
#[local] Open Scope R_scope.

(** A first-order approximation of the trigonometric functions, as an example
    of a [math] module whose computed cosine exceeds 1. *)
Definition crude_math : MathModule :=
  {| m_pi := 3.14; m_sin := fun x => x; m_cos := fun _ => 1;
     m_acos := fun _ => 0; m_log := fun _ => 0 |}.

(** The values of the C library at the arguments that [spheredist] gives it
    for the coordinate (40, -74) against itself: the sine and the cosine of
    (40/180) pi = 0x1.657184ae74487p-1, the cosine of 0 and the arc cosine of
    0x1.fffffffffffffp-1.  Other arguments are not needed. *)
Definition libm_at_40N : Binary64.Libm :=
  {| Binary64.f_pi := 0x1.921fb54442d18p+1%float;
     Binary64.f_sin := fun x =>
       if PrimFloat.eqb x 0x1.657184ae74487p-1%float
       then 0x1.491b7523c161cp-1%float else nan;
     Binary64.f_cos := fun x =>
       if PrimFloat.eqb x 0x1.657184ae74487p-1%float
       then 0x1.8836fa2cf5039p-1%float
       else if PrimFloat.eqb x 0%float then 1%float else nan;
     Binary64.f_acos := fun x =>
       if PrimFloat.eqb x 0x1.fffffffffffffp-1%float
       then 0x1p-26%float else nan |}.

Definition point_40N_74W : Binary64.Coord64 :=
  {| Binary64.lat64 := 40%float; Binary64.long64 := (-74)%float |}.

(** The default options, with statistical regions of width [W]. *)
Definition options_W (W : Z) : Options :=
  {| width_of_stat_region := W; max_dist_for_close_match := 80;
     baseline_weight := 0.5; naive_bayes_weighting := "equal";
     naive_bayes_type := "round-region"; preserve_case_words := false |}.

(** Tiling regions of two degrees. *)
Definition globals_2deg (W : Z) : Globals :=
  {| Opts := options_W W; degrees_per_region := 2;
     minimum_latind := -45; maximum_latind := 44;
     minimum_longind := -90; maximum_longind := 89 |}.

(** Tiling regions of 90 degrees: two rows and four columns. *)
Definition globals_90deg : Globals :=
  {| Opts := options_W 1; degrees_per_region := 90;
     minimum_latind := -1; maximum_latind := 0;
     minimum_longind := -2; maximum_longind := 1 |}.

(** A finished word distribution with one word. *)
Definition dist_ice : WordDist :=
  {| counts := {["ice" := 3%Z]}; total_tokens := 3; finished := true |}.

(** A training article at the North Pole, and a grid that holds it: with
    tiling regions of two degrees it is filed in the row past the maximum
    latitude index. *)
Definition north_pole : Article :=
  {| art_id := 1; art_title := "North Pole"; art_split := "training";
     art_coord := Some {| lat := 90; long := 0.5 |};
     art_incoming_links := Some 120%Z; art_dist := Some dist_ice |}.

Definition polar_tiles : gmap (Z * Z) (list Article) :=
  {[ (45%Z, 0%Z) := [north_pole] ]}.

(** The grid of 90-degree tiles with no article, after
    [generate_all_nonempty_regions]: eight empty regions were built and none
    was stored. *)
Definition empty_region (i j : Z) : StatRegion :=
  {| latind := Some i; longind := Some j;
     worddist := RegionWordDists.finish_distribution RegionWordDists.init |}.

Definition grid_all_empty : StatRegionClass :=
  {| tiling_region_to_articles := ∅;
     heap := [empty_region (-1) (-2); empty_region (-1) (-1);
              empty_region (-1) 0; empty_region (-1) 1;
              empty_region 0 (-2); empty_region 0 (-1);
              empty_region 0 0; empty_region 0 1];
     corner_to_stat_region := ∅;
     empty_stat_region := None;
     all_regions_computed := true;
     num_empty_regions := 8;
     num_non_empty_regions := 0 |}.

Definition somewhere : Coord := {| lat := 10; long := 10 |}.

(** A locality of a gazetteer entry with a country, a state and no county,
    and the tables before any entry. *)
Definition austin : Locality :=
  {| loc_name := "Austin"; loc_altnames := [];
     loc_coord := {| lat := 30.27; long := -97.74 |}; loc_div := None |}.

Definition austin_path : list string := ["United States"; "Texas"; ""].

Definition no_divisions : DivisionTables :=
  {| path_to_division := ∅; lower_toponym_to_division := ∅ |}.

(** The article "Austin", at the coordinate of the locality, and the table in
    which it has been recorded. *)
Definition austin_article : Article :=
  {| art_id := 7; art_title := "Austin"; art_split := "training";
     art_coord := Some {| lat := 30.27; long := -97.74 |};
     art_incoming_links := Some 120%Z; art_dist := None |}.

Definition austin_table : ArticleTable :=
  match ArticleTables.record_article ArticleTables.initial "Austin"
          austin_article false with
  | Some t => t
  | None => ArticleTables.initial
  end.

(** A locality with an alternate name and two articles near it: one under
    the canonical name, a twentieth of a degree to the north, and one under
    the alternate name, at the coordinate of the locality. *)
Definition town_centre : Coord := {| lat := 40; long := -74 |}.
Definition town_north : Coord := {| lat := 40.05; long := -74 |}.

Definition trenton : Locality :=
  {| loc_name := "Trenton"; loc_altnames := ["Trenton City"];
     loc_coord := town_centre; loc_div := None |}.

Definition trenton_north : Article :=
  {| art_id := 21; art_title := "Trenton"; art_split := "training";
     art_coord := Some town_north; art_incoming_links := Some 10%Z;
     art_dist := None |}.

Definition trenton_centre : Article :=
  {| art_id := 22; art_title := "Trenton City"; art_split := "training";
     art_coord := Some town_centre; art_incoming_links := Some 10%Z;
     art_dist := None |}.

Definition record_both (a b : Article) : ArticleTable :=
  match ArticleTables.record_article ArticleTables.initial (art_title a) a false with
  | Some t1 =>
      match ArticleTables.record_article t1 (art_title b) b false with
      | Some t2 => t2
      | None => t1
      end
  | None => ArticleTables.initial
  end.

Definition trenton_table : ArticleTable := record_both trenton_north trenton_centre.

(** A locality whose two articles share its name as their short form: the
    farther one is recorded first. *)
Definition hamilton : Locality :=
  {| loc_name := "Hamilton"; loc_altnames := [];
     loc_coord := town_centre; loc_div := None |}.

Definition hamilton_north : Article :=
  {| art_id := 23; art_title := "Hamilton, Ohio"; art_split := "training";
     art_coord := Some town_north; art_incoming_links := Some 10%Z;
     art_dist := None |}.

Definition hamilton_centre : Article :=
  {| art_id := 24; art_title := "Hamilton, Ontario"; art_split := "training";
     art_coord := Some town_centre; art_incoming_links := Some 10%Z;
     art_dist := None |}.

Definition hamilton_table : ArticleTable :=
  record_both hamilton_north hamilton_centre.

(** The target of a redirect. *)
Definition springfield : Article :=
  {| art_id := 12; art_title := "Springfield, Ohio"; art_split := "training";
     art_coord := None; art_incoming_links := Some 30%Z; art_dist := None |}.

End ExampleData.

(** ** Regions as [generate_dist] builds them *)

(** The articles that [generate_dist] accumulates for the region [(i, j)]:
    the accepted articles of the tiles it scans, in order. *)
Definition region_articles (G : Globals) (tiles : gmap (Z * Z) (list Article))
    (i j : Z) : list Article :=
  List.filter accepted (tile_articles tiles (StatRegions.scanned_tiles G i j)).

(** The region object with the indices [(i, j)] and the articles [arts]. *)
Definition region_of_articles (i j : Z) (arts : list Article) : StatRegion :=
  {| latind := Some i; longind := Some j;
     worddist :=
       {| base := WordDists.finish_word_distribution
                    (fold_left sum_dist arts WordDists.init);
          articles := arts;
          num_arts := Z.of_nat (length arts);
          incoming_links := sum_links arts |} |}.

(** Whether the region [(i, j)] has no article. *)
Definition region_is_empty (G : Globals) (tiles : gmap (Z * Z) (list Article))
    (ij : Z * Z) : bool :=
  match region_articles G tiles (fst ij) (snd ij) with
  | [] => true
  | _ :: _ => false
  end.

(** The region stored under [(i, j)], if any. *)
Definition stored_region (s : StatRegionClass) (i j : Z) : option StatRegion :=
  corner_to_stat_region s !! (i, j) ≫= fun r => heap s !! r.

(** ** Counting results *)

(** The number of elements of a list that satisfy a test. *)
Definition count_of {A} (P : A -> bool) (l : list A) : Z :=
  Z.of_nat (length (List.filter P l)).

(** The partial credit of a list of ranks: a rank [x] of at most [m] earns
    [m + 1 - x]. *)
Definition credit_of (m : Z) (ranks : list Z) : Z :=
  fold_right (fun x acc => (if x <=? m then m + 1 - x else 0) + acc) 0 ranks.

(** The results that [record_geotag_toponym_result] also records in
    [diff_surface] (the toponym differs from the name of the true location)
    and in [diff_short] (it differs from the short form of that name as
    well). *)
Definition differs_from_name (x : ToponymResult) : bool :=
  negb (String.eqb (tr_toponym x) (tr_trueloc x)).

Definition differs_from_short_form (x : ToponymResult) : bool :=
  differs_from_name x
  && negb (String.eqb (tr_toponym x) (fst (compute_short_form (tr_trueloc x)))).

(** A reason of the table of [Results], or none. *)
Definition toponym_reason (reason : option string) : Prop :=
  match reason with
  | None => True
  | Some r => In r (map fst Evals.incorrect_geotag_toponym_reasons)
  end.

(** Accumulators of [Results] in which [record_result] can be called with
    the reasons of [Results]: the counters exist and the table of reasons is
    that of [Results]. *)
Definition accumulator_ok (self : EvalWithCandidateList) : Prop :=
  sound (cl_base self) /\
  incorrect_reasons (cl_base self) = Evals.incorrect_geotag_toponym_reasons.

Definition results_ok (cls : ToponymResults) : Prop :=
  accumulator_ok (all_toponym cls) /\ accumulator_ok (diff_surface cls) /\
  accumulator_ok (diff_short cls).

(** ** Example words of a document *)

Definition word_of_file (w : string) (coord : option Coord) : GeogWord :=
  {| gw_word := w; gw_is_stop := false; gw_is_toponym := false;
     gw_coord := coord; gw_location := None; gw_context := None;
     gw_document := None |}.

(** The toponym "Austin" of an evaluation file, with its true coordinate and
    location, and the score of the link baseline. *)
Definition austin_word : GeogWord :=
  {| gw_word := "Austin"; gw_is_stop := false; gw_is_toponym := true;
     gw_coord := Some {| lat := 30.27%R; long := (-97.74)%R |};
     gw_location := Some "Austin"; gw_context := None; gw_document := None |}.

Definition link_score (art : Article) : option R :=
  Some (Strategies.get_adjusted_incoming_links art).

(** The default options and globals with another limit for close matches. *)
Definition globals_with_limit (limit : R) : Globals :=
  {| Opts := {| width_of_stat_region := 1; max_dist_for_close_match := limit;
                baseline_weight := 0.5%R; naive_bayes_weighting := "equal";
                naive_bayes_type := "round-region"; preserve_case_words := false |};
     degrees_per_region := 2%R;
     minimum_latind := -45; maximum_latind := 44;
     minimum_longind := -90; maximum_longind := 89 |}.

(** ** Articles read *)

(** The rows that [read_article_data] records as articles: in the main
    namespace, not redirects, with a coordinate. *)
Definition is_recorded (row : ArticleRow) : bool :=
  String.eqb (row_namespace row) "Main"
  && String.eqb (row_redir row) EmptyString
  && match art_coord (row_article row) with Some _ => true | None => false end.

Definition recorded_articles (rows : list ArticleRow) : list Article :=
  map row_article (List.filter is_recorded rows).

(** Those of a split, and the training articles of a tile. *)
Definition recorded_in_split (rows : list ArticleRow) (split : string)
    : list Article :=
  List.filter (fun a => String.eqb (art_split a) split) (recorded_articles rows).

Definition filed_in_tile (G : Globals) (rows : list ArticleRow) (k : Z * Z)
    : list Article :=
  List.filter
    (fun a => String.eqb (art_split a) "training"
              && match art_coord a with
                 | Some c => bool_decide (Coords.coord_to_tiling_region_indices G c = k)
                 | None => false
                 end)
    (recorded_articles rows).

(** A row of the article "Austin", and a redirect to it. *)
Definition austin_row : ArticleRow :=
  {| row_article := austin_article; row_namespace := "Main";
     row_redir := EmptyString |}.

Definition austin_redirect_row : ArticleRow :=
  {| row_article :=
       {| art_id := 8; art_title := "Austin, TX"; art_split := "training";
          art_coord := None; art_incoming_links := None; art_dist := None |};
     row_namespace := "Main"; row_redir := "Austin" |}.

(** ** Names *)

(** The name contains a newline, which the dot of a regular expression does
    not match. *)
Fixpoint has_newline (s : string) : bool :=
  match s with
  | EmptyString => false
  | String c s' => Ascii.eqb c "010" || has_newline s'
  end.

(** ** Ranked regions *)

(** The region [reg] has the indices [ij]. *)
Definition has_indices (reg : StatRegion) (ij : Z * Z) : Prop :=
  latind reg = Some (fst ij) /\ longind reg = Some (snd ij).

(** A strategy that ranks two regions, whatever the document. *)
Definition two_regions (_ : StatRegionClass) (_ : WordDist) : list StatRegion :=
  [empty_region 0 0; empty_region 0 1].

(** ** Divisions returned and created *)

(** [r] is the deepest division of [path]: the longest prefix whose last
    element is not the empty name, or [None] when there is no such prefix. *)
Definition deepest_noted (path : list string) (r : option (list string)) : Prop :=
  match r with
  | Some p => noted path p /\ forall p', noted path p' -> p' `prefix_of` p
  | None => forall p', ~ noted path p'
  end.

(** The class with the North Pole article filed and no region built. *)
Definition polar_grid : StatRegionClass :=
  {| tiling_region_to_articles := polar_tiles; heap := [];
     corner_to_stat_region := ∅; empty_stat_region := None;
     all_regions_computed := false;
     num_empty_regions := 0; num_non_empty_regions := 0 |}.

(** * Properties *)

(** ** Coordinates *)

Section CoordinateProperties.
#[local] Open Scope R_scope.

Lemma spheredist_out_of_range M p q :
  1.000001 < Rabs (Coords.anglecos M p q) ->
  Coords.spheredist M (Some p) (Some q) = 1000000.
Proof.
  intros H. unfold Coords.spheredist.
  destruct (Rlt_dec 1 (Rabs (Coords.anglecos M p q))) as [_ | n]; [| lra].
  destruct (Rlt_dec 1.000001 (Rabs (Coords.anglecos M p q))); [reflexivity | lra].
Qed.

Lemma spheredist_slightly_above M p q :
  1 < Rabs (Coords.anglecos M p q) <= 1.000001 ->
  Coords.spheredist M (Some p) (Some q) = 0.
Proof.
  intros [H1 H2]. unfold Coords.spheredist.
  destruct (Rlt_dec 1 (Rabs (Coords.anglecos M p q))) as [_ | n]; [| lra].
  destruct (Rlt_dec 1.000001 (Rabs (Coords.anglecos M p q))); [lra | reflexivity].
Qed.

Lemma spheredist_in_range M p q :
  Rabs (Coords.anglecos M p q) <= 1 ->
  Coords.spheredist M (Some p) (Some q)
  = earth_radius_in_miles * m_acos M (Coords.anglecos M p q).
Proof.
  intros H. unfold Coords.spheredist.
  destruct (Rlt_dec 1 (Rabs (Coords.anglecos M p q))); [lra | reflexivity].
Qed.

Lemma anglecos_exact_same p : Coords.anglecos exact_math p p = 1.
Proof.
  unfold Coords.anglecos; cbn.
  replace (long p / 180 * PI - long p / 180 * PI) with 0 by ring.
  rewrite cos_0. pose proof (sin2_cos2 (lat p / 180 * PI)) as H.
  unfold Rsqr in H. lra.
Qed.

Lemma spheredist_exact_same p :
  Coords.spheredist exact_math (Some p) (Some p) = 0.
Proof.
  rewrite spheredist_in_range; rewrite anglecos_exact_same.
  - cbn. rewrite acos_1. ring.
  - rewrite Rabs_R1. lra.
Qed.

Lemma spheredist_same_point_rounded_up M p :
  m_acos M 1 = 0 ->
  1 <= Coords.anglecos M p p <= 1.000001 ->
  Coords.spheredist M (Some p) (Some p) = 0.
Proof.
  intros Hacos [H1 H2]. destruct (Req_dec (Coords.anglecos M p p) 1) as [E | Hne].
  - rewrite spheredist_in_range; rewrite E; [rewrite Hacos; ring |].
    rewrite Rabs_R1. lra.
  - apply spheredist_slightly_above. rewrite Rabs_pos_eq by lra. lra.
Qed.

(** C5, amended.  For every [math] module and all coordinates [p] and [q]:
    when the absolute value of the computed cosine exceeds 1.000001,
    [spheredist] returns 1000000.0; when it exceeds 1 by at most 0.000001,
    [spheredist] returns 0; otherwise it returns the earth radius times the
    arc cosine of the computed cosine.  [spheredist(p, p)] is 0 whenever the
    cosine computed for [p] against itself is not below 1 (and [acos(1)] is
    0), and for every [p] with the exact trigonometric functions. *)
Theorem spheredist_clamps_cosine (M : MathModule) (p q : Coord) :
  (1.000001 < Rabs (Coords.anglecos M p q) ->
   Coords.spheredist M (Some p) (Some q) = 1000000) /\
  (1 < Rabs (Coords.anglecos M p q) <= 1.000001 ->
   Coords.spheredist M (Some p) (Some q) = 0) /\
  (Rabs (Coords.anglecos M p q) <= 1 ->
   Coords.spheredist M (Some p) (Some q)
   = earth_radius_in_miles * m_acos M (Coords.anglecos M p q)) /\
  (m_acos M 1 = 0 -> 1 <= Coords.anglecos M p p <= 1.000001 ->
   Coords.spheredist M (Some p) (Some p) = 0) /\
  Coords.spheredist exact_math (Some p) (Some p) = 0.
Proof.
  split; [apply spheredist_out_of_range |].
  split; [apply spheredist_slightly_above |].
  split; [apply spheredist_in_range |].
  split; [apply spheredist_same_point_rounded_up | apply spheredist_exact_same].
Qed.

(** C5, as stated, fails in the arithmetic of floats: for the coordinate
    (40, -74) against itself the computed cosine is the float just below 1,
    no clamping branch is taken, and [spheredist] returns about 0.000059
    miles, not 0. *)
Lemma spheredist_same_point_not_zero :
  Binary64.anglecos libm_at_40N point_40N_74W point_40N_74W
  = 0x1.fffffffffffffp-1%float /\
  Binary64.spheredist libm_at_40N point_40N_74W point_40N_74W
  = 0x1.ef661cac08312p-15%float /\
  PrimFloat.eqb (Binary64.spheredist libm_at_40N point_40N_74W point_40N_74W)
    0%float = false.
Proof. repeat split; vm_compute; reflexivity. Qed.

(** Both clamping branches are taken by some [math] module: with the crude
    one, the pole against itself gives a cosine of about 3.46, and a point
    0.05 degrees north of the equator against itself one of about
    1.00000076. *)
Lemma spheredist_clamps_cosine_witness :
  Coords.spheredist crude_math (Some {| lat := 90; long := 0 |})
    (Some {| lat := 90; long := 0 |}) = 1000000 /\
  Coords.spheredist crude_math (Some {| lat := 0.05; long := 0 |})
    (Some {| lat := 0.05; long := 0 |}) = 0.
Proof.
  split.
  - destruct (spheredist_clamps_cosine crude_math {| lat := 90; long := 0 |}
                {| lat := 90; long := 0 |}) as (Hout & _).
    apply Hout. unfold Coords.anglecos; cbn. rewrite Rabs_pos_eq; lra.
  - destruct (spheredist_clamps_cosine crude_math {| lat := 0.05; long := 0 |}
                {| lat := 0.05; long := 0 |}) as (_ & Habove & _).
    apply Habove. unfold Coords.anglecos; cbn. rewrite Rabs_pos_eq; lra.
Defined.

(** C7, as stated, fails: with tiling regions of two degrees and [W = 1] the
    centre of the region at indices (0, 0) is (1, 1), one degree from the
    corner on each axis, and not (0.5, 0.5). *)
Lemma center_coord_not_half_width_in_degrees :
  Coords.stat_region_indices_to_center_coord (globals_2deg 1) 0 0
    = {| lat := 1; long := 1 |} /\
  center_coord_spec (globals_2deg 1) 0 0 = {| lat := 0.5; long := 0.5 |} /\
  Coords.stat_region_indices_to_center_coord (globals_2deg 1) 0 0
    <> center_coord_spec (globals_2deg 1) 0 0.
Proof.
  assert (E1 : Coords.stat_region_indices_to_center_coord (globals_2deg 1) 0 0
               = {| lat := 1; long := 1 |}).
  { unfold Coords.stat_region_indices_to_center_coord, Coords.region_indices_to_coord,
      maximum_latitude, maximum_longitude; cbn.
    repeat match goal with |- context [Rlt_dec ?a ?b] => destruct (Rlt_dec a b); [lra |] end.
    f_equal; lra. }
  assert (E2 : center_coord_spec (globals_2deg 1) 0 0 = {| lat := 0.5; long := 0.5 |}).
  { unfold center_coord_spec, Coords.region_indices_to_coord,
      maximum_latitude, maximum_longitude; cbn.
    repeat match goal with |- context [Rlt_dec ?a ?b] => destruct (Rlt_dec a b); [lra |] end.
    f_equal; lra. }
  split; [exact E1 |]. split; [exact E2 |].
  rewrite E1, E2. intros H. injection H as H _. lra.
Qed.

(** C7, amended.  [stat_region_indices_to_center_coord] returns the coordinate
    of the indices [(latind + W/2, longind + W/2)], which is the region's
    southwest-corner coordinate shifted by [W/2] tiling regions, that is by
    [W/2 * degrees_per_region] degrees, on both axes, with the resulting
    latitude clamped to the maximum latitude and the resulting longitude
    wrapped around the antimeridian (360 subtracted when it exceeds the
    maximum longitude). *)
Theorem center_coord_is_corner_plus_half_width (G : Globals) (latind longind : Z) :
  let W := IZR (width_of_stat_region (Opts G)) in
  let sw := Coords.region_indices_to_coord G (IZR latind) (IZR longind) in
  let centre := Coords.region_indices_to_coord G (IZR latind + W / 2)
                  (IZR longind + W / 2) in
  lat centre = lat sw + W / 2 * degrees_per_region G /\
  long centre = long sw + W / 2 * degrees_per_region G /\
  Coords.stat_region_indices_to_center_coord G latind longind
  = {| lat := if Rlt_dec maximum_latitude (lat centre)
              then maximum_latitude else lat centre;
       long := if Rlt_dec maximum_longitude (long centre)
               then long centre - 360 else long centre |}.
Proof.
  intros W sw centre. subst W sw centre.
  unfold Coords.stat_region_indices_to_center_coord, Coords.region_indices_to_coord.
  cbn [lat long]. split; [ring |]. split; [ring | reflexivity].
Qed.

End CoordinateProperties.

(** ** Word distributions of statistical regions *)

Section RegionDistProperties.

Lemma fold_links_shift l : forall z,
  fold_left (fun acc a => acc + links_of a) l z = z + sum_links l.
Proof.
  unfold sum_links. induction l as [| a l IH]; intros z; cbn.
  - lia.
  - rewrite IH. rewrite (IH (0 + links_of a)). lia.
Qed.

Lemma sum_links_app l1 l2 : sum_links (l1 ++ l2) = sum_links l1 + sum_links l2.
Proof.
  unfold sum_links at 1. rewrite fold_left_app.
  fold (sum_links l1). apply fold_links_shift.
Qed.

Lemma sum_dist_unfinished l : forall acc,
  finished acc = false -> finished (fold_left sum_dist l acc) = false.
Proof.
  induction l as [| a l IH]; intros acc H; cbn; [exact H |].
  apply IH. unfold sum_dist. destruct (art_dist a); [reflexivity | exact H].
Qed.

Lemma add_articles_loop_accumulates arts : forall self n links,
  finished (base self) = false ->
  dists_finished arts ->
  RegionWordDists.add_articles_loop self n links arts
  = Some ({| base := fold_left sum_dist (List.filter accepted arts) (base self);
             articles := articles self ++ List.filter accepted arts;
             num_arts := num_arts self;
             incoming_links := incoming_links self |},
          n + Z.of_nat (length (List.filter accepted arts)),
          links + sum_links (List.filter accepted arts)).
Proof.
  induction arts as [| a arts IH]; intros self n links Hopen Hfin.
  - cbn. rewrite app_nil_r, !Z.add_0_r. destruct self; reflexivity.
  - assert (Hfin' : dists_finished arts).
    { intros b d Hb. apply Hfin. right; exact Hb. }
    cbn [RegionWordDists.add_articles_loop List.filter].
    destruct (art_dist a) as [d |] eqn:Ed.
    + rewrite (Hfin a d (or_introl eq_refl) Ed). cbn [negb].
      destruct (String.eqb (art_split a) "training") eqn:Es; cbn [negb].
      * assert (Ha : accepted a = true) by (unfold accepted; rewrite Ed; exact Es).
        rewrite Ha. unfold WordDists.add_word_distribution. rewrite Hopen.
        rewrite IH; [| reflexivity | exact Hfin'].
        cbn [base articles num_arts incoming_links fold_left length].
        unfold sum_dist at 3. rewrite Ed.
        rewrite <- app_assoc. cbn [app].
        f_equal. f_equal; [f_equal |].
        -- lia.
        -- change (a :: List.filter accepted arts)
             with ([a] ++ List.filter accepted arts).
           rewrite sum_links_app. unfold sum_links at 2, links_of. cbn.
           destruct (art_incoming_links a) as [k |]; [| lia].
           destruct (Z.eqb_spec k 0); lia.
      * assert (Ha : accepted a = false) by (unfold accepted; rewrite Ed; exact Es).
        rewrite Ha. apply IH; assumption.
    + assert (Ha : accepted a = false) by (unfold accepted; rewrite Ed; reflexivity).
      rewrite Ha. apply IH; assumption.
Qed.

Lemma add_articles_accumulates self arts :
  finished (base self) = false ->
  dists_finished arts ->
  RegionWordDists.add_articles self arts
  = Some {| base := fold_left sum_dist (List.filter accepted arts) (base self);
            articles := articles self ++ List.filter accepted arts;
            num_arts := num_arts self + Z.of_nat (length (List.filter accepted arts));
            incoming_links := incoming_links self + sum_links (List.filter accepted arts) |}.
Proof.
  intros Hopen Hfin. unfold RegionWordDists.add_articles.
  rewrite add_articles_loop_accumulates by assumption.
  cbn. reflexivity.
Qed.

Lemma process_one_region_accumulates tiles wd t :
  finished (base wd) = false ->
  dists_finished (tiles !!! t) ->
  StatRegions.process_one_region tiles wd t
  = Some {| base := fold_left sum_dist (List.filter accepted (tiles !!! t)) (base wd);
            articles := articles wd ++ List.filter accepted (tiles !!! t);
            num_arts := num_arts wd + Z.of_nat (length (List.filter accepted (tiles !!! t)));
            incoming_links := incoming_links wd + sum_links (List.filter accepted (tiles !!! t)) |}.
Proof.
  intros Hopen Hfin. unfold StatRegions.process_one_region.
  rewrite lookup_total_alt in *.
  destruct (tiles !! t) as [[| a arts] |] eqn:Et; cbn in *.
  - rewrite app_nil_r, !Z.add_0_r. destruct wd; reflexivity.
  - now apply add_articles_accumulates.
  - rewrite app_nil_r, !Z.add_0_r. destruct wd; reflexivity.
Qed.

Lemma process_regions_accumulates tiles l : forall wd,
  finished (base wd) = false ->
  dists_finished (tile_articles tiles l) ->
  let arts := List.filter accepted (tile_articles tiles l) in
  StatRegions.process_regions tiles wd l
  = Some {| base := fold_left sum_dist arts (base wd);
            articles := articles wd ++ arts;
            num_arts := num_arts wd + Z.of_nat (length arts);
            incoming_links := incoming_links wd + sum_links arts |}.
Proof.
  induction l as [| t l IH]; intros wd Hopen Hfin arts; subst arts.
  - cbn. rewrite app_nil_r, !Z.add_0_r. destruct wd; reflexivity.
  - cbn [StatRegions.process_regions].
    unfold tile_articles in Hfin. rewrite bind_cons in Hfin.
    rewrite process_one_region_accumulates; [| exact Hopen |].
    2:{ intros a d Ha. apply Hfin. apply in_or_app. left; exact Ha. }
    rewrite IH.
    + cbn [base articles num_arts incoming_links].
      unfold tile_articles. rewrite bind_cons, List.filter_app, fold_left_app,
        length_app, sum_links_app, Nat2Z.inj_add, <- app_assoc, !Z.add_assoc.
      reflexivity.
    + cbn [base]. apply sum_dist_unfinished, Hopen.
    + intros a d Ha. apply Hfin. apply in_or_app. right; exact Ha.
Qed.

End RegionDistProperties.

(** ** The example configurations are as [implement_main] sets them *)

Section Examples.
#[local] Open Scope R_scope.

Lemma floor_value (x : R) (z : Z) : IZR z <= x < IZR z + 1 -> Coords.floor x = z.
Proof. apply Zfloor_eq. Qed.

Lemma globals_2deg_as_set_by_main W :
  Coords.implement_main_globals (options_W W) 2 = globals_2deg W.
Proof.
  unfold Coords.implement_main_globals, Coords.coord_to_tiling_region_indices,
    globals_2deg, maximum_latitude, maximum_longitude, minimum_latitude,
    minimum_longitude.
  cbn [lat long degrees_per_region fst snd].
  rewrite (floor_value (89.999999 / 2) 44) by lra.
  rewrite (floor_value (179.999999 / 2) 89) by lra.
  rewrite (floor_value (-90 / 2) (-45)) by lra.
  rewrite (floor_value (-180 / 2) (-90)) by lra.
  reflexivity.
Qed.

Lemma globals_90deg_as_set_by_main :
  Coords.implement_main_globals (options_W 1) 90 = globals_90deg.
Proof.
  unfold Coords.implement_main_globals, Coords.coord_to_tiling_region_indices,
    globals_90deg, maximum_latitude, maximum_longitude, minimum_latitude,
    minimum_longitude.
  cbn [lat long degrees_per_region fst snd].
  rewrite (floor_value (89.999999 / 90) 0) by lra.
  rewrite (floor_value (179.999999 / 90) 1) by lra.
  rewrite (floor_value (-90 / 90) (-1)) by lra.
  rewrite (floor_value (-180 / 90) (-2)) by lra.
  reflexivity.
Qed.

End Examples.

(** ** [generate_dist] *)

Section GenerateDist.
Variable G : Globals.

Lemma scanned_tiles_elem reglat reglong (t : Z * Z) :
  t ∈ StatRegions.scanned_tiles G reglat reglong <->
  exists i j,
    t = (i, if maximum_longind G <? j then minimum_longind G else j) /\
    reglat <= i < reglat + width_of_stat_region (Opts G) /\
    reglong <= j < reglong + width_of_stat_region (Opts G).
Proof.
  unfold StatRegions.scanned_tiles, StatRegions.range.
  rewrite list_elem_of_bind. split.
  - intros (i & Hi & Hin). apply list_elem_of_bind in Hi as (j & Hj & Hjn).
    apply elem_of_seqZ in Hin, Hjn. apply list_elem_of_singleton in Hj.
    exists i, j. split; [exact Hj | lia].
  - intros (i & j & -> & Hi & Hj). exists i. split.
    + apply list_elem_of_bind. exists j. split.
      * apply list_elem_of_singleton. reflexivity.
      * apply elem_of_seqZ. lia.
    + apply elem_of_seqZ. lia.
Qed.

(** With at most one column past the maximum longitude index, the tiles
    scanned are the block with the longitude wrapped around. *)
Lemma scanned_tiles_wraps reglat reglong :
  reglong + width_of_stat_region (Opts G) <= maximum_longind G + 2 ->
  StatRegions.scanned_tiles G reglat reglong = block_unclamped G reglat reglong.
Proof.
  intros Hw. unfold StatRegions.scanned_tiles, block_unclamped.
  apply list_bind_ext; [| reflexivity]. intros i.
  apply Forall_bind_ext. apply Forall_forall. intros j Hj.
  apply elem_of_seqZ in Hj. unfold wrap_longind.
  destruct (Z.ltb_spec (maximum_longind G) j); [| reflexivity].
  do 2 f_equal. lia.
Qed.

(** C3, amended.  For a region with at most one column past the maximum
    longitude index, [generate_dist] accumulates, tile after tile, the
    articles of the [W] by [W] block of tiling regions whose southwest tile is
    the region's [(latind, longind)], a longitude index past the maximum
    wrapped around the antimeridian and the latitude indices used as they are
    (they are not clamped: a row past the maximum is looked up like any
    other); every article without a word distribution or whose split is not
    'training' is skipped, the others are appended in order and their counts
    and incoming links are summed; the distribution is then finished.  The
    articles of the block that have a distribution must have a finished one,
    as the code asserts. *)
Theorem generate_dist_accumulates_unclamped_block
    (tiles : gmap (Z * Z) (list Article)) (reglat reglong : Z) :
  let block := block_unclamped G reglat reglong in
  let arts := List.filter accepted (tile_articles tiles block) in
  reglong + width_of_stat_region (Opts G) <= maximum_longind G + 2 ->
  dists_finished (tile_articles tiles block) ->
  StatRegions.generate_dist G tiles (StatRegions.new (Some reglat) (Some reglong))
  = Some {| latind := Some reglat; longind := Some reglong;
            worddist :=
              {| base := WordDists.finish_word_distribution
                           (fold_left sum_dist arts WordDists.init);
                 articles := arts;
                 num_arts := Z.of_nat (length arts);
                 incoming_links := sum_links arts |} |}.
Proof.
  intros block arts Hwrap Hfin. subst block arts.
  rewrite <- (scanned_tiles_wraps reglat reglong Hwrap) in *.
  unfold StatRegions.generate_dist, StatRegions.new.
  cbn [latind longind worddist].
  rewrite process_regions_accumulates; [| reflexivity | exact Hfin].
  reflexivity.
Qed.

End GenerateDist.

Lemma polar_region_generated :
  StatRegions.generate_dist (globals_2deg 2) polar_tiles
    (StatRegions.new (Some 44) (Some 0))
  = Some {| latind := Some 44; longind := Some 0;
            worddist :=
              {| base := dist_ice; articles := [north_pole];
                 num_arts := 1; incoming_links := 120 |} |}.
Proof. vm_compute. reflexivity. Qed.

Lemma polar_tiles_unclamped_block :
  tile_articles polar_tiles (block_unclamped (globals_2deg 2) 44 0) = [north_pole].
Proof. vm_compute. reflexivity. Qed.

Lemma generate_dist_accumulates_unclamped_block_witness :
  StatRegions.generate_dist (globals_2deg 2) polar_tiles
    (StatRegions.new (Some 44) (Some 0))
  = Some {| latind := Some 44; longind := Some 0;
            worddist :=
              {| base := dist_ice; articles := [north_pole];
                 num_arts := 1; incoming_links := 120 |} |}.
Proof.
  assert (Hwrap : 0 + width_of_stat_region (Opts (globals_2deg 2))
                  <= maximum_longind (globals_2deg 2) + 2) by (cbn; lia).
  assert (Hfin : dists_finished
            (tile_articles polar_tiles (block_unclamped (globals_2deg 2) 44 0))).
  { rewrite polar_tiles_unclamped_block. intros a d [<- | []] E.
    injection E as <-. reflexivity. }
  rewrite (generate_dist_accumulates_unclamped_block (globals_2deg 2)
             polar_tiles 44 0 Hwrap Hfin).
  rewrite polar_tiles_unclamped_block. vm_compute. reflexivity.
Defined.

(** With three columns from the maximum longitude index, both columns past
    the maximum are read at the minimum index: the loop sets [jj =
    minimum_longind] for each of them. *)
Example scanned_tiles_two_columns_past_maximum :
  StatRegions.scanned_tiles (globals_2deg 3) 0 89
  = [(0, 89); (0, -90); (0, -90); (1, 89); (1, -90); (1, -90);
     (2, 89); (2, -90); (2, -90)] /\
  block_unclamped (globals_2deg 3) 0 89
  = [(0, 89); (0, -90); (0, -89); (1, 89); (1, -90); (1, -89);
     (2, 89); (2, -90); (2, -89)].
Proof. split; vm_compute; reflexivity. Qed.

(** C3, as stated, fails: latitude indices are not clamped.  With tiling
    regions of two degrees the maximum latitude index is 44, and an article at
    the North Pole is filed under the tile (45, 0).  The statistical region
    (44, 0) of width 2 accumulates it, although the tile (45, 0) is not in the
    block with clamped latitude indices, which holds no article. *)
Lemma generate_dist_does_not_clamp_latitude :
  tiling_region_to_articles <$>
    StatRegions.add_article_to_region (globals_2deg 2) StatRegions.initial north_pole
  = Some polar_tiles /\
  (fun reg => articles (worddist reg)) <$>
    StatRegions.generate_dist (globals_2deg 2) polar_tiles
      (StatRegions.new (Some 44) (Some 0))
  = Some [north_pole] /\
  block_spec (globals_2deg 2) 44 0 = [(44, 0); (44, 1); (44, 0); (44, 1)] /\
  List.filter accepted (tile_articles polar_tiles (block_spec (globals_2deg 2) 44 0))
  = [].
Proof.
  split; [| split; [| split]].
  - unfold StatRegions.add_article_to_region, Coords.coord_to_tiling_region_indices.
    cbn [art_coord north_pole lat long degrees_per_region globals_2deg].
    rewrite (floor_value (90 / 2) 45) by lra.
    rewrite (floor_value (0.5 / 2) 0) by lra.
    vm_compute. reflexivity.
  - rewrite polar_region_generated. reflexivity.
  - vm_compute. reflexivity.
  - vm_compute. reflexivity.
Qed.

(** ** The table of statistical regions *)

Section RegionTable.
Variable G : Globals.

Lemma generate_dist_keeps_indices tiles self reg :
  StatRegions.generate_dist G tiles self = Some reg ->
  latind reg = latind self /\ longind reg = longind self.
Proof.
  unfold StatRegions.generate_dist.
  destruct (latind self), (longind self); try discriminate.
  destruct (StatRegions.process_regions _ _ _); [| discriminate].
  intros [= <-]. split; reflexivity.
Qed.

(** What one call of [find_region_for_region_indices] does, by cases: a
    stored region is returned; after all regions have been computed a miss
    returns the sentinel, which is built on the first miss; before that, a
    miss builds the region with the indices asked for. *)
Lemma find_region_cases s i j b s' r :
  well_formed s ->
  StatRegions.find_region_for_region_indices G s i j b = Some (s', r) ->
  well_formed s' /\
  heap s `prefix_of` heap s' /\
  all_regions_computed s' = all_regions_computed s /\
  tiling_region_to_articles s' = tiling_region_to_articles s /\
  ((corner_to_stat_region s !! (i, j) = Some r /\ s' = s) \/
   (corner_to_stat_region s !! (i, j) = None /\ all_regions_computed s = true /\
    empty_stat_region s' = Some r /\
    corner_to_stat_region s' = corner_to_stat_region s /\
    num_empty_regions s' = num_empty_regions s /\
    num_non_empty_regions s' = num_non_empty_regions s /\
    (forall e, empty_stat_region s = Some e -> s' = s) /\
    (empty_stat_region s = None -> heap s' = heap s ++ [sentinel_region])) \/
   (corner_to_stat_region s !! (i, j) = None /\ all_regions_computed s = false /\
    exists reg, heap s' !! r = Some reg /\
                latind reg = Some i /\ longind reg = Some j)).
Proof.
  intros Hwf. pose proof Hwf as [Hc He].
  unfold StatRegions.find_region_for_region_indices.
  destruct (corner_to_stat_region s !! (i, j)) as [r0 |] eqn:Ec.
  { intros [= <- <-]. split; [exact Hwf |]. do 3 (split; [first [reflexivity | assumption] |]).
    left. split; first [reflexivity | assumption]. }
  destruct (all_regions_computed s) eqn:Ea.
  - destruct (empty_stat_region s) as [e |] eqn:Ee.
    + intros [= <- <-]. split; [exact Hwf |]. do 3 (split; [first [reflexivity | assumption] |]).
      right; left. do 6 (split; [first [reflexivity | assumption] |]).
      split; [reflexivity | discriminate].
    + intros [= <- <-]. unfold well_formed. cbn. split; [split |].
      * intros i' j' r' Hr. destruct (Hc _ _ _ Hr) as (reg & Hreg & Hij).
        exists reg. split; [| exact Hij]. apply lookup_app_l_Some, Hreg.
      * intros e [= <-]. apply list_lookup_middle. reflexivity.
      * split; [apply prefix_app_r; reflexivity |]. do 2 (split; [first [reflexivity | assumption] |]).
        right; left. do 6 (split; [first [reflexivity | assumption] |]).
        split; [discriminate | reflexivity].
  - destruct (StatRegions.generate_dist _ _ _) as [statreg |] eqn:Eg; [| discriminate].
    apply generate_dist_keeps_indices in Eg as [Hlat Hlong]. cbn in Hlat, Hlong.
    intros [= <- <-]. unfold well_formed. cbn. split; [split |].
    + intros i' j' r' Hr.
      assert (Hold : forall r0, corner_to_stat_region s !! (i', j') = Some r0 ->
                exists reg, (heap s ++ [statreg]) !! r0 = Some reg /\
                            latind reg = Some i' /\ longind reg = Some j').
      { intros r0 Hr0. destruct (Hc _ _ _ Hr0) as (reg & Hreg & Hij).
        exists reg. split; [| exact Hij]. apply lookup_app_l_Some, Hreg. }
      destruct (negb _ || negb b)%bool; [| apply Hold, Hr].
      destruct (decide ((i, j) = (i', j'))) as [[= <- <-] | Hne].
      * rewrite lookup_insert_eq in Hr. injection Hr as <-.
        exists statreg. split; [| split; assumption].
        apply list_lookup_middle. reflexivity.
      * rewrite lookup_insert_ne in Hr by exact Hne. apply Hold, Hr.
    + intros e Hes. apply lookup_app_l_Some, He, Hes.
    + split; [apply prefix_app_r; reflexivity |]. do 2 (split; [first [reflexivity | assumption] |]).
      right; right. do 2 (split; [first [reflexivity | assumption] |]).
      exists statreg. split; [| split; assumption].
      apply list_lookup_middle. reflexivity.
Qed.

Lemma find_all_well_formed l : forall s s',
  well_formed s -> StatRegions.find_all G s l = Some s' -> well_formed s'.
Proof.
  induction l as [| [i j] l IH]; intros s s' Hwf; cbn.
  - intros [= <-]. exact Hwf.
  - destruct (StatRegions.find_region_for_region_indices G s i j true)
      as [[s1 r] |] eqn:Ef; [| discriminate].
    apply IH. eapply find_region_cases; eassumption.
Qed.

Lemma reachable_well_formed s : StatRegions.reachable G s -> well_formed s.
Proof.
  induction 1 as [| s a s' _ IH Hadd | s i j b s' r _ IH Hfind | s s' _ IH Hgen].
  - split; [intros i j r Hr; cbn in Hr; rewrite lookup_empty in Hr; discriminate
           | intros e He; discriminate].
  - unfold StatRegions.add_article_to_region in Hadd.
    destruct (art_coord a); [| discriminate]. injection Hadd as <-. exact IH.
  - eapply find_region_cases; eassumption.
  - unfold StatRegions.generate_all_nonempty_regions in Hgen.
    destruct (StatRegions.find_all G s _) as [s1 |] eqn:Ef; [| discriminate].
    injection Hgen as <-. apply find_all_well_formed in Ef; [| exact IH].
    exact Ef.
Qed.

End RegionTable.

Section RegionLookup.
Variable G : Globals.

Lemma tile_articles_finished tiles l :
  (forall k arts, tiles !! k = Some arts -> dists_finished arts) ->
  dists_finished (tile_articles tiles l).
Proof.
  intros Hfin a d Ha. apply list_elem_of_In in Ha.
  unfold tile_articles in Ha. apply list_elem_of_bind in Ha as (t & Ha & _).
  rewrite lookup_total_alt in Ha.
  destruct (tiles !! t) as [arts |] eqn:Et; cbn in Ha.
  - apply (Hfin t arts Et). apply list_elem_of_In, Ha.
  - apply elem_of_nil in Ha. contradiction.
Qed.

Lemma find_region_returns s i j b :
  tiles_finished s ->
  exists s' r, StatRegions.find_region_for_region_indices G s i j b = Some (s', r).
Proof.
  intros Hfin. unfold StatRegions.find_region_for_region_indices.
  destruct (corner_to_stat_region s !! (i, j)); [eauto |].
  destruct (all_regions_computed s).
  - destruct (empty_stat_region s); cbn; eauto.
  - unfold StatRegions.generate_dist, StatRegions.new. cbn [latind longind worddist].
    rewrite process_regions_accumulates;
      [| reflexivity | apply tile_articles_finished, Hfin].
    cbn. eauto.
Qed.

(** C2, amended.  In every state of the class in which the filed articles
    have finished distributions, [find_region_for_coord(c)] returns a region.
    Its indices are [coord_to_stat_region_indices(c)] whenever a region is
    stored for those indices or not all regions have been computed yet; once
    [generate_all_nonempty_regions] has run and no region is stored for those
    indices, the result is instead the shared sentinel empty region, whose
    indices are [None]. *)
Theorem find_region_for_coord_indices (s : StatRegionClass) (c : Coord) :
  StatRegions.reachable G s ->
  tiles_finished s ->
  let ij := Coords.coord_to_stat_region_indices G c in
  exists s' r reg,
    StatRegions.find_region_for_coord G s c = Some (s', r) /\
    heap s' !! r = Some reg /\
    (is_Some (corner_to_stat_region s !! ij) \/ all_regions_computed s = false ->
     latind reg = Some (fst ij) /\ longind reg = Some (snd ij)) /\
    (corner_to_stat_region s !! ij = None /\ all_regions_computed s = true ->
     reg = sentinel_region /\ empty_stat_region s' = Some r).
Proof.
  intros Hreach Hfin ij. apply reachable_well_formed in Hreach as Hwf.
  unfold StatRegions.find_region_for_coord. subst ij.
  destruct (Coords.coord_to_stat_region_indices G c) as [i j]. cbn [fst snd].
  destruct (find_region_returns s i j false Hfin) as (s' & r & Ef).
  destruct (find_region_cases G s i j false s' r Hwf Ef)
    as (Hwf' & _ & _ & _ & Hcases).
  exists s', r. rewrite Ef.
  destruct Hcases as [[Hhit ->] | [(Hmiss & Hall & He & _) | (Hmiss & Hall & reg & Hreg & Hij)]].
  - destruct Hwf as [Hc _]. destruct (Hc i j r Hhit) as (reg & Hreg & Hij).
    exists reg. split; [reflexivity |]. split; [exact Hreg |].
    split; [intros _; exact Hij |]. intros [Hnone _]. congruence.
  - destruct Hwf' as [_ Hs]. exists sentinel_region.
    split; [reflexivity |]. split; [apply Hs, He |]. split.
    + intros [[r0 Hr0] | Hf]; congruence.
    + intros _. split; [reflexivity | exact He].
  - exists reg. split; [reflexivity |]. split; [exact Hreg |].
    split; [intros _; exact Hij |]. intros [_ Ht]. congruence.
Qed.

(** C4.  [generate_all_nonempty_regions] ends with [all_regions_computed]
    true.  In every state of the class in which it is true,
    [find_region_for_region_indices] returns, leaves the table of stored
    regions, the tiles and the two counters as they are, and returns the
    stored region when there is one; for an index pair with no stored region
    it returns the sentinel, an object with a finished and empty word
    distribution that is built on the first miss and is the same object (the
    same reference, in an unchanged state) on every later one. *)
Theorem no_region_built_after_generate_all (s : StatRegionClass) :
  StatRegions.reachable G s ->
  (forall s1, StatRegions.generate_all_nonempty_regions G s = Some s1 ->
     all_regions_computed s1 = true) /\
  (all_regions_computed s = true ->
   forall i j b, exists s' r,
     StatRegions.find_region_for_region_indices G s i j b = Some (s', r) /\
     corner_to_stat_region s' = corner_to_stat_region s /\
     tiling_region_to_articles s' = tiling_region_to_articles s /\
     num_empty_regions s' = num_empty_regions s /\
     num_non_empty_regions s' = num_non_empty_regions s /\
     all_regions_computed s' = true /\
     (forall r0, corner_to_stat_region s !! (i, j) = Some r0 -> r = r0 /\ s' = s) /\
     (corner_to_stat_region s !! (i, j) = None ->
      empty_stat_region s' = Some r /\
      heap s' !! r = Some sentinel_region /\
      finished (base (worddist sentinel_region)) = true /\
      RegionWordDists.is_empty (worddist sentinel_region) = true /\
      counts (base (worddist sentinel_region)) = ∅ /\
      (forall e, empty_stat_region s = Some e -> r = e /\ s' = s) /\
      (forall i2 j2 b2, corner_to_stat_region s' !! (i2, j2) = None ->
         StatRegions.find_region_for_region_indices G s' i2 j2 b2 = Some (s', r)))).
Proof.
  intros Hreach. apply reachable_well_formed in Hreach as Hwf. split.
  - intros s1. unfold StatRegions.generate_all_nonempty_regions.
    destruct (StatRegions.find_all G s _); [| discriminate].
    intros [= <-]. reflexivity.
  - intros Hall i j b. pose proof Hwf as [Hc Hs].
    unfold StatRegions.find_region_for_region_indices at 1.
    destruct (corner_to_stat_region s !! (i, j)) as [r0 |] eqn:Ec.
    { exists s, r0. do 6 (split; [first [reflexivity | assumption] |]).
      split; [intros r1 [= <-]; split; reflexivity | discriminate]. }
    rewrite Hall.
    destruct (empty_stat_region s) as [e |] eqn:Ee.
    + exists s, e. do 6 (split; [first [reflexivity | assumption] |]).
      split; [discriminate |]. intros _.
      split; [exact Ee |]. split; [apply Hs; reflexivity |].
      do 3 (split; [reflexivity |]).
      split; [intros e' [= <-]; split; reflexivity |].
      intros i2 j2 b2 Hn. unfold StatRegions.find_region_for_region_indices.
      rewrite Hn, Hall, Ee. reflexivity.
    + cbn. eexists _, _. split; [reflexivity |]. cbn.
      do 5 (split; [first [reflexivity | assumption] |]).
      split; [discriminate |]. intros _.
      split; [reflexivity |]. split; [apply list_lookup_middle; reflexivity |].
      do 3 (split; [reflexivity |]).
      split; [discriminate |].
      intros i2 j2 b2 Hn. unfold StatRegions.find_region_for_region_indices.
      cbn. rewrite Hn, Hall. reflexivity.
Qed.

End RegionLookup.

Section RegionLookupExamples.
#[local] Open Scope R_scope.

Lemma somewhere_indices :
  Coords.coord_to_stat_region_indices globals_90deg somewhere = (0, 0)%Z.
Proof.
  unfold Coords.coord_to_stat_region_indices, Coords.coord_to_tiling_region_indices,
    minimum_latitude, minimum_longitude, somewhere.
  cbn [lat long degrees_per_region globals_90deg Opts width_of_stat_region options_W].
  repeat match goal with
         | |- context [Rlt_dec ?a ?b] => destruct (Rlt_dec a b); [lra |]
         end.
  cbn [lat long].
  rewrite (floor_value ((10 - (1 - 1) / 2 * 90) / 90) 0) by lra.
  reflexivity.
Qed.

Lemma initial_tiles_finished : tiles_finished StatRegions.initial.
Proof. intros k arts Hk. cbn in Hk. rewrite lookup_empty in Hk. discriminate. Qed.

Lemma grid_all_empty_generated :
  StatRegions.generate_all_nonempty_regions globals_90deg StatRegions.initial
  = Some grid_all_empty.
Proof. vm_compute. reflexivity. Qed.

Lemma grid_all_empty_reachable : StatRegions.reachable globals_90deg grid_all_empty.
Proof.
  eapply StatRegions.reach_generate_all;
    [apply StatRegions.reach_initial | apply grid_all_empty_generated].
Qed.

(** Before the regions are generated, the region found for a coordinate has
    the coordinate's statistical-region indices. *)
Lemma find_region_for_coord_indices_witness :
  exists s' r reg,
    StatRegions.find_region_for_coord globals_90deg StatRegions.initial somewhere
    = Some (s', r) /\
    heap s' !! r = Some reg /\ latind reg = Some 0%Z /\ longind reg = Some 0%Z.
Proof.
  destruct (find_region_for_coord_indices globals_90deg StatRegions.initial
              somewhere (StatRegions.reach_initial globals_90deg)
              initial_tiles_finished)
    as (s' & r & reg & E & Hreg & Hij & _).
  exists s', r, reg. split; [exact E |]. split; [exact Hreg |].
  rewrite somewhere_indices in Hij. apply Hij. right. reflexivity.
Defined.

(** C2, as stated, fails: on the grid of 90-degree tiles with no article,
    after [generate_all_nonempty_regions], the region found for the coordinate
    (10, 10), whose statistical-region indices are (0, 0), is the sentinel,
    whose indices are [None]. *)
Lemma find_region_for_coord_returns_sentinel :
  StatRegions.generate_all_nonempty_regions globals_90deg StatRegions.initial
  = Some grid_all_empty /\
  Coords.coord_to_stat_region_indices globals_90deg somewhere = (0, 0)%Z /\
  (StatRegions.find_region_for_coord globals_90deg grid_all_empty somewhere
     ≫= fun '(s', r) => heap s' !! r) = Some sentinel_region /\
  (latind sentinel_region, longind sentinel_region) <> (Some 0%Z, Some 0%Z).
Proof.
  split; [apply grid_all_empty_generated |].
  split; [apply somewhere_indices |]. split.
  - unfold StatRegions.find_region_for_coord. rewrite somewhere_indices.
    vm_compute. reflexivity.
  - cbn. discriminate.
Qed.

(** After [generate_all_nonempty_regions] on the empty grid, a lookup returns
    the sentinel and stores nothing. *)
Lemma no_region_built_after_generate_all_witness :
  exists s' r,
    StatRegions.find_region_for_region_indices globals_90deg grid_all_empty 0 0 false
    = Some (s', r) /\
    corner_to_stat_region s' = ∅ /\
    heap s' !! r = Some sentinel_region.
Proof.
  destruct (no_region_built_after_generate_all globals_90deg grid_all_empty
              grid_all_empty_reachable) as [_ H].
  destruct (H eq_refl 0%Z 0%Z false)
    as (s' & r & E & Hc & _ & _ & _ & _ & _ & Hmiss).
  exists s', r. split; [exact E |]. split; [exact Hc |].
  apply Hmiss. apply lookup_empty.
Defined.

End RegionLookupExamples.

(** ** Result accumulators *)

Section EvalProperties.

Lemma incr_attr_lookup self name v :
  attrs self !! name = Some v ->
  exists self', Evals.incr_attr self name = Some self' /\
    attrs self' = <[name := v + 1]> (attrs self) /\
    incorrect_reasons self' = incorrect_reasons self.
Proof.
  intros H. unfold Evals.incr_attr. rewrite H.
  eexists. split; [reflexivity |]. split; reflexivity.
Qed.

(** One call: the total and exactly one of the two other counters grow by
    one, the other stays. *)
Lemma record_result_counts self correct reason t c i :
  sound self -> Evals.reason_of self reason ->
  Evals.total_instances self = Some t ->
  Evals.correct_instances self = Some c ->
  Evals.incorrect_instances self = Some i ->
  exists self',
    Evals.record_result self correct reason = Some self' /\
    sound self' /\
    incorrect_reasons self' = incorrect_reasons self /\
    Evals.total_instances self' = Some (t + 1) /\
    Evals.correct_instances self' = Some (if correct then c + 1 else c) /\
    Evals.incorrect_instances self' = Some (if correct then i else i + 1).
Proof.
  intros [Hcnt Hrs] Hreason Ht Hc Hi.
  unfold Evals.total_instances, Evals.correct_instances,
    Evals.incorrect_instances in *.
  assert (Hsound : forall m : gmap string Z,
            (forall n, is_Some (attrs self !! n) -> is_Some (m !! n)) ->
            sound {| attrs := m; incorrect_reasons := incorrect_reasons self;
                     other_stats := other_stats self |}).
  { intros m Hm. split; cbn.
    - intros n Hn. apply Hm, Hcnt, Hn.
    - intros r Hr. destruct (Hrs r Hr) as [Hn Hs]. split; [exact Hn | apply Hm, Hs]. }
  assert (Hkeep : forall (m : gmap string Z) k v,
            (forall n, is_Some (attrs self !! n) -> is_Some (m !! n)) ->
            forall n, is_Some (attrs self !! n) -> is_Some (<[k := v]> m !! n)).
  { intros m k v Hm n Hn. rewrite lookup_insert. case_decide; [eauto | apply Hm, Hn]. }
  unfold Evals.record_result, Evals.incr_attr. rewrite Ht. cbn.
  destruct correct.
  - rewrite lookup_insert_ne by discriminate. rewrite Hc. cbn.
    eexists. split; [reflexivity |]. cbn. split.
    { apply Hsound. do 2 apply Hkeep. auto. }
    split; [reflexivity |].
    rewrite !lookup_insert. repeat case_decide; try congruence; repeat split; congruence.
  - rewrite lookup_insert_ne by discriminate. rewrite Hi. cbn.
    destruct reason as [r |]; cbn in Hreason.
    + destruct (Hrs r Hreason) as [Hnot [v Hv]].
      assert (Hr1 : "incorrect_instances" <> r) by (intros <-; apply Hnot; cbn; auto).
      assert (Hr2 : "total_instances" <> r) by (intros <-; apply Hnot; cbn; auto).
      assert (Hr3 : "correct_instances" <> r) by (intros <-; apply Hnot; cbn; auto).
      rewrite lookup_insert_ne by exact Hr1.
      rewrite lookup_insert_ne by exact Hr2. rewrite Hv. cbn.
      eexists. split; [reflexivity |]. cbn. split.
      { apply Hsound. do 3 apply Hkeep. auto. }
      split; [reflexivity |].
      rewrite !lookup_insert. repeat case_decide; try congruence; repeat split; congruence.
    + eexists. split; [reflexivity |]. cbn. split.
      { apply Hsound. do 2 apply Hkeep. auto. }
      split; [reflexivity |].
      rewrite !lookup_insert. repeat case_decide; try congruence; repeat split; congruence.
Qed.

End EvalProperties.

Section EvalSequences.

Lemma init_fold_attrs (reasons : list (string * string)) : forall self0 n,
  attrs (fold_left (fun self '(attrname, _) => Evals.set_attr self attrname 0)
           reasons self0) !! n
  = (if bool_decide (n ∈ map fst reasons) then Some 0 else attrs self0 !! n) /\
  incorrect_reasons
    (fold_left (fun self '(attrname, _) => Evals.set_attr self attrname 0)
       reasons self0)
  = incorrect_reasons self0.
Proof.
  induction reasons as [| [a e] reasons IH]; intros self0 n; cbn [fold_left map fst].
  - split; [| reflexivity].
    rewrite bool_decide_eq_false_2; [reflexivity | apply not_elem_of_nil].
  - destruct (IH (Evals.set_attr self0 a 0) n) as [-> ->]. split; [| reflexivity].
    cbn [Evals.set_attr attrs]. rewrite lookup_insert.
    destruct (bool_decide (n ∈ map fst reasons)) eqn:Eb.
    + apply bool_decide_eq_true_1 in Eb.
      rewrite bool_decide_eq_true_2; [reflexivity | right; exact Eb].
    + apply bool_decide_eq_false_1 in Eb. case_decide as Ea.
      * subst a. rewrite bool_decide_eq_true_2; [reflexivity | left].
      * rewrite bool_decide_eq_false_2; [reflexivity |].
        intros Hin. apply elem_of_cons in Hin as [-> | Hin]; contradiction.
Qed.

(** The integer attributes that [Eval.__init__] leaves. *)
Lemma init_attrs reasons n :
  n <> "other_stats" ->
  attrs (Evals.init reasons) !! n
  = if bool_decide (n ∈ map fst reasons) then Some 0
    else if bool_decide (n ∈ Evals.counter_names) then Some 0 else None.
Proof.
  intros Hn. unfold Evals.init. cbn [attrs].
  rewrite lookup_delete_ne by congruence.
  destruct (init_fold_attrs reasons
    {| attrs := <["incorrect_instances" := 0]>
                  (<["correct_instances" := 0]> (<["total_instances" := 0]> ∅));
       incorrect_reasons := reasons; other_stats := ∅ |} n) as [-> _].
  destruct (bool_decide (n ∈ map fst reasons)); [reflexivity |].
  cbn [attrs]. unfold Evals.counter_names.
  destruct (bool_decide (n ∈ _)) eqn:Eb.
  - apply bool_decide_eq_true_1 in Eb. rewrite !elem_of_cons, elem_of_nil in Eb.
    destruct Eb as [-> | [-> | [-> | []]]]; reflexivity.
  - apply bool_decide_eq_false_1 in Eb.
    rewrite !lookup_insert_ne; [apply lookup_empty | ..];
      intros <-; apply Eb; rewrite !elem_of_cons; auto.
Qed.

Lemma init_reasons reasons : incorrect_reasons (Evals.init reasons) = reasons.
Proof.
  unfold Evals.init. cbn [incorrect_reasons].
  destruct (init_fold_attrs reasons
    {| attrs := <["incorrect_instances" := 0]>
                  (<["correct_instances" := 0]> (<["total_instances" := 0]> ∅));
       incorrect_reasons := reasons; other_stats := ∅ |} EmptyString) as [_ ->].
  reflexivity.
Qed.

(** [Eval.__init__] builds a sound object with the three counters at 0, when
    no reason of the table is named like one of the counters or like the
    attribute [other_stats]. *)
Lemma init_sound reasons :
  (forall r, In r (map fst reasons) ->
     ~ In r Evals.counter_names /\ r <> "other_stats") ->
  sound (Evals.init reasons) /\
  Evals.total_instances (Evals.init reasons) = Some 0 /\
  Evals.correct_instances (Evals.init reasons) = Some 0 /\
  Evals.incorrect_instances (Evals.init reasons) = Some 0.
Proof.
  intros Hnames.
  assert (Hcounter : forall n, In n Evals.counter_names ->
            attrs (Evals.init reasons) !! n = Some 0).
  { intros n Hn. rewrite init_attrs.
    - destruct (bool_decide (n ∈ map fst reasons)); [reflexivity |].
      rewrite bool_decide_eq_true_2; [reflexivity | apply list_elem_of_In, Hn].
    - cbn in Hn. destruct Hn as [<- | [<- | [<- | []]]]; discriminate. }
  split; [split |].
  - intros n Hn. rewrite (Hcounter n Hn). eauto.
  - intros r Hr. rewrite init_reasons in Hr.
    destruct (Hnames r Hr) as [Hc Ho]. split; [exact Hc |].
    rewrite init_attrs by exact Ho.
    rewrite bool_decide_eq_true_2 by (apply list_elem_of_In, Hr). eauto.
  - unfold Evals.total_instances, Evals.correct_instances, Evals.incorrect_instances.
    rewrite !Hcounter by (cbn; auto). auto.
Qed.

(** A sequence of calls: the total grows by the number of calls, the two
    other counters by the numbers of correct and of incorrect results. *)
Lemma record_results_counts results : forall self t c i,
  sound self ->
  Forall (fun x => Evals.reason_of self (snd x)) results ->
  Evals.total_instances self = Some t ->
  Evals.correct_instances self = Some c ->
  Evals.incorrect_instances self = Some i ->
  exists self',
    Evals.record_results self results = Some self' /\
    Evals.total_instances self' = Some (t + Z.of_nat (length results)) /\
    Evals.correct_instances self'
    = Some (c + Z.of_nat (length (List.filter fst results))) /\
    Evals.incorrect_instances self'
    = Some (i + Z.of_nat (length (List.filter (fun x => negb (fst x)) results))).
Proof.
  induction results as [| [correct reason] results IH];
    intros self t c i Hs Hall Ht Hc Hi.
  - exists self. cbn. rewrite !Z.add_0_r. auto.
  - apply Forall_cons in Hall as [Hr Hall]. cbn [snd] in Hr.
    destruct (record_result_counts self correct reason t c i Hs Hr Ht Hc Hi)
      as (self1 & E1 & Hs1 & Hrs1 & Ht1 & Hc1 & Hi1).
    assert (Hall1 : Forall (fun x => Evals.reason_of self1 (snd x)) results).
    { eapply Forall_impl; [exact Hall |]. intros [b r]. cbn.
      unfold Evals.reason_of. rewrite Hrs1. auto. }
    destruct (IH self1 _ _ _ Hs1 Hall1 Ht1 Hc1 Hi1) as (self' & E & Ht' & Hc' & Hi').
    exists self'. cbn [Evals.record_results]. rewrite E1.
    split; [exact E |]. rewrite Ht', Hc', Hi'.
    cbn [List.filter fst length]. destruct correct; cbn [negb length];
      repeat split; f_equal; lia.
Qed.

(** C9.  For every [Eval] object that is sound (the three counters exist and
    its reason table names counters of its own) and every reason that is
    [None] or in its table, a call of [record_result] returns, increments
    [total_instances] by one and exactly one of [correct_instances] and
    [incorrect_instances] by one; and every sequence of such calls preserves
    [total_instances = correct_instances + incorrect_instances]. *)
Theorem record_result_keeps_balance (self : Eval) (correct : bool)
    (reason : option string) (results : list (bool * option string)) (t c i : Z) :
  sound self ->
  Evals.total_instances self = Some t ->
  Evals.correct_instances self = Some c ->
  Evals.incorrect_instances self = Some i ->
  Evals.reason_of self reason ->
  Forall (fun x => Evals.reason_of self (snd x)) results ->
  (exists self',
     Evals.record_result self correct reason = Some self' /\
     sound self' /\
     Evals.total_instances self' = Some (t + 1) /\
     Evals.correct_instances self' = Some (if correct then c + 1 else c) /\
     Evals.incorrect_instances self' = Some (if correct then i else i + 1) /\
     (t = c + i -> Evals.balanced self')) /\
  (t = c + i ->
   exists self', Evals.record_results self results = Some self' /\
                 Evals.balanced self').
Proof.
  intros Hs Ht Hc Hi Hr Hall. split.
  - destruct (record_result_counts self correct reason t c i Hs Hr Ht Hc Hi)
      as (self' & E & Hs' & _ & Ht' & Hc' & Hi').
    exists self'. do 5 (split; [assumption |]).
    intros Hb. exists (t + 1), (if correct then c + 1 else c),
      (if correct then i else i + 1).
    do 3 (split; [assumption |]). destruct correct; lia.
  - intros Hb.
    destruct (record_results_counts results self t c i Hs Hall Ht Hc Hi)
      as (self' & E & Ht' & Hc' & Hi').
    exists self'. split; [exact E |].
    eexists _, _, _. do 3 (split; [eassumption |]).
    assert (length results
            = (length (List.filter fst results)
               + length (List.filter (fun x => negb (fst x)) results))%nat).
    { clear. induction results as [| [[] r] l IH]; cbn; lia. }
    lia.
Qed.

End EvalSequences.

(** Why a reason must not be named like a counter: [setattr] would then
    increment that counter a second time. *)
Example record_result_reason_named_like_counter :
  (Evals.record_result (Evals.init []) false (Some "correct_instances")
     ≫= fun self => Some (Evals.total_instances self, Evals.correct_instances self,
                          Evals.incorrect_instances self))
  = Some (Some 1, Some 1, Some 1).
Proof. vm_compute. reflexivity. Qed.

(** Why a reason must not be named [other_stats]: [__init__] ends by binding
    that attribute to an [intdict], which [record_result] cannot increment. *)
Example record_result_reason_named_other_stats :
  Evals.record_result (Evals.init [("other_stats", "Other")]) false
    (Some "other_stats") = None.
Proof. vm_compute. reflexivity. Qed.

(** The toponym evaluator's table of reasons, one correct and one incorrect
    result. *)
Lemma record_result_keeps_balance_witness :
  (exists self',
     Evals.record_result (Evals.init Evals.incorrect_geotag_toponym_reasons)
       false (Some "incorrect_with_no_candidates") = Some self' /\
     Evals.total_instances self' = Some 1 /\
     Evals.incorrect_instances self' = Some 1) /\
  (exists self',
     Evals.record_results (Evals.init Evals.incorrect_geotag_toponym_reasons)
       [(true, None); (false, Some "incorrect_one_correct_candidate")]
     = Some self' /\ Evals.balanced self').
Proof.
  assert (Hnames : forall r,
            In r (map fst Evals.incorrect_geotag_toponym_reasons) ->
            ~ In r Evals.counter_names /\ r <> "other_stats").
  { cbn. intros r Hr.
    repeat (destruct Hr as [<- | Hr]); try contradiction;
      (split; [intros Hc; repeat (destruct Hc as [Hc | Hc]; try discriminate Hc);
               contradiction
              | discriminate]). }
  destruct (init_sound _ Hnames) as (Hs & Ht & Hc & Hi).
  assert (Hrs : incorrect_reasons (Evals.init Evals.incorrect_geotag_toponym_reasons)
                = Evals.incorrect_geotag_toponym_reasons) by reflexivity.
  destruct (record_result_keeps_balance
              (Evals.init Evals.incorrect_geotag_toponym_reasons) false
              (Some "incorrect_with_no_candidates")
              [(true, None); (false, Some "incorrect_one_correct_candidate")]
              0 0 0 Hs Ht Hc Hi) as [H1 H2].
  - unfold Evals.reason_of. rewrite Hrs. cbn. auto.
  - constructor; [exact I |]. constructor; [| constructor].
    unfold Evals.reason_of. cbn [snd]. rewrite Hrs. cbn. auto 10.
  - split.
    + destruct H1 as (self' & E & _ & Ht' & _ & Hi' & _).
      exists self'. auto.
    + apply H2. reflexivity.
Defined.

(** ** Divisions *)

Section DivisionProperties.
#[local] Open Scope R_scope.

Lemma fold_Rmin_lower l : forall x,
  fold_left Rmin l x <= x /\ forall y, In y l -> fold_left Rmin l x <= y.
Proof.
  induction l as [| a l IH]; intros x; cbn.
  - split; [lra | intros y []].
  - destruct (IH (Rmin x a)) as [H1 H2]. split.
    + pose proof (Rmin_l x a). lra.
    + intros y [<- | Hy]; [pose proof (Rmin_r x a); lra | apply H2, Hy].
Qed.

Lemma fold_Rmax_upper l : forall x,
  x <= fold_left Rmax l x /\ forall y, In y l -> y <= fold_left Rmax l x.
Proof.
  induction l as [| a l IH]; intros x; cbn.
  - split; [lra | intros y []].
  - destruct (IH (Rmax x a)) as [H1 H2]. split.
    + pose proof (Rmax_l x a). lra.
    + intros y [<- | Hy]; [pose proof (Rmax_r x a); lra | apply H2, Hy].
Qed.

Lemma min_of_lower l y :
  In y l -> exists m, Divisions.min_of l = Some m /\ m <= y.
Proof.
  destruct l as [| x l]; [intros [] |]. intros Hy. eexists. split; [reflexivity |].
  destruct (fold_Rmin_lower l x) as [H1 H2]. destruct Hy as [<- | Hy]; auto.
Qed.

Lemma max_of_upper l y :
  In y l -> exists m, Divisions.max_of l = Some m /\ y <= m.
Proof.
  destruct l as [| x l]; [intros [] |]. intros Hy. eexists. split; [reflexivity |].
  destruct (fold_Rmax_upper l x) as [H1 H2]. destruct Hy as [<- | Hy]; auto.
Qed.

(** The bounding box of a division encloses every locality noted in it. *)
Lemma compute_boundary_encloses d loc :
  In loc (div_locs d) ->
  exists b, Divisions.compute_boundary d = Some b /\
            Divisions.contains b (loc_coord loc).
Proof.
  intros Hin. unfold Divisions.compute_boundary, Divisions.goodlocs.
  destruct (min_of_lower (map (fun x => lat (loc_coord x)) (div_locs d))
              (lat (loc_coord loc))) as (a & -> & Ha);
    [apply (in_map (fun x => lat (loc_coord x))), Hin |].
  destruct (min_of_lower (map (fun x => long (loc_coord x)) (div_locs d))
              (long (loc_coord loc))) as (b & -> & Hb);
    [apply (in_map (fun x => long (loc_coord x))), Hin |].
  destruct (max_of_upper (map (fun x => lat (loc_coord x)) (div_locs d))
              (lat (loc_coord loc))) as (c & -> & Hc);
    [apply (in_map (fun x => lat (loc_coord x))), Hin |].
  destruct (max_of_upper (map (fun x => long (loc_coord x)) (div_locs d))
              (long (loc_coord loc))) as (e & -> & He);
    [apply (in_map (fun x => long (loc_coord x))), Hin |].
  eexists. split; [reflexivity |]. unfold Divisions.contains. cbn. auto.
Qed.

End DivisionProperties.

Section NotePoint.

Lemma prefix_snoc_cases (p l : list string) (x : string) :
  p `prefix_of` l ++ [x] -> p `prefix_of` l \/ p = l ++ [x].
Proof.
  intros [k Hk]. destruct k as [| y k _] using rev_ind.
  - right. rewrite app_nil_r in Hk. symmetry; exact Hk.
  - left. rewrite app_assoc in Hk. apply app_inj_tail in Hk as [-> _].
    apply prefix_app_r. reflexivity.
Qed.

Lemma noted_snoc (l : list string) (x : string) (p : list string) :
  noted (l ++ [x]) p <-> noted l p \/ (p = l ++ [x] /\ x <> EmptyString).
Proof.
  unfold noted. split.
  - intros [Hp (name & Hlast & Hname)].
    apply prefix_snoc_cases in Hp as [Hp | ->].
    + left. eauto.
    + right. rewrite last_snoc in Hlast. injection Hlast as <-. auto.
  - intros [[Hp Hn] | [-> Hx]].
    + split; [apply prefix_app_r, Hp | exact Hn].
    + split; [reflexivity |]. exists x. split; [apply last_snoc | exact Hx].
Qed.

Lemma not_noted_nil (p : list string) : ~ noted [] p.
Proof.
  intros [Hp (name & Hlast & _)]. apply prefix_nil_inv in Hp. subst p.
  discriminate Hlast.
Qed.

Lemma not_noted_longer (l : list string) (x : string) : ~ noted l (l ++ [x]).
Proof. intros [Hp _]. exact (prefix_snoc_not l x Hp). Qed.

Lemma note_point_rev_noted loc rpath : forall t,
  rpath <> [] ->
  exists t' r, Divisions.note_point_rev t loc rpath = Some (t', r) /\
               noted_in loc t t' (rev rpath).
Proof.
  induction rpath as [| name rinit IH]; intros t Hne; [contradiction |].
  assert (Hhigher : exists t1 r1,
            match rinit with
            | [] => Some (t, None)
            | _ :: _ => Divisions.note_point_rev t loc rinit
            end = Some (t1, r1) /\ noted_in loc t t1 (rev rinit)).
  { destruct rinit as [| n2 rinit'].
    - exists t, None. split; [reflexivity |]. intros p. split.
      + intros Hn. destruct (not_noted_nil p Hn).
      + reflexivity.
    - apply IH. discriminate. }
  destruct Hhigher as (t1 & r1 & E1 & H1).
  cbn [Divisions.note_point_rev rev]. rewrite E1.
  destruct (String.eqb_spec name EmptyString) as [-> | Hname].
  - exists t1, r1. split; [reflexivity |]. intros p.
    destruct (H1 p) as [Hyes Hno]. split.
    + intros Hn. apply noted_snoc in Hn as [Hn | [_ Hx]]; [auto | contradiction].
    + intros Hn. apply Hno. intros Hn'. apply Hn, noted_snoc. left; exact Hn'.
  - set (path := rev rinit ++ [name]).
    assert (Hsame : path_to_division t1 !! path = path_to_division t !! path).
    { apply H1, not_noted_longer. }
    destruct (path_to_division t1 !! path) as [d0 |] eqn:Ed.
    + eexists _, _. split; [reflexivity |]. intros p. cbn.
      destruct (decide (path = p)) as [<- | Hp].
      * split; [| intros Hn; exfalso; apply Hn, noted_snoc; right; auto].
        intros _. rewrite lookup_insert_eq. eexists. split; [reflexivity |].
        cbn. unfold locs_before. rewrite <- Hsame. reflexivity.
      * rewrite lookup_insert_ne by exact Hp. destruct (H1 p) as [Hyes Hno]. split.
        -- intros Hn. apply noted_snoc in Hn as [Hn | [-> _]]; [auto | contradiction].
        -- intros Hn. apply Hno. intros Hn'. apply Hn, noted_snoc. left; exact Hn'.
    + eexists _, _. split; [reflexivity |]. intros p. cbn.
      destruct (decide (path = p)) as [<- | Hp].
      * split; [| intros Hn; exfalso; apply Hn, noted_snoc; right; auto].
        intros _. rewrite lookup_insert_eq. eexists. split; [reflexivity |].
        cbn. unfold locs_before. rewrite <- Hsame. reflexivity.
      * rewrite !lookup_insert_ne by exact Hp. destruct (H1 p) as [Hyes Hno]. split.
        -- intros Hn. apply noted_snoc in Hn as [Hn | [-> _]]; [auto | contradiction].
        -- intros Hn. apply Hno. intros Hn'. apply Hn, noted_snoc. left; exact Hn'.
Qed.

End NotePoint.

(** C10.  [note_point_seen_in_division(loc, path)] on a non-empty path
    returns; afterwards, at every prefix of [path] whose last element is not
    empty there is a division whose [locs] are the former ones followed by
    [loc] (so the bounding box computed for it encloses the coordinate of
    [loc]), and the table is unchanged at every other key: a prefix that ends
    in an empty name gets no division and no locality. *)
Theorem note_point_seen_in_every_enclosing_division
    (t : DivisionTables) (loc : Locality) (path : list string) :
  path <> [] ->
  exists t' r,
    Divisions.note_point_seen_in_division t loc path = Some (t', r) /\
    forall p,
      (noted path p ->
       exists d b,
         path_to_division t' !! p = Some d /\
         div_locs d = locs_before t p ++ [loc] /\
         Divisions.compute_boundary d = Some b /\
         Divisions.contains b (loc_coord loc)) /\
      (~ noted path p -> path_to_division t' !! p = path_to_division t !! p).
Proof.
  intros Hne. unfold Divisions.note_point_seen_in_division.
  destruct (note_point_rev_noted loc (rev path) t) as (t' & r & E & H).
  { intros Hr. apply Hne. rewrite <- (rev_involutive path), Hr. reflexivity. }
  rewrite rev_involutive in H.
  exists t', r. split; [exact E |]. intros p. destruct (H p) as [Hyes Hno].
  split; [| exact Hno]. intros Hn. destruct (Hyes Hn) as (d & Hd & Hlocs).
  destruct (compute_boundary_encloses d loc) as (b & Hb & Hin).
  { rewrite Hlocs. apply in_or_app. right. left. reflexivity. }
  exists d, b. auto.
Qed.

Section NotePointExample.
#[local] Open Scope R_scope.

Lemma note_point_seen_in_every_enclosing_division_witness :
  exists t',
    fst <$> Divisions.note_point_seen_in_division no_divisions austin austin_path
    = Some t' /\
    (exists d b, path_to_division t' !! ["United States"] = Some d /\
                 div_locs d = [austin] /\
                 Divisions.compute_boundary d = Some b /\
                 Divisions.contains b (loc_coord austin)) /\
    (exists d b, path_to_division t' !! ["United States"; "Texas"] = Some d /\
                 div_locs d = [austin] /\
                 Divisions.compute_boundary d = Some b /\
                 Divisions.contains b (loc_coord austin)) /\
    path_to_division t' !! austin_path = None.
Proof.
  destruct (note_point_seen_in_every_enclosing_division no_divisions austin
              austin_path) as (t' & r & E & H); [discriminate |].
  exists t'. rewrite E. split; [reflexivity |].
  split; [| split].
  - apply (H ["United States"]). split.
    + exists ["Texas"; ""%string]. reflexivity.
    + exists "United States". split; [reflexivity | discriminate].
  - apply (H ["United States"; "Texas"]). split.
    + exists [""%string]. reflexivity.
    + exists "Texas". split; [reflexivity | discriminate].
  - destruct (H austin_path) as [_ Hno]. rewrite Hno; [reflexivity |].
    intros [_ (name & Hlast & Hname)]. cbn in Hlast. injection Hlast as <-.
    apply Hname. reflexivity.
Defined.

End NotePointExample.

(** ** Recording an article *)

Section RecordArticle.

Lemma same_article_refl a : same_article a a = true.
Proof. unfold same_article. apply Z.eqb_refl. Qed.

Lemma append_lookup {K} `{Countable K} (m : gmap K (list Article)) k art :
  ArticleTables.append m k art !!! k = (m !!! k) ++ [art].
Proof. unfold ArticleTables.append. apply lookup_total_insert_eq. Qed.

Lemma append_new_has m k art :
  article_in art (ArticleTables.append_new m k art !!! k) = true.
Proof.
  unfold ArticleTables.append_new.
  destruct (article_in art (m !!! k)) eqn:E; [exact E |].
  rewrite append_lookup. unfold article_in. rewrite existsb_app. cbn.
  rewrite same_article_refl. apply orb_true_iff. right. reflexivity.
Qed.

Lemma append_new_keeps m k k' art a :
  article_in a (m !!! k') = true ->
  article_in a (ArticleTables.append_new m k art !!! k') = true.
Proof.
  intros Ha. unfold ArticleTables.append_new.
  destruct (article_in art (m !!! k)); [exact Ha |].
  unfold ArticleTables.append. rewrite lookup_total_insert.
  case_decide as Ek; [| exact Ha]. subst k'.
  unfold article_in in *. rewrite existsb_app, Ha. reflexivity.
Qed.

(** C8.  For every properly capitalised name and every article,
    [record_article] with [is_redirect=True] returns; afterwards the name maps
    to the article in [name_to_article], the article is the last entry under
    the lowercased name, under the short form and (when the name has a
    division after a comma) under the (short, div) pair, it is listed under
    the lowercased name and the short form in [lower_toponym_to_article], and
    [articles_by_split] is unchanged; with [is_redirect=False] the article
    is appended to the list of its split. *)
Theorem record_article_redirect_keeps_splits
    (t : ArticleTable) (name : string) (art : Article) :
  name = Str.capfirst name ->
  let loname := Str.lower name in
  let short := fst (compute_short_form loname) in
  let div := snd (compute_short_form loname) in
  (exists t',
     ArticleTables.record_article t name art true = Some t' /\
     name_to_article t' !! name = Some art /\
     lower_name_to_articles t' !!! loname
     = (lower_name_to_articles t !!! loname) ++ [art] /\
     short_lower_name_to_articles t' !!! short
     = (short_lower_name_to_articles t !!! short) ++ [art] /\
     (forall d, div = Some d -> d <> EmptyString ->
        lower_name_div_to_articles t' !!! (short, d)
        = (lower_name_div_to_articles t !!! (short, d)) ++ [art]) /\
     article_in art (lower_toponym_to_article t' !!! loname) = true /\
     article_in art (lower_toponym_to_article t' !!! short) = true /\
     articles_by_split t' = articles_by_split t) /\
  (exists t',
     ArticleTables.record_article t name art false = Some t' /\
     articles_by_split t' !!! art_split art
     = (articles_by_split t !!! art_split art) ++ [art]).
Proof.
  intros Hcap loname short div. subst loname short div.
  unfold ArticleTables.record_article.
  rewrite <- Hcap, String.eqb_refl. cbn [negb].
  destruct (compute_short_form (Str.lower name)) as [short div] eqn:Ecsf.
  cbn [fst snd]. split.
  - eexists. split; [reflexivity |]. cbn.
    split; [apply lookup_insert_eq |].
    split; [apply append_lookup |].
    split; [apply append_lookup |].
    split.
    { intros d -> Hd. destruct (String.eqb_spec d EmptyString); [contradiction |].
      apply append_lookup. }
    split; [| split; [| reflexivity]].
    + destruct (String.eqb short (Str.lower name)); cbn [negb];
        [apply append_new_has | apply append_new_keeps, append_new_has].
    + destruct (String.eqb_spec short (Str.lower name)) as [-> | Hne]; cbn [negb];
        apply append_new_has.
  - eexists. split; [reflexivity |]. cbn.
    rewrite lookup_total_insert_eq.
    destruct (articles_by_split t !! art_split art) as [l |] eqn:El.
    + reflexivity.
    + rewrite lookup_total_insert_eq. rewrite lookup_total_alt, El. reflexivity.
Qed.

End RecordArticle.

(** ** The ring search *)

Section RingLoop.
Variable find : R -> option Article.
Variable limit : R.

Lemma ring_loop_S fuel maxdist :
  WorldGazetteer.ring_loop find limit (S fuel) maxdist
  = if Rle_dec (IZR maxdist) limit then
      match find (IZR maxdist) with
      | Some art => Some ([maxdist], Some art)
      | None =>
          match WorldGazetteer.ring_loop find limit fuel (maxdist * 2) with
          | Some (tried, r) => Some (maxdist :: tried, r)
          | None => None
          end
      end
    else Some ([], None).
Proof. reflexivity. Qed.

(** The loop ends: with one more unit of fuel than the distance from
    [maxdist] to the limit it returns, since a radius of at least 1 grows by
    at least 1 when doubled. *)
Lemma ring_loop_returns fuel : forall maxdist,
  1 <= maxdist ->
  (limit < IZR (maxdist + Z.of_nat fuel))%R ->
  exists res, WorldGazetteer.ring_loop find limit (S fuel) maxdist = Some res.
Proof.
  induction fuel as [| fuel IH]; intros maxdist Hpos Hlim.
  - cbn. rewrite Z.add_0_r in Hlim.
    destruct (Rle_dec (IZR maxdist) limit); [lra | eauto].
  - rewrite ring_loop_S.
    destruct (Rle_dec (IZR maxdist) limit); [| eauto].
    destruct (find (IZR maxdist)); [eauto |].
    destruct (IH (maxdist * 2)) as [[tried out] E].
    + lia.
    + eapply Rlt_le_trans; [exact Hlim |]. apply IZR_le. lia.
    + rewrite E. eauto.
Qed.

Lemma ring_search_total :
  exists res, WorldGazetteer.ring_search find limit = Some res.
Proof.
  unfold WorldGazetteer.ring_search, WorldGazetteer.ring_fuel.
  destruct (ring_loop_returns (Z.to_nat (up limit)) 5) as [[tried out] E]; [lia | |].
  - destruct (archimed limit) as [Hup _].
    eapply Rlt_le_trans; [exact Hup |]. apply IZR_le. lia.
  - rewrite E. destruct tried as [| x tried]; [eauto |]. destruct out; eauto.
Qed.

(** With a limit under 5 the loop body never runs, and [match] is read
    without having been assigned. *)
Lemma ring_search_unbound :
  (limit < 5)%R ->
  WorldGazetteer.ring_search find limit = Some ([], WorldGazetteer.Unbound).
Proof.
  intros H. unfold WorldGazetteer.ring_search, WorldGazetteer.ring_fuel.
  rewrite ring_loop_S. destruct (Rle_dec (IZR 5) limit); [lra | reflexivity].
Qed.

(** A match at the radius 5 ends the search there. *)
Lemma ring_search_first_ring art :
  (5 <= limit)%R -> find 5%R = Some art ->
  WorldGazetteer.ring_search find limit
  = Some ([5], WorldGazetteer.Matched art).
Proof.
  intros Hlimit Hfind. unfold WorldGazetteer.ring_search, WorldGazetteer.ring_fuel.
  rewrite ring_loop_S. destruct (Rle_dec (IZR 5) limit) as [_ | Hn]; [| lra].
  rewrite Hfind. reflexivity.
Qed.

Lemma radii_succ maxdist n : radii maxdist (S n) = maxdist :: radii (maxdist * 2) n.
Proof.
  unfold radii. cbn [seq map]. f_equal.
  - cbn. lia.
  - rewrite <- seq_shift, map_map. apply map_ext. intros k.
    rewrite Nat2Z.inj_succ, Z.pow_succ_r by lia. lia.
Qed.

(** What the loop returns: the radii tried are the doubling sequence, all
    within the limit; [find] found nothing at any radius before the last;
    a match is what [find] returned at the last radius; without a match
    [find] found nothing at the last radius either, and the next radius is
    beyond the limit. *)
Lemma ring_loop_first_hit fuel : forall maxdist tried r,
  WorldGazetteer.ring_loop find limit fuel maxdist = Some (tried, r) ->
  tried = radii maxdist (length tried) /\
  Forall (fun x => (IZR x <= limit)%R) tried /\
  match r with
  | Some art =>
      exists init final, tried = init ++ [final] /\
        Forall (fun x => find (IZR x) = None) init /\
        find (IZR final) = Some art
  | None =>
      Forall (fun x => find (IZR x) = None) tried /\
      ~ (IZR (maxdist * 2 ^ Z.of_nat (length tried)) <= limit)%R
  end.
Proof.
  induction fuel as [| fuel IH]; intros maxdist tried r; [discriminate |].
  rewrite ring_loop_S.
  destruct (Rle_dec (IZR maxdist) limit) as [Hle | Hgt].
  - destruct (find (IZR maxdist)) as [art |] eqn:Ef.
    + intros [= <- <-]. split; [cbn; f_equal; lia |].
      split; [constructor; [exact Hle | constructor] |].
      exists [], maxdist. split; [reflexivity |]. split; [constructor | exact Ef].
    + destruct (WorldGazetteer.ring_loop find limit fuel (maxdist * 2))
        as [[tried' r'] |] eqn:El; [| discriminate].
      intros [= <- <-]. destruct (IH _ _ _ El) as (Htried & Hall & Hr).
      split; [cbn [length]; rewrite radii_succ; f_equal; exact Htried |].
      split; [constructor; assumption |].
      destruct r' as [art |].
      * destruct Hr as (init & final & -> & Hinit & Hfinal).
        exists (maxdist :: init), final.
        split; [reflexivity |]. split; [constructor; assumption | exact Hfinal].
      * destruct Hr as [Hnone Hnext]. split; [constructor; assumption |].
        cbn [length]. rewrite Nat2Z.inj_succ, Z.pow_succ_r by lia.
        replace (maxdist * (2 * 2 ^ Z.of_nat (length tried')))
          with (maxdist * 2 * 2 ^ Z.of_nat (length tried')) by lia.
        exact Hnext.
  - intros [= <- <-]. split; [reflexivity |]. split; [constructor |].
    split; [constructor |]. cbn. rewrite Z.mul_1_r. exact Hgt.
Qed.

End RingLoop.

(** ** Matching a locality *)

Section MatchProperties.
Variable py_sorted : (Article -> Article -> Z) -> list Article -> list Article.
Hypothesis py_sorted_permutes : forall cmp l, Permutation l (py_sorted cmp l).
Variable t : ArticleTable.
Variable check_match : Locality -> Article -> bool.
Variable prefer_match : Locality -> Article -> Article -> bool.

Lemma find_one_sound loc name art :
  ArticleTables.find_one_wikipedia_match py_sorted t check_match prefer_match
    loc name = Some art ->
  check_match loc art = true /\ In art (candidates_for t loc name).
Proof.
  unfold ArticleTables.find_one_wikipedia_match, candidates_for.
  destruct (List.find _ (ArticleTables.same_name_articles t name)) as [a |] eqn:E1.
  { intros [= <-]. apply find_some in E1 as [Hin Hc]. split; [exact Hc |].
    apply in_or_app. left; exact Hin. }
  destruct (List.find _ (ArticleTables.name_div_articles t loc name)) as [a |] eqn:E2.
  { intros [= <-]. apply find_some in E2 as [Hin Hc]. split; [exact Hc |].
    apply in_or_app. right. apply in_or_app. left; exact Hin. }
  assert (Hgood : forall a,
            In a (List.filter (check_match loc) (ArticleTables.short_name_articles t name)) ->
            check_match loc a = true /\
            In a (ArticleTables.same_name_articles t name
                  ++ ArticleTables.name_div_articles t loc name
                  ++ ArticleTables.short_name_articles t name)).
  { intros a Ha. apply filter_In in Ha as [Hin Hc]. split; [exact Hc |].
    apply in_or_app. right. apply in_or_app. right; exact Hin. }
  destruct (List.filter _ _) as [| a [| b l]] eqn:Ef.
  - discriminate.
  - intros [= <-]. apply Hgood. left; reflexivity.
  - intros Hhd. apply Hgood.
    eapply Permutation_in; [symmetry; apply py_sorted_permutes |].
    destruct (py_sorted _ _) as [| x l'] eqn:Es; [discriminate |].
    injection Hhd as ->. rewrite Es. left; reflexivity.
Qed.

Lemma find_one_complete loc name c :
  In c (candidates_for t loc name) -> check_match loc c = true ->
  exists art,
    ArticleTables.find_one_wikipedia_match py_sorted t check_match prefer_match
      loc name = Some art.
Proof.
  unfold ArticleTables.find_one_wikipedia_match, candidates_for.
  intros Hin Hc.
  destruct (List.find _ (ArticleTables.same_name_articles t name)) as [a |] eqn:E1;
    [eauto |].
  destruct (List.find _ (ArticleTables.name_div_articles t loc name)) as [a |] eqn:E2;
    [eauto |].
  apply in_app_or in Hin as [Hin | Hin].
  { rewrite (find_none _ _ E1 c Hin) in Hc. discriminate. }
  apply in_app_or in Hin as [Hin | Hin].
  { rewrite (find_none _ _ E2 c Hin) in Hc. discriminate. }
  assert (Hgood : In c (List.filter (check_match loc)
                          (ArticleTables.short_name_articles t name))).
  { apply filter_In. split; assumption. }
  destruct (List.filter _ _) as [| a [| b l]] eqn:Ef.
  - destruct Hgood.
  - eauto.
  - set (cmp := fun x y => if prefer_match loc x y then 1 else -1).
    pose proof (Permutation_length (py_sorted_permutes cmp (a :: b :: l))) as Hlen.
    destruct (py_sorted cmp (a :: b :: l)) as [| x l']; [discriminate Hlen |].
    cbn. eauto.
Qed.

Lemma first_match_sound loc names art :
  ArticleTables.first_match py_sorted t check_match prefer_match loc names = Some art ->
  check_match loc art = true /\
  In art (name ← names; candidates_for t loc name).
Proof.
  induction names as [| name names IH]; [discriminate |].
  cbn [ArticleTables.first_match]. rewrite bind_cons.
  destruct (ArticleTables.find_one_wikipedia_match _ _ _ _ loc name) as [a |] eqn:E.
  - intros [= <-]. apply find_one_sound in E as [Hc Hin]. split; [exact Hc |].
    apply in_or_app. left; exact Hin.
  - intros H. apply IH in H as [Hc Hin]. split; [exact Hc |].
    apply in_or_app. right; exact Hin.
Qed.

Lemma first_match_complete loc names c :
  In c (name ← names; candidates_for t loc name) -> check_match loc c = true ->
  exists art,
    ArticleTables.first_match py_sorted t check_match prefer_match loc names = Some art.
Proof.
  induction names as [| name names IH]; [intros [] |].
  rewrite bind_cons. cbn [ArticleTables.first_match]. intros Hin Hc.
  destruct (ArticleTables.find_one_wikipedia_match _ _ _ _ loc name) as [a |] eqn:E;
    [eauto |].
  apply in_app_or in Hin as [Hin | Hin]; [| apply IH; assumption].
  destruct (find_one_complete loc name c Hin Hc) as [art Ha]. congruence.
Qed.

End MatchProperties.

Section SortModel.

Lemma insert_desc_permutes cmp x l : Permutation (x :: l) (insert_desc cmp x l).
Proof.
  induction l as [| y l IH]; cbn; [reflexivity |].
  destruct (0 <? cmp x y); [reflexivity |].
  rewrite perm_swap. apply perm_skip, IH.
Qed.

Lemma sorted_desc_permutes cmp l : Permutation l (sorted_desc cmp l).
Proof.
  induction l as [| x l IH]; cbn; [reflexivity |].
  rewrite <- insert_desc_permutes. apply perm_skip, IH.
Qed.

Lemma insert_desc_sorted (key : Article -> R) cmp x l :
  (forall b, In b l -> cmp x b = if Rlt_dec (key x) (key b) then 1 else -1) ->
  StronglySorted (fun a b => (key a <= key b)%R) l ->
  StronglySorted (fun a b => (key a <= key b)%R) (insert_desc cmp x l).
Proof.
  induction l as [| y l IH]; intros Hcmp Hs; cbn [insert_desc].
  - constructor; constructor.
  - apply StronglySorted_inv in Hs as [Hs Hy].
    rewrite (Hcmp y (or_introl eq_refl)).
    destruct (Rlt_dec (key x) (key y)) as [Hlt | Hge]; cbn.
    + constructor; [constructor; assumption |].
      constructor; [lra |].
      eapply Forall_impl; [exact Hy |]. cbn. intros b Hb. lra.
    + constructor.
      * apply IH; [| exact Hs]. intros b Hb. apply Hcmp. right; exact Hb.
      * eapply Permutation_Forall; [apply insert_desc_permutes |].
        constructor; [lra | exact Hy].
Qed.

Lemma sorted_desc_sorted (key : Article -> R) cmp l :
  (forall a b, In a l -> In b l ->
     cmp a b = if Rlt_dec (key a) (key b) then 1 else -1) ->
  StronglySorted (fun a b => (key a <= key b)%R) (sorted_desc cmp l).
Proof.
  induction l as [| x l IH]; intros Hcmp; cbn; [constructor |].
  apply insert_desc_sorted.
  - intros b Hb. apply Hcmp; [left; reflexivity |]. right.
    eapply Permutation_in; [symmetry; apply sorted_desc_permutes | exact Hb].
  - apply IH. intros a b Ha Hb. apply Hcmp; right; assumption.
Qed.

(** Insertion in decreasing order is an instance of [sorted] that puts the
    entry with the smallest key first. *)
Lemma sorted_desc_descending : sorts_descending sorted_desc.
Proof.
  intros key cmp l x rest Hcmp _ Hs y Hy.
  pose proof (sorted_desc_sorted key cmp l Hcmp) as Hsorted.
  rewrite Hs in Hsorted. apply StronglySorted_inv in Hsorted as [_ Hx].
  assert (Hin : In y (x :: rest)).
  { rewrite <- Hs. eapply Permutation_in; [apply sorted_desc_permutes | exact Hy]. }
  destruct Hin as [<- | Hin]; [lra |].
  rewrite Forall_forall in Hx. apply Hx, list_elem_of_In, Hin.
Qed.

End SortModel.

Section RadiiTo80.

Lemma radii_within_80 n :
  Forall (fun x => (IZR x <= 80)%R) (radii 5 n) -> (n <= 5)%nat.
Proof.
  intros H. destruct (le_lt_dec n 5) as [Hle | Hgt]; [exact Hle | exfalso].
  destruct n as [| [| [| [| [| [| n]]]]]]; try lia.
  rewrite !radii_succ in H.
  do 5 (apply Forall_cons in H as [_ H]). apply Forall_cons in H as [H _].
  change (5 * 2 * 2 * 2 * 2 * 2) with 160 in H. lra.
Qed.

Lemma radii_prefix_80 n :
  (n <= 5)%nat -> radii 5 n `prefix_of` [5; 10; 20; 40; 80].
Proof.
  intros H. destruct n as [| [| [| [| [| [| n]]]]]]; try lia;
    eexists; vm_compute; reflexivity.
Qed.

Lemma radii_all_80 n :
  (n <= 5)%nat -> ~ (IZR (5 * 2 ^ Z.of_nat n) <= 80)%R ->
  radii 5 n = [5; 10; 20; 40; 80].
Proof.
  intros H Hnext. destruct n as [| [| [| [| [| [| n]]]]]]; try lia;
    try reflexivity; exfalso; apply Hnext; vm_compute (5 * 2 ^ Z.of_nat _); lra.
Qed.

End RadiiTo80.

Section LocalityMatch.
Variable py_sorted : (Article -> Article -> Z) -> list Article -> list Article.
Hypothesis py_sorted_permutes : forall cmp l, Permutation l (py_sorted cmp l).
Variable M : MathModule.
Variable t : ArticleTable.
Variable loc : Locality.

Lemma check_match_locality_true maxdist a :
  ArticleTables.check_match_locality M maxdist loc a = true <->
  (miles_to M loc a <= maxdist)%R.
Proof.
  unfold ArticleTables.check_match_locality, miles_to.
  destruct (Rle_dec _ maxdist); split; auto; discriminate.
Qed.

Lemma find_match_for_locality_sound maxdist art :
  ArticleTables.find_match_for_locality py_sorted M t loc maxdist = Some art ->
  (miles_to M loc art <= maxdist)%R /\ In art (candidates t loc).
Proof.
  unfold ArticleTables.find_match_for_locality, ArticleTables.find_wikipedia_match.
  intros H. apply first_match_sound in H as [Hc Hin]; [| exact py_sorted_permutes].
  split; [apply check_match_locality_true, Hc | exact Hin].
Qed.

Lemma find_match_for_locality_complete maxdist c :
  In c (candidates t loc) -> (miles_to M loc c <= maxdist)%R ->
  exists art,
    ArticleTables.find_match_for_locality py_sorted M t loc maxdist = Some art.
Proof.
  unfold ArticleTables.find_match_for_locality, ArticleTables.find_wikipedia_match.
  intros Hin Hd. eapply first_match_complete; [exact py_sorted_permutes | exact Hin |].
  apply check_match_locality_true, Hd.
Qed.

Lemma check_match_locality_false maxdist a :
  ArticleTables.check_match_locality M maxdist loc a = false ->
  (maxdist < miles_to M loc a)%R.
Proof.
  unfold ArticleTables.check_match_locality, miles_to.
  destruct (Rle_dec _ maxdist); [discriminate | intros _; lra].
Qed.

Lemma find_first_within d l art :
  List.find (ArticleTables.check_match_locality M d loc) l = Some art ->
  first_within M loc d l art.
Proof.
  induction l as [| x l IH]; cbn [List.find]; [discriminate |].
  destruct (ArticleTables.check_match_locality M d loc x) eqn:Ex.
  - intros [= <-]. exists [], l. split; [reflexivity |].
    split; [apply check_match_locality_true, Ex | intros a []].
  - intros H. destruct (IH H) as (l1 & l2 & -> & Hart & Hnone).
    exists (x :: l1), l2. split; [reflexivity |]. split; [exact Hart |].
    intros a [<- | Ha]; [apply check_match_locality_false, Ex | apply Hnone, Ha].
Qed.

Lemma find_none_within d l :
  List.find (ArticleTables.check_match_locality M d loc) l = None ->
  none_within M loc d l.
Proof.
  intros H a Ha. apply check_match_locality_false. exact (find_none _ _ H a Ha).
Qed.

(** The choice of [find_one_wikipedia_match] among the candidates of a
    locality under one name, with the two local functions of
    [find_match_for_locality]. *)
Lemma find_one_chosen d name art :
  ArticleTables.find_one_wikipedia_match py_sorted t
    (ArticleTables.check_match_locality M d) (ArticleTables.prefer_match_locality M)
    loc name = Some art ->
  chosen_under py_sorted M t loc d name art.
Proof.
  unfold ArticleTables.find_one_wikipedia_match, chosen_under.
  destruct (List.find _ (ArticleTables.same_name_articles t name)) as [a |] eqn:E1.
  { intros [= <-]. left. apply find_first_within, E1. }
  apply find_none_within in E1.
  destruct (List.find _ (ArticleTables.name_div_articles t loc name)) as [a |] eqn:E2.
  { intros [= <-]. right. left. split; [exact E1 | apply find_first_within, E2]. }
  apply find_none_within in E2.
  intros H. right. right. split; [exact E1 |]. split; [exact E2 |].
  unfold within.
  set (good := List.filter (ArticleTables.check_match_locality M d loc)
                 (ArticleTables.short_name_articles t name)) in *.
  assert (Hgood : forall a, In a good <->
            In a (ArticleTables.short_name_articles t name) /\
            (miles_to M loc a <= d)%R).
  { intros a. unfold good. rewrite filter_In, check_match_locality_true. tauto. }
  destruct good as [| a [| b l]] eqn:Eg.
  - discriminate H.
  - injection H as <-. destruct (proj1 (Hgood a) (or_introl eq_refl)) as [Hin Hd].
    split; [exact Hin |]. split; [exact Hd |].
    intros _ _ c Hc Hdc. destruct (proj2 (Hgood c) (conj Hc Hdc)) as [<- | []]. lra.
  - set (cmp := fun x y : Article =>
                  if ArticleTables.prefer_match_locality M loc x y then 1 else -1)
      in *.
    destruct (py_sorted cmp (a :: b :: l)) as [| x rest] eqn:Es; [discriminate H |].
    injection H as ->.
    assert (Hart : In art (a :: b :: l)).
    { eapply Permutation_in; [symmetry; apply py_sorted_permutes |].
      rewrite Es. left; reflexivity. }
    destruct (proj1 (Hgood art) Hart) as [Hin Hd].
    split; [exact Hin |]. split; [exact Hd |].
    intros Hsort Hnodup c Hc Hdc.
    apply (Hsort (miles_to M loc) cmp (a :: b :: l) art rest);
      [| exact Hnodup | exact Es | apply Hgood; split; assumption].
    intros u v _ _. unfold cmp, ArticleTables.prefer_match_locality, miles_to.
    destruct (Rlt_dec _ _); reflexivity.
Qed.

Lemma first_match_chosen d names : forall art,
  ArticleTables.first_match py_sorted t (ArticleTables.check_match_locality M d)
    (ArticleTables.prefer_match_locality M) loc names = Some art ->
  exists before name after,
    names = before ++ name :: after /\
    (forall n, In n before -> none_within M loc d (candidates_for t loc n)) /\
    chosen_under py_sorted M t loc d name art.
Proof.
  induction names as [| name names IH]; intros art; [discriminate |].
  cbn [ArticleTables.first_match].
  destruct (ArticleTables.find_one_wikipedia_match _ _ _ _ loc name) as [a |] eqn:E.
  - intros [= <-]. exists [], name, names. split; [reflexivity |].
    split; [intros n [] | apply find_one_chosen, E].
  - intros H. destruct (IH art H) as (before & name' & after & -> & Hbefore & Hch).
    exists (name :: before), name', after. split; [reflexivity |].
    split; [| exact Hch].
    intros n [<- | Hn]; [| apply Hbefore, Hn].
    intros c Hc. destruct (Rle_dec (miles_to M loc c) d) as [Hle | Hgt]; [| lra].
    exfalso. apply check_match_locality_true in Hle.
    destruct (find_one_complete py_sorted py_sorted_permutes t _
                (ArticleTables.prefer_match_locality M) loc name c Hc Hle) as [x Hx].
    congruence.
Qed.

Lemma find_match_for_locality_chosen d art :
  ArticleTables.find_match_for_locality py_sorted M t loc d = Some art ->
  chosen_at py_sorted M t loc d art.
Proof.
  unfold ArticleTables.find_match_for_locality, ArticleTables.find_wikipedia_match.
  apply first_match_chosen.
Qed.

End LocalityMatch.

Section RingSearch.
Variable py_sorted : (Article -> Article -> Z) -> list Article -> list Article.
Variable M : MathModule.
Variable G : Globals.
Variable t : ArticleTable.
Variable loc : Locality.

(** C6, amended.  With [sorted] returning a permutation of its argument and
    [max_dist_for_close_match] at least 5, the matching loop of
    [match_world_gazetteer_entry] returns.  The radii tried are 5, 10, 20, ...
    in order, each within the limit (with the default limit of 80 they are
    an initial part of 5, 10, 20, 40, 80, and all five when nothing matches);
    no radius before the last one tried yields a match, and the match is the
    one found at the last radius tried, an article among the candidates
    within that radius.  Consequently, when some candidate is within 5 miles
    the only radius tried is 5 and the article matched is within 5 miles: no
    candidate beyond the ring is chosen.  Among the candidates within the
    radius the article is chosen by the name it is filed under and not by
    its distance: under the first name of the locality that has a candidate
    within the radius, it is the first article with the same lowercased
    name, else the first one under the name and a division of the locality,
    else one with that short name, the nearest of them when [sorted] puts
    the most preferred first and their distances differ.  A candidate that
    is the only one within 5 miles is the match. *)
Theorem ring_search_first_ring_wins :
  (forall cmp l, Permutation l (py_sorted cmp l)) ->
  (5 <= max_dist_for_close_match (Opts G))%R ->
  let limit := max_dist_for_close_match (Opts G) in
  let find := ArticleTables.find_match_for_locality py_sorted M t loc in
  exists tried outcome,
    WorldGazetteer.match_locality py_sorted M G t loc = Some (tried, outcome) /\
    (exists n, tried = radii 5 (S n)) /\
    Forall (fun x => (IZR x <= limit)%R) tried /\
    (limit = 80%R -> tried `prefix_of` [5; 10; 20; 40; 80]) /\
    match outcome with
    | WorldGazetteer.Matched art =>
        exists init final,
          tried = init ++ [final] /\
          Forall (fun x => find (IZR x) = None) init /\
          find (IZR final) = Some art /\
          (miles_to M loc art <= IZR final)%R /\
          In art (candidates t loc) /\
          chosen_at py_sorted M t loc (IZR final) art
    | WorldGazetteer.Unmatched =>
        Forall (fun x => find (IZR x) = None) tried /\
        (limit = 80%R -> tried = [5; 10; 20; 40; 80])
    | WorldGazetteer.Unbound => False
    end /\
    ((exists c, In c (candidates t loc) /\ (miles_to M loc c <= 5)%R) ->
     tried = [5] /\
     exists art, outcome = WorldGazetteer.Matched art /\
                 (miles_to M loc art <= 5)%R /\ In art (candidates t loc) /\
                 chosen_at py_sorted M t loc 5 art) /\
    (forall c, In c (candidates t loc) -> (miles_to M loc c <= 5)%R ->
       (forall a, In a (candidates t loc) -> (miles_to M loc a <= 5)%R -> a = c) ->
       tried = [5] /\ outcome = WorldGazetteer.Matched c).
Proof.
  intros Hperm Hlimit limit find.
  unfold WorldGazetteer.match_locality, WorldGazetteer.ring_search.
  fold limit. fold find.
  destruct (ring_loop_returns find limit (Z.to_nat (up limit)) 5) as [[tried r] El];
    [lia | |].
  { destruct (archimed limit) as [Hup _].
    eapply Rlt_le_trans; [exact Hup |]. apply IZR_le. lia. }
  unfold WorldGazetteer.ring_fuel. rewrite El.
  destruct (ring_loop_first_hit find limit _ _ _ _ El) as (Hradii & Hall & Hr).
  assert (Hfirst : exists n, length tried = S n).
  { destruct tried as [| x tried']; [| cbn; eauto]. exfalso.
    destruct r as [art |].
    - destruct Hr as (init & final & Hnil & _). destruct init; discriminate Hnil.
    - destruct Hr as [_ Hnext]. apply Hnext. cbn. exact Hlimit. }
  destruct Hfirst as [n Hn].
  assert (H80 : limit = 80%R -> (length tried <= 5)%nat).
  { intros E80. apply radii_within_80. rewrite <- Hradii, <- E80. exact Hall. }
  assert (Hcases :
    exists outcome,
      match tried with
      | [] => Some ([], WorldGazetteer.Unbound)
      | _ :: _ =>
          match r with
          | Some art => Some (tried, WorldGazetteer.Matched art)
          | None => Some (tried, WorldGazetteer.Unmatched)
          end
      end = Some (tried, outcome) /\
      outcome = match r with
                | Some art => WorldGazetteer.Matched art
                | None => WorldGazetteer.Unmatched
                end).
  { destruct tried as [| x tried']; [discriminate Hn |]. destruct r; eauto. }
  destruct Hcases as (outcome & Eout & Hout).
  exists tried, outcome.
  split; [destruct tried as [| x tried']; [discriminate Hn | destruct r; exact Eout] |].
  split; [exists n; rewrite <- Hn; exact Hradii |].
  split; [exact Hall |].
  split; [intros E80; rewrite Hradii; apply radii_prefix_80, H80, E80 |].
  split.
  - subst outcome. destruct r as [art |].
    + destruct Hr as (init & final & Htried & Hinit & Hfinal).
      exists init, final. do 3 (split; [assumption |]).
      destruct (find_match_for_locality_sound py_sorted Hperm M t loc _ _ Hfinal)
        as [Hd Hin].
      split; [exact Hd |]. split; [exact Hin |].
      apply (find_match_for_locality_chosen py_sorted Hperm M t loc), Hfinal.
    + destruct Hr as [Hnone Hnext]. split; [exact Hnone |].
      intros E80. rewrite Hradii. apply radii_all_80; [apply H80, E80 |].
      rewrite <- E80. exact Hnext.
  - assert (Hring5 : forall c, In c (candidates t loc) -> (miles_to M loc c <= 5)%R ->
              tried = [5] /\
              exists art, outcome = WorldGazetteer.Matched art /\
                          (miles_to M loc art <= 5)%R /\ In art (candidates t loc) /\
                          chosen_at py_sorted M t loc 5 art).
    { intros c Hc Hd.
      destruct (find_match_for_locality_complete py_sorted Hperm M t loc 5 c Hc Hd)
        as [art Hart].
      fold find in Hart.
      assert (Htried : tried = [5] /\ r = Some art).
      { rewrite ring_loop_S in El.
        destruct (Rle_dec (IZR 5) limit) as [_ | Hn5]; [| contradiction].
        rewrite Hart in El. injection El as <- <-. split; reflexivity. }
      destruct Htried as [-> ->]. split; [reflexivity |].
      exists art. split; [exact Hout |].
      destruct (find_match_for_locality_sound py_sorted Hperm M t loc _ _ Hart)
        as [Hdart Hinart].
      split; [exact Hdart |]. split; [exact Hinart |].
      apply (find_match_for_locality_chosen py_sorted Hperm M t loc), Hart. }
    split.
    + intros (c & Hc & Hd). apply (Hring5 c Hc Hd).
    + intros c Hc Hd Honly.
      destruct (Hring5 c Hc Hd) as [Htried (art & Hart & Hdart & Hinart & _)].
      split; [exact Htried |]. rewrite Hart. f_equal. apply Honly; assumption.
Qed.

End RingSearch.

Section RingSearchExample.
#[local] Open Scope R_scope.

(** Two coordinates on a meridian, the second to the north: the distance is
    the difference of the latitudes, in radians, times the radius. *)
Lemma spheredist_same_meridian a c lg :
  0 <= (c - a) / 180 * PI <= PI ->
  Coords.spheredist exact_math (Some {| lat := a; long := lg |})
    (Some {| lat := c; long := lg |})
  = earth_radius_in_miles * ((c - a) / 180 * PI).
Proof.
  intros Hrange.
  assert (E : Coords.anglecos exact_math {| lat := a; long := lg |}
                {| lat := c; long := lg |} = cos ((c - a) / 180 * PI)).
  { unfold Coords.anglecos. cbn [lat long m_sin m_cos m_pi exact_math].
    replace (lg / 180 * PI - lg / 180 * PI) with 0 by ring. rewrite cos_0.
    replace ((c - a) / 180 * PI) with (c / 180 * PI - a / 180 * PI) by field.
    rewrite cos_minus. ring. }
  rewrite spheredist_in_range; rewrite E.
  - cbn [m_acos exact_math]. rewrite acos_cos by exact Hrange. reflexivity.
  - apply Rabs_le. pose proof (COS_bound ((c - a) / 180 * PI)). lra.
Qed.

Lemma town_north_distance :
  0 < Coords.spheredist exact_math (Some town_centre) (Some town_north) <= 5.
Proof.
  unfold town_centre, town_north.
  pose proof PI_RGT_0 as Hpos. pose proof PI_4 as H4.
  rewrite spheredist_same_meridian by lra.
  unfold earth_radius_in_miles. lra.
Qed.

Lemma trenton_candidates :
  ArticleTables.same_name_articles trenton_table "Trenton" = [trenton_north] /\
  candidates trenton_table trenton
  = [trenton_north; trenton_north; trenton_centre; trenton_centre].
Proof. split; vm_compute; reflexivity. Qed.

(** C6, as stated, fails: a farther candidate is chosen over a nearer one.
    The article under the alternate name is at the coordinate of the
    locality, and the article matched is the one under the canonical name,
    a twentieth of a degree to the north of it; both are within the first
    ring. *)
Lemma ring_search_chooses_farther_candidate :
  In trenton_centre (candidates trenton_table trenton) /\
  miles_to exact_math trenton trenton_centre = 0 /\
  0 < miles_to exact_math trenton trenton_north <= 5 /\
  WorldGazetteer.match_locality sorted_desc exact_math (globals_2deg 1)
    trenton_table trenton
  = Some ([5%Z], WorldGazetteer.Matched trenton_north).
Proof.
  destruct trenton_candidates as [Hsame Hcand].
  split; [rewrite Hcand; cbn; auto |].
  split; [apply spheredist_exact_same |].
  split; [exact town_north_distance |].
  unfold WorldGazetteer.match_locality. apply ring_search_first_ring.
  - cbn. lra.
  - unfold ArticleTables.find_match_for_locality, ArticleTables.find_wikipedia_match.
    cbn [loc_name trenton ArticleTables.first_match].
    unfold ArticleTables.find_one_wikipedia_match. rewrite Hsame.
    cbn [List.find].
    rewrite (proj2 (check_match_locality_true exact_math trenton 5 trenton_north));
      [reflexivity |].
    apply town_north_distance.
Qed.

Lemma hamilton_candidates :
  ArticleTables.same_name_articles hamilton_table "Hamilton" = [] /\
  ArticleTables.short_name_articles hamilton_table "Hamilton"
  = [hamilton_north; hamilton_centre] /\
  candidates hamilton_table hamilton = [hamilton_north; hamilton_centre].
Proof. repeat split; vm_compute; reflexivity. Qed.

(** Of two articles that share the name of the locality as their short form
    the nearer one is matched, though it was recorded second. *)
Lemma ring_search_first_ring_wins_witness :
  WorldGazetteer.match_locality sorted_desc exact_math (globals_2deg 1)
    hamilton_table hamilton
  = Some ([5%Z], WorldGazetteer.Matched hamilton_centre).
Proof.
  assert (Hlimit : 5 <= max_dist_for_close_match (Opts (globals_2deg 1)))
    by (cbn; lra).
  destruct hamilton_candidates as (Hsame & Hshort & Hcand).
  pose proof town_north_distance as Hnorth.
  assert (Hcentre : miles_to exact_math hamilton hamilton_centre = 0)
    by apply spheredist_exact_same.
  assert (Hfar : miles_to exact_math hamilton hamilton_north
                 = Coords.spheredist exact_math (Some town_centre) (Some town_north))
    by reflexivity.
  destruct (ring_search_first_ring_wins sorted_desc exact_math (globals_2deg 1)
              hamilton_table hamilton sorted_desc_permutes Hlimit)
    as (tried & outcome & E & _ & _ & _ & _ & Hfirst & _).
  destruct Hfirst as [-> (art & -> & _ & _ & Hchosen)].
  { exists hamilton_centre. split; [rewrite Hcand; cbn; auto | rewrite Hcentre; lra]. }
  rewrite E. do 3 f_equal.
  destruct Hchosen as (before & name & after & Hnames & _ & Hunder).
  assert (Hname : name = "Hamilton"%string).
  { destruct before as [| n before]; [injection Hnames as <-; reflexivity |].
    injection Hnames as _ Hnames. destruct before; discriminate Hnames. }
  subst name.
  destruct Hunder as [(l1 & l2 & Hl & _) | [(_ & l1 & l2 & Hl & _) | Hunder]].
  - rewrite Hsame in Hl. destruct l1; discriminate Hl.
  - cbn in Hl. destruct l1; discriminate Hl.
  - destruct Hunder as (_ & _ & Hin & _ & Hnearest). rewrite Hshort in Hin, Hnearest.
    assert (Hwithin : within exact_math hamilton 5 [hamilton_north; hamilton_centre]
                      = [hamilton_north; hamilton_centre]).
    { unfold within. cbn [List.filter].
      rewrite (proj2 (check_match_locality_true exact_math hamilton 5 hamilton_north))
        by (rewrite Hfar; lra).
      rewrite (proj2 (check_match_locality_true exact_math hamilton 5 hamilton_centre))
        by (rewrite Hcentre; lra).
      reflexivity. }
    rewrite Hwithin in Hnearest.
    assert (Hle : miles_to exact_math hamilton art
                  <= miles_to exact_math hamilton hamilton_centre).
    { apply (Hnearest sorted_desc_descending).
      - cbn [map]. rewrite Hfar, Hcentre. constructor.
        + intros [H | []]%list_elem_of_In. lra.
        + constructor; [intros []%list_elem_of_In | constructor].
      - right. left. reflexivity.
      - rewrite Hcentre. lra. }
    destruct Hin as [<- | [<- | []]]; [| reflexivity].
    rewrite Hfar, Hcentre in Hle. lra.
Defined.

End RingSearchExample.

Section RecordArticleExample.

Example compute_short_form_comma :
  compute_short_form "tucson, arizona" = ("tucson", Some "arizona").
Proof. reflexivity. Qed.

Example compute_short_form_parenthesis :
  compute_short_form "paris (disambiguation)" = ("paris", None).
Proof. reflexivity. Qed.

Example compute_short_form_plain :
  compute_short_form "paris" = ("paris", None).
Proof. reflexivity. Qed.

(** A redirect "Springfield, OH" to the article "Springfield, Ohio". *)
Lemma record_article_redirect_keeps_splits_witness :
  exists t',
    ArticleTables.record_article ArticleTables.initial "Springfield, OH"
      springfield true = Some t' /\
    name_to_article t' !! "Springfield, OH" = Some springfield /\
    lower_name_to_articles t' !!! "springfield, oh" = [springfield] /\
    short_lower_name_to_articles t' !!! "springfield" = [springfield] /\
    lower_name_div_to_articles t' !!! ("springfield", "oh") = [springfield] /\
    articles_by_split t' = ∅.
Proof.
  destruct (record_article_redirect_keeps_splits ArticleTables.initial
              "Springfield, OH" springfield eq_refl)
    as [(t' & E & Hname & Hlow & Hshort & Hdiv & _ & _ & Hsplit) _].
  exists t'. split; [exact E |]. split; [exact Hname |].
  split; [exact Hlow |]. split; [exact Hshort |].
  split; [| exact Hsplit].
  apply (Hdiv "oh"); [reflexivity | discriminate].
Defined.

End RecordArticleExample.

(** ** The Naive Bayes strategy *)

Section NaiveBayesProperties.
#[local] Open Scope R_scope.
Variable M : MathModule.
Variable G : Globals.
Variable lookup_word : WordDist -> string -> R.
Variable find_regworddist : Article -> WordDist.

(** The method that a call of [compute_score] on a [NaiveBayesStrategy]
    instance runs is the second definition of the class body: the score is
    the adjusted count of incoming links, whatever the context and the
    options. *)
Lemma compute_score_bound_to_second self context art :
  Strategies.NaiveBayesStrategy_compute_score M G lookup_word find_regworddist
    self context art
  = Some (Strategies.get_adjusted_incoming_links art).
Proof.
  unfold Strategies.NaiveBayesStrategy_compute_score, Strategies.class_namespace,
    Strategies.NaiveBayesStrategy_body.
  cbn [fold_left]. rewrite lookup_insert_eq. reflexivity.
Qed.

(** The first definition reads [self.opts] and [self.strategy], which a
    [NaiveBayesStrategy] instance does not have. *)
Lemma compute_score_first_on_strategy ub context art :
  Strategies.compute_score_first M G lookup_word find_regworddist
    (StrategyObject ub) context art = None.
Proof. reflexivity. Qed.

Lemma context_loop_sums o d context : forall acc,
  context_ok G lookup_word o d context ->
  Strategies.context_loop M G lookup_word (naive_bayes_weighting o) (Some d)
    context acc
  = Some (fst acc
          + Strategies.sum_R
              (map (fun '(dist, w) =>
                      Strategies.weight_spec o dist
                      * m_log M (lookup_word d (Strategies.word_of G w))) context),
          snd acc
          + Strategies.sum_R
              (map (fun '(dist, _) => Strategies.weight_spec o dist) context)).
Proof.
  induction context as [| [dist w] context IH]; intros acc Hok.
  - cbn. rewrite !Rplus_0_r. destruct acc; reflexivity.
  - apply Forall_cons in Hok as [[Hw Hp] Hok].
    cbn [Strategies.context_loop]. rewrite Hw.
    fold (Strategies.word_of G w).
    destruct (Rle_dec (lookup_word d (Strategies.word_of G w)) 0); [lra |].
    rewrite IH by exact Hok. unfold Strategies.sum_R.
    cbn [fst snd map fold_right]. f_equal. f_equal; ring.
Qed.

(** On an object that has [opts] and [strategy], the first definition
    computes the score that the specification states. *)
Lemma compute_score_first_is_spec o ub d context art :
  (if String.eqb (naive_bayes_type o) "article" then art_dist art
   else Some (find_regworddist art)) = Some d ->
  context_ok G lookup_word o d context ->
  Strategies.compute_score_first M G lookup_word find_regworddist
    (EvaluatorObject o (StrategyObject ub)) context art
  = Some (Strategies.score_spec M G lookup_word ub o d context art).
Proof.
  intros Hd Hok. unfold Strategies.compute_score_first, Strategies.score_spec.
  cbn [Strategies.get_opts Strategies.get_strategy Strategies.get_use_baseline].
  rewrite Hd.
  destruct (negb ub); [| destruct (String.eqb (naive_bayes_weighting o) "equal")];
    rewrite (context_loop_sums o d context (0, 0) Hok);
    cbn [fst snd]; rewrite !Rplus_0_l;
    destruct (Rlt_dec 0 _); f_equal; ring.
Qed.

End NaiveBayesProperties.

Section NaiveBayesExample.
#[local] Open Scope R_scope.

(** C1 at a failing input: the strategy built by
    [NaiveBayesStrategy(use_baseline=False)], a context of one word of
    probability 0.5 and an article with 120 incoming links.  The call returns
    the link count, 120; the score that the specification states is
    [log 0.5], a negative number. *)
Theorem naive_bayes_score_is_link_count :
  Strategies.NaiveBayesStrategy_compute_score exact_math (globals_2deg 1)
    (fun _ _ => 0.5) (fun _ => WordDists.init)
    (StrategyObject false) [(1%Z, "river")] austin_article = Some 120 /\
  Strategies.score_spec exact_math (globals_2deg 1) (fun _ _ => 0.5)
    false (options_W 1) WordDists.init [(1%Z, "river")] austin_article
  = ln 0.5 /\
  ln 0.5 < 0.
Proof.
  split; [| split].
  - rewrite compute_score_bound_to_second. reflexivity.
  - unfold Strategies.score_spec, Strategies.weight_spec.
    cbn [negb map Strategies.sum_R fold_right naive_bayes_weighting options_W
         String.eqb Ascii.eqb Bool.eqb orb m_log exact_math].
    destruct (Rlt_dec 0 (1 + 0)); [| lra].
    replace (1 + 0) with 1 by ring. field.
  - rewrite <- ln_1. apply ln_increasing; lra.
Qed.

End NaiveBayesExample.

(** * Further properties of the code *)

(** ** Tiling regions and statistical regions of a coordinate *)

Section TilingProperties.
#[local] Open Scope R_scope.
Variable G : Globals.

Lemma floor_div_iff (x d : R) (z : Z) :
  0 < d -> (Coords.floor (x / d) = z <-> IZR z * d <= x < (IZR z + 1) * d).
Proof.
  intros Hd. unfold Coords.floor. split.
  - intros <-. pose proof (Zfloor_bound (x / d)) as [H1 H2].
    split.
    + apply (Rmult_le_compat_r d) in H1; [| lra].
      unfold Rdiv in H1. rewrite Rmult_assoc, Rinv_l, Rmult_1_r in H1 by lra.
      exact H1.
    + apply (Rmult_lt_compat_r d) in H2; [| lra].
      unfold Rdiv in H2. rewrite Rmult_assoc, Rinv_l, Rmult_1_r in H2 by lra.
      exact H2.
  - intros [H1 H2]. apply Zfloor_eq. split.
    + apply (Rmult_le_reg_r d); [lra |].
      unfold Rdiv. rewrite Rmult_assoc, Rinv_l, Rmult_1_r by lra. exact H1.
    + apply (Rmult_lt_reg_r d); [lra |].
      unfold Rdiv. rewrite Rmult_assoc, Rinv_l, Rmult_1_r by lra. exact H2.
Qed.

(** The tiling regions partition the coordinates into half-open squares:
    with regions of a positive size, [coord_to_tiling_region_indices] returns
    [(i, j)] exactly for the coordinates from the corner
    [region_indices_to_coord(i, j)] up to, and not including, the corner
    [region_indices_to_coord(i + 1, j + 1)] on each axis. *)
Theorem tiling_region_is_half_open_square (c : Coord) (i j : Z) :
  0 < degrees_per_region G ->
  (Coords.coord_to_tiling_region_indices G c = (i, j) <->
   lat (Coords.region_indices_to_coord G (IZR i) (IZR j)) <= lat c
     < lat (Coords.region_indices_to_coord G (IZR i + 1) (IZR j + 1)) /\
   long (Coords.region_indices_to_coord G (IZR i) (IZR j)) <= long c
     < long (Coords.region_indices_to_coord G (IZR i + 1) (IZR j + 1))).
Proof.
  intros Hd. unfold Coords.coord_to_tiling_region_indices,
    Coords.region_indices_to_coord. cbn [lat long].
  rewrite <- (floor_div_iff (lat c) _ i Hd), <- (floor_div_iff (long c) _ j Hd).
  split; [intros [= <- <-]; split; reflexivity | intros [-> ->]; reflexivity].
Qed.

(** The statistical region of a coordinate is found back from its centre:
    when the centre of the region [(i, j)] is neither clamped nor wrapped
    and lies half a tiling region inside the minimum latitude and longitude,
    [coord_to_stat_region_indices] of the centre is [(i, j)]. *)
Theorem stat_region_of_center_coord (i j : Z) :
  0 < degrees_per_region G ->
  let W := IZR (width_of_stat_region (Opts G)) in
  (IZR i + W / 2) * degrees_per_region G <= maximum_latitude ->
  (IZR j + W / 2) * degrees_per_region G <= maximum_longitude ->
  minimum_latitude <= (IZR i + 1 / 2) * degrees_per_region G ->
  minimum_longitude <= (IZR j + 1 / 2) * degrees_per_region G ->
  Coords.coord_to_stat_region_indices G
    (Coords.stat_region_indices_to_center_coord G i j) = (i, j).
Proof.
  intros Hd W Hlat Hlong Hlat0 Hlong0. subst W.
  unfold Coords.stat_region_indices_to_center_coord, Coords.region_indices_to_coord.
  cbn [lat long].
  destruct (Rlt_dec maximum_latitude _) as [Hc | _]; [lra |].
  destruct (Rlt_dec maximum_longitude _) as [Hc | _]; [lra |].
  unfold Coords.coord_to_stat_region_indices. cbn [lat long].
  destruct (Rlt_dec _ minimum_latitude) as [Hc | _]; [lra |].
  destruct (Rlt_dec _ minimum_longitude) as [Hc | _]; [lra |].
  unfold Coords.coord_to_tiling_region_indices. cbn [lat long].
  f_equal; apply floor_div_iff; try exact Hd; nra.
Qed.

(** The statistical-region indices of a coordinate are at most [W - 1] tiling
    regions southwest of the coordinate's own tiling region. *)
Lemma stat_indices_bracket_tile (c : Coord) :
  0 < degrees_per_region G ->
  (1 <= width_of_stat_region (Opts G))%Z ->
  minimum_latitude <= lat c ->
  minimum_longitude
  <= long c - (IZR (width_of_stat_region (Opts G)) - 1) / 2 * degrees_per_region G ->
  let s := Coords.coord_to_stat_region_indices G c in
  let t := Coords.coord_to_tiling_region_indices G c in
  (fst s <= fst t < fst s + width_of_stat_region (Opts G) /\
   snd s <= snd t < snd s + width_of_stat_region (Opts G))%Z.
Proof.
  intros Hd HW Hlat Hlong s t. subst s t.
  unfold Coords.coord_to_stat_region_indices.
  set (subval := (IZR (width_of_stat_region (Opts G)) - 1) / 2 * degrees_per_region G)
    in *.
  unfold Coords.coord_to_tiling_region_indices. cbn [lat long fst snd].
  apply IZR_le in HW.
  set (W := IZR (width_of_stat_region (Opts G))) in *.
  set (d := degrees_per_region G) in *.
  destruct (Rlt_dec (long c - subval) minimum_longitude) as [Hc | _]; [lra |].
  assert (Hsteps : forall x y : R, x - (W - 1) / 2 * d <= y <= x ->
            (Coords.floor (y / d) <= Coords.floor (x / d)
             < Coords.floor (y / d) + width_of_stat_region (Opts G))%Z).
  { intros x y [Hy1 Hy2].
    destruct (proj1 (floor_div_iff x d _ Hd) eq_refl) as [Hx1 Hx2].
    destruct (proj1 (floor_div_iff y d _ Hd) eq_refl) as [Hz1 Hz2].
    split.
    - apply Z.lt_succ_r, lt_IZR. rewrite succ_IZR.
      remember (IZR (Coords.floor (x / d))) as a.
      remember (IZR (Coords.floor (y / d))) as b.
      clear - Hd Hy2 Hx2 Hz1. clearbody d. nra.
    - apply lt_IZR. rewrite plus_IZR. fold W.
      remember (IZR (Coords.floor (x / d))) as a.
      remember (IZR (Coords.floor (y / d))) as b.
      clear - Hd HW Hy1 Hx1 Hz2. clearbody d W.
      apply Rnot_le_lt. intros Hge.
      assert (H1 : 0 <= (a - b - W) * d) by (apply Rmult_le_pos; lra).
      assert (H2 : 0 <= (W - 1) * d) by (apply Rmult_le_pos; lra).
      nra. }
  assert (Hsub : 0 <= subval).
  { unfold subval. apply Rmult_le_pos; lra. }
  split.
  - destruct (Rlt_dec (lat c - subval) minimum_latitude) as [Hc | Hc];
      apply Hsteps; fold subval; lra.
  - apply Hsteps. fold subval. lra.
Qed.

Lemma tile_of_coord_scanned (c : Coord) :
  0 < degrees_per_region G ->
  (1 <= width_of_stat_region (Opts G))%Z ->
  minimum_latitude <= lat c ->
  minimum_longitude
  <= long c - (IZR (width_of_stat_region (Opts G)) - 1) / 2 * degrees_per_region G ->
  (snd (Coords.coord_to_tiling_region_indices G c) <= maximum_longind G)%Z ->
  Coords.coord_to_tiling_region_indices G c
  ∈ StatRegions.scanned_tiles G (fst (Coords.coord_to_stat_region_indices G c))
      (snd (Coords.coord_to_stat_region_indices G c)).
Proof.
  intros Hd HW Hlat Hlong Hmax.
  destruct (stat_indices_bracket_tile c Hd HW Hlat Hlong) as [H1 H2].
  apply scanned_tiles_elem.
  destruct (Coords.coord_to_tiling_region_indices G c) as [ti tj].
  cbn [fst snd] in *. exists ti, tj.
  destruct (Z.ltb_spec (maximum_longind G) tj); [lia |].
  split; [reflexivity |]. split; assumption.
Qed.

(** The statistical region found for a coordinate covers the coordinate:
    for a width of at least 1 and a coordinate that is not south of the
    minimum latitude and whose longitude is not wrapped, the region's indices
    are at most [W - 1] tiling regions southwest of the coordinate's own
    tiling region, which is therefore one of the tiling regions that
    [generate_dist] scans for the region. *)
Theorem stat_region_scans_tile_of_coord (c : Coord) :
  0 < degrees_per_region G ->
  (1 <= width_of_stat_region (Opts G))%Z ->
  let subval :=
    (IZR (width_of_stat_region (Opts G)) - 1) / 2 * degrees_per_region G in
  minimum_latitude <= lat c ->
  minimum_longitude <= long c - subval ->
  (snd (Coords.coord_to_tiling_region_indices G c) <= maximum_longind G)%Z ->
  let s := Coords.coord_to_stat_region_indices G c in
  let t := Coords.coord_to_tiling_region_indices G c in
  (fst s <= fst t < fst s + width_of_stat_region (Opts G))%Z /\
  (snd s <= snd t < snd s + width_of_stat_region (Opts G))%Z /\
  t ∈ StatRegions.scanned_tiles G (fst s) (snd s).
Proof.
  intros Hd HW subval Hlat Hlong Hmax s t. subst s t subval.
  destruct (stat_indices_bracket_tile c Hd HW Hlat Hlong) as [H1 H2].
  split; [exact H1 |]. split; [exact H2 |].
  apply tile_of_coord_scanned; assumption.
Qed.

End TilingProperties.

Section TilingExamples.
#[local] Open Scope R_scope.

Lemma tiling_region_is_half_open_square_witness :
  Coords.coord_to_tiling_region_indices (globals_2deg 1) somewhere = (5, 5)%Z.
Proof.
  apply (tiling_region_is_half_open_square (globals_2deg 1) somewhere 5 5).
  - cbn. lra.
  - unfold Coords.region_indices_to_coord. cbn. lra.
Defined.

Lemma stat_region_of_center_coord_witness :
  Coords.coord_to_stat_region_indices (globals_2deg 2)
    (Coords.stat_region_indices_to_center_coord (globals_2deg 2) 0 0) = (0, 0)%Z.
Proof.
  apply (stat_region_of_center_coord (globals_2deg 2) 0 0);
    unfold maximum_latitude, maximum_longitude, minimum_latitude,
      minimum_longitude; cbn; lra.
Defined.

Lemma stat_region_scans_tile_of_coord_witness :
  (5, 5)%Z ∈ StatRegions.scanned_tiles (globals_2deg 2) 4 4.
Proof.
  assert (Ht : Coords.coord_to_tiling_region_indices (globals_2deg 2) somewhere
               = (5, 5)%Z).
  { unfold Coords.coord_to_tiling_region_indices. cbn [lat long somewhere].
    f_equal; apply floor_div_iff; cbn; lra. }
  assert (Hs : Coords.coord_to_stat_region_indices (globals_2deg 2) somewhere
               = (4, 4)%Z).
  { unfold Coords.coord_to_stat_region_indices, minimum_latitude,
      minimum_longitude. cbn [lat long somewhere].
    repeat match goal with
           | |- context [Rlt_dec ?a ?b] => destruct (Rlt_dec a b); [cbn in *; lra |]
           end.
    unfold Coords.coord_to_tiling_region_indices. cbn [lat long].
    f_equal; apply floor_div_iff; cbn; lra. }
  pose proof (stat_region_scans_tile_of_coord (globals_2deg 2) somewhere) as H.
  cbv zeta in H. rewrite Ht, Hs in H. apply H.
  - cbn. lra.
  - cbn. lia.
  - unfold minimum_latitude. cbn. lra.
  - unfold minimum_longitude. cbn. lra.
  - cbn. lia.
Defined.

End TilingExamples.

(** ** Great-circle distances *)

Section SpheredistProperties.
#[local] Open Scope R_scope.

(** With the exact trigonometric functions the cosine computed by
    [spheredist] is within [-1, 1]: it lies between [-cos (a + c)] and
    [cos (a - c)] for the two latitudes [a] and [c]. *)
Lemma anglecos_exact_bound p q : -1 <= Coords.anglecos exact_math p q <= 1.
Proof.
  unfold Coords.anglecos. cbn [m_sin m_cos m_pi exact_math].
  set (a := lat p / 180 * PI). set (c := lat q / 180 * PI).
  set (x := cos (long q / 180 * PI - long p / 180 * PI)).
  pose proof (COS_bound (a - c)) as [HP1 HP2].
  pose proof (COS_bound (a + c)) as [HQ1 HQ2].
  pose proof (COS_bound (long q / 180 * PI - long p / 180 * PI)) as [Hx1 Hx2].
  fold x in Hx1, Hx2. rewrite cos_minus in HP1, HP2. rewrite cos_plus in HQ1, HQ2.
  assert (H1 : 0 <= (1 + x) * (1 - (cos a * cos c + sin a * sin c)))
    by (apply Rmult_le_pos; lra).
  assert (H2 : 0 <= (1 - x) * (1 + (cos a * cos c - sin a * sin c)))
    by (apply Rmult_le_pos; lra).
  assert (H3 : 0 <= (1 + x) * (1 + (cos a * cos c + sin a * sin c)))
    by (apply Rmult_le_pos; lra).
  assert (H4 : 0 <= (1 - x) * (1 - (cos a * cos c - sin a * sin c)))
    by (apply Rmult_le_pos; lra).
  split; lra.
Qed.

(** [spheredist] does not depend on the order of its arguments, for every
    [math] module whose cosine is an even function; this includes the case of
    a missing coordinate, where both orders give 1000000. *)
Theorem spheredist_symmetric (M : MathModule) (p q : option Coord) :
  (forall x, m_cos M (- x) = m_cos M x) ->
  Coords.spheredist M p q = Coords.spheredist M q p.
Proof.
  intros Heven. destruct p as [p |], q as [q |]; try reflexivity.
  assert (E : Coords.anglecos M p q = Coords.anglecos M q p).
  { unfold Coords.anglecos.
    replace (long q / 180 * m_pi M - long p / 180 * m_pi M)
      with (- (long p / 180 * m_pi M - long q / 180 * m_pi M)) by ring.
    rewrite Heven. ring. }
  unfold Coords.spheredist. rewrite E. reflexivity.
Qed.

(** With the exact trigonometric functions, [spheredist] of two coordinates
    is a distance between 0 and half the circumference of the earth, and
    neither clamping branch is taken; the value 1000000 is returned exactly
    when a coordinate is missing. *)
Theorem spheredist_exact_range (p q : option Coord) :
  match p, q with
  | Some p', Some q' =>
      Coords.spheredist exact_math p q
      = earth_radius_in_miles * acos (Coords.anglecos exact_math p' q') /\
      0 <= Coords.spheredist exact_math p q <= earth_radius_in_miles * PI
  | _, _ => Coords.spheredist exact_math p q = 1000000
  end /\
  (Coords.spheredist exact_math p q = 1000000 <-> p = None \/ q = None).
Proof.
  assert (Hsome : forall p' q',
            Coords.spheredist exact_math (Some p') (Some q')
            = earth_radius_in_miles * acos (Coords.anglecos exact_math p' q') /\
            0 <= Coords.spheredist exact_math (Some p') (Some q')
              <= earth_radius_in_miles * PI).
  { intros p' q'. pose proof (anglecos_exact_bound p' q') as [H1 H2].
    rewrite spheredist_in_range by (apply Rabs_le; lra).
    cbn [m_acos exact_math]. split; [reflexivity |].
    pose proof (acos_bound (Coords.anglecos exact_math p' q')) as [Ha1 Ha2].
    unfold earth_radius_in_miles. split; nra. }
  destruct p as [p' |], q as [q' |].
  - split; [apply Hsome |]. destruct (Hsome p' q') as [_ [_ Hup]]. split.
    + intros E. rewrite E in Hup. pose proof PI_4.
      unfold earth_radius_in_miles in Hup. lra.
    + intros [Hn | Hn]; discriminate Hn.
  - split; [reflexivity |]. split; [auto | reflexivity].
  - split; [reflexivity |]. split; [auto | reflexivity].
  - split; [reflexivity |]. split; [auto | reflexivity].
Qed.

Lemma spheredist_symmetric_witness :
  Coords.spheredist exact_math (Some {| lat := 30.27; long := -97.74 |})
    (Some somewhere)
  = Coords.spheredist exact_math (Some somewhere)
      (Some {| lat := 30.27; long := -97.74 |}).
Proof. apply (spheredist_symmetric exact_math). exact cos_neg. Defined.

End SpheredistProperties.

(** ** Building and finding statistical regions *)

Section RegionBuilding.
Variable G : Globals.

Lemma generate_dist_scanned tiles i j :
  dists_finished (tile_articles tiles (StatRegions.scanned_tiles G i j)) ->
  StatRegions.generate_dist G tiles (StatRegions.new (Some i) (Some j))
  = Some (region_of_articles i j (region_articles G tiles i j)).
Proof.
  intros Hfin. unfold StatRegions.generate_dist, StatRegions.new.
  cbn [latind longind worddist].
  rewrite process_regions_accumulates; [| reflexivity | exact Hfin].
  reflexivity.
Qed.

(** A lookup that misses before all regions have been computed: the region
    is built from the tiles, allocated, counted, and stored unless it is
    empty and [no_create_empty] is set. *)
Lemma find_region_fresh s i j b :
  tiles_finished s ->
  corner_to_stat_region s !! (i, j) = None ->
  all_regions_computed s = false ->
  let arts := region_articles G (tiling_region_to_articles s) i j in
  let empty := Z.of_nat (length arts) =? 0 in
  exists s',
    StatRegions.find_region_for_region_indices G s i j b
    = Some (s', length (heap s)) /\
    heap s' = heap s ++ [region_of_articles i j arts] /\
    tiling_region_to_articles s' = tiling_region_to_articles s /\
    all_regions_computed s' = false /\
    empty_stat_region s' = empty_stat_region s /\
    corner_to_stat_region s'
    = (if (negb empty || negb b)%bool
       then <[(i, j) := length (heap s)]> (corner_to_stat_region s)
       else corner_to_stat_region s) /\
    num_empty_regions s'
    = (if empty then num_empty_regions s + 1 else num_empty_regions s) /\
    num_non_empty_regions s'
    = (if empty then num_non_empty_regions s else num_non_empty_regions s + 1).
Proof.
  intros Hfin Hmiss Hall arts empty.
  unfold StatRegions.find_region_for_region_indices. rewrite Hmiss, Hall.
  rewrite generate_dist_scanned by (apply tile_articles_finished, Hfin).
  cbn. eexists. split; [reflexivity |]. cbn. rewrite Hall.
  repeat split; reflexivity.
Qed.

(** A second lookup of the same indices returns the same object and leaves
    the class as it is, when the first one was made with
    [no_create_empty=False]: the region found or built by the first lookup
    is stored (or is the sentinel), and it is not rebuilt. *)
Theorem find_region_again_returns_same_object s i j b s' r :
  StatRegions.find_region_for_region_indices G s i j false = Some (s', r) ->
  StatRegions.find_region_for_region_indices G s' i j b = Some (s', r).
Proof.
  unfold StatRegions.find_region_for_region_indices at 1.
  destruct (corner_to_stat_region s !! (i, j)) as [r0 |] eqn:Ec.
  { intros [= <- <-]. unfold StatRegions.find_region_for_region_indices.
    rewrite Ec. reflexivity. }
  destruct (all_regions_computed s) eqn:Ea.
  - destruct (empty_stat_region s) as [e |] eqn:Ee.
    + intros [= <- <-]. unfold StatRegions.find_region_for_region_indices.
      rewrite Ec, Ea, Ee. reflexivity.
    + cbn. intros [= <- <-]. unfold StatRegions.find_region_for_region_indices.
      cbn. rewrite Ec, Ea. reflexivity.
  - destruct (StatRegions.generate_dist _ _ _) as [statreg |]; [| discriminate].
    cbn. rewrite orb_true_r. intros [= <- <-].
    unfold StatRegions.find_region_for_region_indices. cbn.
    rewrite lookup_insert_eq. reflexivity.
Qed.

Lemma add_article_tiles_finished s a c s1 :
  tiles_finished s ->
  (forall d, art_dist a = Some d -> finished d = true) ->
  art_coord a = Some c ->
  StatRegions.add_article_to_region G s a = Some s1 ->
  tiles_finished s1 /\
  tiling_region_to_articles s1
  = <[Coords.coord_to_tiling_region_indices G c :=
        (tiling_region_to_articles s
           !!! Coords.coord_to_tiling_region_indices G c) ++ [a]]>
      (tiling_region_to_articles s) /\
  corner_to_stat_region s1 = corner_to_stat_region s /\
  all_regions_computed s1 = all_regions_computed s /\
  heap s1 = heap s.
Proof.
  intros Hfin Ha Hc. unfold StatRegions.add_article_to_region. rewrite Hc.
  intros [= <-]. cbn. split; [| repeat split; reflexivity].
  intros k arts Hk. cbn in Hk. rewrite lookup_insert in Hk.
  case_decide as Ek; [| exact (Hfin k arts Hk)].
  injection Hk as <-. intros b d Hb Hd. apply in_app_or in Hb as [Hb | [<- | []]].
  - rewrite lookup_total_alt in Hb.
    destruct (tiling_region_to_articles s !! _) as [old |] eqn:Eo; [| destruct Hb].
    exact (Hfin _ old Eo b d Hb Hd).
  - exact (Ha d Hd).
Qed.

(** An article used for training is in the region of its own coordinate:
    once [add_article_to_region] has filed an article that has a finished
    word distribution and is in the training split, the region that
    [find_region_for_coord] builds for the article's coordinate holds the
    article, is not empty and is stored under the coordinate's
    statistical-region indices.  The coordinate must not be south of the
    minimum latitude, its longitude must not be wrapped, and no region may be
    stored for its indices yet. *)
Theorem region_of_coord_holds_article (s : StatRegionClass) (a : Article)
    (c : Coord) :
  (0 < degrees_per_region G)%R ->
  1 <= width_of_stat_region (Opts G) ->
  art_coord a = Some c ->
  (minimum_latitude <= lat c)%R ->
  (minimum_longitude
   <= long c - (IZR (width_of_stat_region (Opts G)) - 1) / 2 * degrees_per_region G)%R ->
  snd (Coords.coord_to_tiling_region_indices G c) <= maximum_longind G ->
  accepted a = true ->
  (forall d, art_dist a = Some d -> finished d = true) ->
  tiles_finished s ->
  all_regions_computed s = false ->
  corner_to_stat_region s !! Coords.coord_to_stat_region_indices G c = None ->
  exists s1 s2 r reg,
    StatRegions.add_article_to_region G s a = Some s1 /\
    StatRegions.find_region_for_coord G s1 c = Some (s2, r) /\
    corner_to_stat_region s2 !! Coords.coord_to_stat_region_indices G c = Some r /\
    heap s2 !! r = Some reg /\
    In a (articles (worddist reg)) /\
    RegionWordDists.is_empty (worddist reg) = false.
Proof.
  intros Hd HW Hc Hlat Hlong Hmax Hacc Hdist Hfin Hall Hmiss.
  pose proof (tile_of_coord_scanned G c Hd HW Hlat Hlong Hmax) as Hscan.
  destruct (StatRegions.add_article_to_region G s a) as [s1 |] eqn:Eadd;
    [| unfold StatRegions.add_article_to_region in Eadd; rewrite Hc in Eadd;
       discriminate].
  destruct (add_article_tiles_finished s a c s1 Hfin Hdist Hc Eadd)
    as (Hfin1 & Htiles & Hcorner & Hall1 & Hheap).
  unfold StatRegions.find_region_for_coord.
  destruct (Coords.coord_to_stat_region_indices G c) as [i j] eqn:Eij.
  cbn [fst snd] in Hscan.
  destruct (find_region_fresh s1 i j false Hfin1) as (s2 & Ef & Hheap2 & _ & _ & _ & Hc2 & _).
  { rewrite Hcorner. exact Hmiss. }
  { rewrite Hall1. exact Hall. }
  assert (Hin : In a (region_articles G (tiling_region_to_articles s1) i j)).
  { unfold region_articles. apply filter_In. split; [| exact Hacc].
    apply list_elem_of_In. unfold tile_articles. apply list_elem_of_bind.
    exists (Coords.coord_to_tiling_region_indices G c). split; [| exact Hscan].
    rewrite Htiles, lookup_total_insert_eq. apply list_elem_of_In, in_or_app.
    right. left. reflexivity. }
  assert (Hne : (Z.of_nat (length (region_articles G (tiling_region_to_articles s1) i j))
                 =? 0) = false).
  { apply Z.eqb_neq. destruct (region_articles _ _ _ _); [destruct Hin | cbn; lia]. }
  exists s1, s2, (length (heap s1)), (region_of_articles i j
    (region_articles G (tiling_region_to_articles s1) i j)).
  split; [reflexivity |]. split; [exact Ef |].
  split; [rewrite Hc2, Hne; apply lookup_insert_eq |].
  split; [rewrite Hheap2; apply list_lookup_middle; reflexivity |].
  split; [exact Hin |]. exact Hne.
Qed.

End RegionBuilding.

(** ** Generating all regions *)

Section GenerateAll.
Variable G : Globals.

Lemma all_indices_elem i j :
  (i, j) ∈ StatRegions.all_indices G <->
  minimum_latind G <= i <= maximum_latind G /\
  minimum_longind G <= j <= maximum_longind G.
Proof.
  unfold StatRegions.all_indices, StatRegions.range.
  rewrite list_elem_of_bind. split.
  - intros (i' & Hi & Hin). apply list_elem_of_bind in Hi as (j' & Hj & Hjn).
    apply elem_of_seqZ in Hin, Hjn. apply list_elem_of_singleton in Hj.
    injection Hj as -> ->. lia.
  - intros [Hi Hj]. exists i. split; [| apply elem_of_seqZ; lia].
    apply list_elem_of_bind. exists j. split; [| apply elem_of_seqZ; lia].
    apply list_elem_of_singleton. reflexivity.
Qed.

Lemma all_indices_NoDup : NoDup (StatRegions.all_indices G).
Proof.
  unfold StatRegions.all_indices. apply NoDup_bind; [| | apply NoDup_seqZ].
  - intros i1 i2 [i j] _ _ H1 H2.
    apply list_elem_of_bind in H1 as (j1 & H1 & _), H2 as (j2 & H2 & _).
    apply list_elem_of_singleton in H1, H2. congruence.
  - intros i _. apply NoDup_bind; [| | apply NoDup_seqZ].
    + intros j1 j2 y _ _ H1 H2. apply list_elem_of_singleton in H1, H2. congruence.
    + intros j _. apply NoDup_singleton.
Qed.

Lemma region_is_empty_length tiles i j :
  (Z.of_nat (length (region_articles G tiles i j)) =? 0)
  = region_is_empty G tiles (i, j).
Proof.
  unfold region_is_empty. cbn [fst snd].
  destruct (region_articles G tiles i j); reflexivity.
Qed.

(** The loop of [generate_all_nonempty_regions] over index pairs that are
    all different and for none of which a region is stored. *)
Lemma find_all_builds l : NoDup l -> forall s,
  tiles_finished s ->
  all_regions_computed s = false ->
  (forall ij, ij ∈ l -> corner_to_stat_region s !! ij = None) ->
  exists s',
    StatRegions.find_all G s l = Some s' /\
    tiling_region_to_articles s' = tiling_region_to_articles s /\
    all_regions_computed s' = false /\
    heap s `prefix_of` heap s' /\
    (forall ij, ij ∉ l -> corner_to_stat_region s' !! ij = corner_to_stat_region s !! ij) /\
    (forall i j, (i, j) ∈ l ->
       stored_region s' i j
       = if region_is_empty G (tiling_region_to_articles s) (i, j) then None
         else Some (region_of_articles i j
                      (region_articles G (tiling_region_to_articles s) i j))) /\
    num_empty_regions s'
    = num_empty_regions s
      + Z.of_nat (length (List.filter
                            (region_is_empty G (tiling_region_to_articles s)) l)) /\
    num_non_empty_regions s'
    = num_non_empty_regions s
      + Z.of_nat (length (List.filter
                            (fun ij => negb (region_is_empty G
                                               (tiling_region_to_articles s) ij)) l)).
Proof.
  induction 1 as [| [i j] l Hnotin Hnd IH]; intros s Hfin Hall Hmiss.
  - exists s. cbn. rewrite !Z.add_0_r.
    repeat split; try reflexivity; try assumption.
    intros i j Hin. apply elem_of_nil in Hin. contradiction.
  - destruct (find_region_fresh G s i j true Hfin) as
      (s1 & Ef & Hheap1 & Htiles1 & Hall1 & _ & Hcorner1 & Hne1 & Hnn1);
      [apply Hmiss; left | exact Hall |].
    rewrite region_is_empty_length in Hcorner1, Hne1, Hnn1.
    destruct (IH s1) as (s' & Efa & Htiles & Hall' & Hpre & Hout & Hin & Hne & Hnn).
    + intros k arts Hk. rewrite Htiles1 in Hk. exact (Hfin k arts Hk).
    + exact Hall1.
    + intros ij Hij. rewrite Hcorner1.
      assert (Hneq : (i, j) <> ij) by (intros <-; contradiction).
      destruct (negb _ || negb true)%bool;
        [rewrite lookup_insert_ne by exact Hneq |]; apply Hmiss; right; exact Hij.
    + exists s'. cbn [StatRegions.find_all]. rewrite Ef.
      split; [exact Efa |]. split; [congruence |]. split; [exact Hall' |].
      split; [etransitivity; [| exact Hpre]; rewrite Hheap1; apply prefix_app_r;
              reflexivity |].
      rewrite Htiles1 in Hin, Hne, Hnn. split; [| split; [| split]].
      * intros ij Hij. apply not_elem_of_cons in Hij as [Hneq Hij].
        rewrite (Hout ij Hij), Hcorner1.
        destruct (negb _ || negb true)%bool; [| reflexivity].
        apply lookup_insert_ne. congruence.
      * intros i2 j2 Hi2. apply elem_of_cons in Hi2 as [[= -> ->] | Hi2];
          [| apply Hin, Hi2].
        unfold stored_region. rewrite (Hout (i, j) Hnotin), Hcorner1.
        destruct (region_is_empty G (tiling_region_to_articles s) (i, j)); cbn.
        -- rewrite Hmiss by left. reflexivity.
        -- rewrite lookup_insert_eq. cbn.
           apply (prefix_lookup_Some (heap s1)); [| exact Hpre].
           rewrite Hheap1. apply list_lookup_middle. reflexivity.
      * rewrite Hne, Hne1. cbn [List.filter length].
        destruct (region_is_empty G (tiling_region_to_articles s) (i, j));
          cbn [length negb]; lia.
      * rewrite Hnn, Hnn1. cbn [List.filter length].
        destruct (region_is_empty G (tiling_region_to_articles s) (i, j));
          cbn [length negb]; lia.
Qed.

(** [generate_all_nonempty_regions], run while no region is stored yet,
    returns and stores exactly the non-empty regions of the grid: under each
    index pair of the grid whose block of tiles holds an accepted article it
    stores the region built from those articles, and it stores nothing under
    any other index pair; every stored region is non-empty; the two counters
    grow by the numbers of empty and of non-empty regions of the grid. *)
Theorem generate_all_stores_nonempty_regions (s : StatRegionClass) :
  tiles_finished s ->
  all_regions_computed s = false ->
  corner_to_stat_region s = ∅ ->
  let tiles := tiling_region_to_articles s in
  exists s',
    StatRegions.generate_all_nonempty_regions G s = Some s' /\
    all_regions_computed s' = true /\
    tiling_region_to_articles s' = tiles /\
    (forall i j,
       stored_region s' i j
       = if bool_decide ((i, j) ∈ StatRegions.all_indices G)
            && negb (region_is_empty G tiles (i, j))
         then Some (region_of_articles i j (region_articles G tiles i j))
         else None) /\
    (forall i j reg, stored_region s' i j = Some reg ->
       RegionWordDists.is_empty (worddist reg) = false) /\
    num_empty_regions s'
    = num_empty_regions s
      + Z.of_nat (length (List.filter (region_is_empty G tiles)
                            (StatRegions.all_indices G))) /\
    num_non_empty_regions s'
    = num_non_empty_regions s
      + Z.of_nat (length (List.filter (fun ij => negb (region_is_empty G tiles ij))
                            (StatRegions.all_indices G))).
Proof.
  intros Hfin Hall Hempty tiles. subst tiles.
  destruct (find_all_builds (StatRegions.all_indices G) all_indices_NoDup s Hfin Hall)
    as (s1 & Efa & Htiles & _ & _ & Hout & Hin & Hne & Hnn).
  { intros ij _. rewrite Hempty. apply lookup_empty. }
  unfold StatRegions.generate_all_nonempty_regions. rewrite Efa.
  eexists. split; [reflexivity |]. cbn.
  split; [reflexivity |]. split; [exact Htiles |].
  assert (Hstored : forall i j,
            stored_region s1 i j
            = if bool_decide ((i, j) ∈ StatRegions.all_indices G)
                 && negb (region_is_empty G (tiling_region_to_articles s) (i, j))
              then Some (region_of_articles i j
                           (region_articles G (tiling_region_to_articles s) i j))
              else None).
  { intros i j. destruct (bool_decide _) eqn:Eb.
    - apply bool_decide_eq_true_1 in Eb. rewrite (Hin i j Eb).
      destruct (region_is_empty _ _ _); reflexivity.
    - apply bool_decide_eq_false_1 in Eb. unfold stored_region.
      rewrite (Hout (i, j) Eb), Hempty, lookup_empty. reflexivity. }
  split; [exact Hstored |]. split; [| split; [exact Hne | exact Hnn]].
  intros i j reg. change (stored_region s1 i j = Some reg ->
    RegionWordDists.is_empty (worddist reg) = false).
  rewrite Hstored. destruct (bool_decide _ && negb _)%bool eqn:Eb; [| discriminate].
  intros [= <-]. apply andb_true_iff in Eb as [_ Eb].
  unfold RegionWordDists.is_empty, region_of_articles. cbn [worddist num_arts].
  rewrite region_is_empty_length. apply negb_true_iff, Eb.
Qed.

End GenerateAll.

Section RegionBuildingExamples.
#[local] Open Scope R_scope.

Lemma find_region_again_returns_same_object_witness :
  exists s' r,
    StatRegions.find_region_for_region_indices globals_90deg StatRegions.initial
      0 0 false = Some (s', r) /\
    StatRegions.find_region_for_region_indices globals_90deg s' 0 0 true
    = Some (s', r).
Proof.
  destruct (StatRegions.find_region_for_region_indices globals_90deg
              StatRegions.initial 0 0 false) as [[s' r] |] eqn:E.
  - exists s', r. split; [reflexivity |].
    exact (find_region_again_returns_same_object globals_90deg
             StatRegions.initial 0 0 true s' r E).
  - vm_compute in E. discriminate E.
Defined.

Lemma north_pole_finished d : art_dist north_pole = Some d -> finished d = true.
Proof. intros [= <-]. reflexivity. Qed.

Lemma region_of_coord_holds_article_witness :
  exists s1 s2 r reg,
    StatRegions.add_article_to_region (globals_2deg 2) StatRegions.initial
      north_pole = Some s1 /\
    StatRegions.find_region_for_coord (globals_2deg 2) s1
      {| lat := 90; long := 0.5 |} = Some (s2, r) /\
    heap s2 !! r = Some reg /\
    In north_pole (articles (worddist reg)).
Proof.
  destruct (region_of_coord_holds_article (globals_2deg 2) StatRegions.initial
              north_pole {| lat := 90; long := 0.5 |})
    as (s1 & s2 & r & reg & E1 & E2 & _ & Hreg & Hin & _).
  - cbn. lra.
  - cbn. lia.
  - reflexivity.
  - unfold minimum_latitude. cbn. lra.
  - unfold minimum_longitude. cbn. lra.
  - unfold Coords.coord_to_tiling_region_indices. cbn [snd lat long].
    replace (Coords.floor (0.5 / degrees_per_region (globals_2deg 2))) with 0%Z;
      [cbn; lia |].
    symmetry. apply floor_div_iff; cbn; lra.
  - reflexivity.
  - exact north_pole_finished.
  - exact initial_tiles_finished.
  - reflexivity.
  - apply lookup_empty.
  - exists s1, s2, r, reg. auto.
Defined.

Lemma polar_grid_finished : tiles_finished polar_grid.
Proof.
  intros k arts Hk. cbn in Hk. unfold polar_tiles in Hk.
  apply lookup_singleton_Some in Hk as [_ <-].
  intros a d [<- | []]. exact (north_pole_finished d).
Qed.

Lemma generate_all_stores_nonempty_regions_witness :
  exists s',
    StatRegions.generate_all_nonempty_regions (globals_2deg 2) polar_grid
    = Some s' /\
    stored_region s' 44 0 = Some (region_of_articles 44 0 [north_pole]) /\
    stored_region s' 0 0 = None.
Proof.
  destruct (generate_all_stores_nonempty_regions (globals_2deg 2) polar_grid
              polar_grid_finished eq_refl eq_refl)
    as (s' & E & _ & _ & Hstored & _).
  exists s'. split; [exact E |]. split.
  - rewrite Hstored. rewrite bool_decide_eq_true_2
      by (apply all_indices_elem; cbn; lia).
    vm_compute. reflexivity.
  - rewrite Hstored. rewrite bool_decide_eq_true_2
      by (apply all_indices_elem; cbn; lia).
    vm_compute. reflexivity.
Defined.

End RegionBuildingExamples.

(** ** Divisions: boundaries, returned divisions, repeated notes *)

Section BoundaryProperties.
#[local] Open Scope R_scope.

Lemma fold_Rmin_attained l : forall x, In (fold_left Rmin l x) (x :: l).
Proof.
  induction l as [| a l IH]; intros x; cbn [fold_left]; [left; reflexivity |].
  destruct (IH (Rmin x a)) as [E | Hin]; [| right; right; exact Hin].
  rewrite <- E. unfold Rmin. destruct (Rle_dec x a); [left | right; left]; reflexivity.
Qed.

Lemma fold_Rmax_attained l : forall x, In (fold_left Rmax l x) (x :: l).
Proof.
  induction l as [| a l IH]; intros x; cbn [fold_left]; [left; reflexivity |].
  destruct (IH (Rmax x a)) as [E | Hin]; [| right; right; exact Hin].
  rewrite <- E. unfold Rmax. destruct (Rle_dec x a); [right; left | left]; reflexivity.
Qed.

Lemma min_of_attained l m : Divisions.min_of l = Some m -> In m l.
Proof. destruct l as [| x l]; [discriminate |]. intros [= <-]. apply fold_Rmin_attained. Qed.

Lemma max_of_attained l m : Divisions.max_of l = Some m -> In m l.
Proof. destruct l as [| x l]; [discriminate |]. intros [= <-]. apply fold_Rmax_attained. Qed.

(** [compute_boundary] raises for a division without localities (the minimum
    of an empty sequence) and otherwise returns the bounding box of the
    division's localities: every locality is inside it, and each of its four
    sides passes through the coordinate of some locality. *)
Theorem compute_boundary_is_bounding_box (d : Division) :
  (div_locs d = [] -> Divisions.compute_boundary d = None) /\
  (div_locs d <> [] ->
   exists b,
     Divisions.compute_boundary d = Some b /\
     (forall loc, In loc (div_locs d) -> Divisions.contains b (loc_coord loc)) /\
     (exists loc, In loc (div_locs d) /\ lat (loc_coord loc) = lat (botleft b)) /\
     (exists loc, In loc (div_locs d) /\ long (loc_coord loc) = long (botleft b)) /\
     (exists loc, In loc (div_locs d) /\ lat (loc_coord loc) = lat (topright b)) /\
     (exists loc, In loc (div_locs d) /\ long (loc_coord loc) = long (topright b))).
Proof.
  split.
  - intros E. unfold Divisions.compute_boundary, Divisions.goodlocs. rewrite E.
    reflexivity.
  - intros Hne. destruct (div_locs d) as [| loc0 locs] eqn:El; [contradiction |].
    destruct (compute_boundary_encloses d loc0) as (b & Hb & _);
      [rewrite El; left; reflexivity |].
    exists b. split; [exact Hb |]. rewrite <- El. split.
    + intros loc Hin. destruct (compute_boundary_encloses d loc Hin) as (b' & Hb' & Hc).
      congruence.
    + unfold Divisions.compute_boundary, Divisions.goodlocs in Hb.
      destruct (Divisions.min_of (map (fun x => lat (loc_coord x)) (div_locs d)))
        as [m1 |] eqn:E1; [| discriminate].
      destruct (Divisions.min_of (map (fun x => long (loc_coord x)) (div_locs d)))
        as [m2 |] eqn:E2; [| discriminate].
      destruct (Divisions.max_of (map (fun x => lat (loc_coord x)) (div_locs d)))
        as [m3 |] eqn:E3; [| discriminate].
      destruct (Divisions.max_of (map (fun x => long (loc_coord x)) (div_locs d)))
        as [m4 |] eqn:E4; [| discriminate].
      injection Hb as <-. cbn [botleft topright lat long].
      apply min_of_attained, in_map_iff in E1 as (l1 & <- & H1).
      apply min_of_attained, in_map_iff in E2 as (l2 & <- & H2).
      apply max_of_attained, in_map_iff in E3 as (l3 & <- & H3).
      apply max_of_attained, in_map_iff in E4 as (l4 & <- & H4).
      split; [exists l1; auto |]. split; [exists l2; auto |].
      split; [exists l3; auto | exists l4; auto].
Qed.

End BoundaryProperties.

Section NotePointReturn.

Lemma noted_prefix_of path p : noted path p -> p `prefix_of` path.
Proof. intros [H _]. exact H. Qed.

Lemma deepest_noted_snoc l x r :
  deepest_noted l r ->
  deepest_noted (l ++ [x])
    (if String.eqb x EmptyString then r else Some (l ++ [x])).
Proof.
  intros Hr. destruct (String.eqb_spec x EmptyString) as [-> | Hx].
  - destruct r as [p |]; cbn in *.
    + destruct Hr as [Hp Hmax]. split; [apply noted_snoc; left; exact Hp |].
      intros p' Hp'. apply noted_snoc in Hp' as [Hp' | [_ Hc]];
        [apply Hmax, Hp' | contradiction].
    + intros p' Hp'. apply noted_snoc in Hp' as [Hp' | [_ Hc]];
        [exact (Hr p' Hp') | contradiction].
  - cbn. split; [apply noted_snoc; right; auto |].
    intros p' Hp'. apply noted_prefix_of in Hp'. exact Hp'.
Qed.

Lemma note_point_rev_returns_deepest loc rpath : forall t,
  rpath <> [] ->
  exists t' r, Divisions.note_point_rev t loc rpath = Some (t', r) /\
               deepest_noted (rev rpath) r.
Proof.
  induction rpath as [| name rinit IH]; intros t Hne; [contradiction |].
  assert (Hhigher : exists t1 r1,
            match rinit with
            | [] => Some (t, None)
            | _ :: _ => Divisions.note_point_rev t loc rinit
            end = Some (t1, r1) /\ deepest_noted (rev rinit) r1).
  { destruct rinit as [| n2 rinit'].
    - exists t, None. split; [reflexivity |]. intros p'. apply not_noted_nil.
    - apply IH. discriminate. }
  destruct Hhigher as (t1 & r1 & E1 & H1).
  cbn [Divisions.note_point_rev rev]. rewrite E1.
  pose proof (deepest_noted_snoc (rev rinit) name r1 H1) as Hd.
  destruct (String.eqb name EmptyString); [eauto |].
  destruct (path_to_division t1 !! (rev rinit ++ [name])); eauto.
Qed.

(** [note_point_seen_in_division] returns the deepest division of the path:
    the division at the longest prefix whose last element is not empty, or
    [None] when every element of the path is empty. *)
Theorem note_point_returns_deepest_division
    (t : DivisionTables) (loc : Locality) (path : list string) :
  path <> [] ->
  exists t' r,
    Divisions.note_point_seen_in_division t loc path = Some (t', r) /\
    deepest_noted path r.
Proof.
  intros Hne. unfold Divisions.note_point_seen_in_division.
  destruct (note_point_rev_returns_deepest loc (rev path) t) as (t' & r & E & H).
  { intros Hr. apply Hne. rewrite <- (rev_involutive path), Hr. reflexivity. }
  rewrite rev_involutive in H. eauto.
Qed.

Lemma note_point_rev_creates_nothing loc rpath : forall t,
  rpath <> [] ->
  (forall p, noted (rev rpath) p -> is_Some (path_to_division t !! p)) ->
  exists t' r, Divisions.note_point_rev t loc rpath = Some (t', r) /\
    lower_toponym_to_division t' = lower_toponym_to_division t /\
    (forall p, is_Some (path_to_division t' !! p) <-> is_Some (path_to_division t !! p)).
Proof.
  induction rpath as [| name rinit IH]; intros t Hne Hall; [contradiction |].
  assert (Hhigher : exists t1 r1,
            match rinit with
            | [] => Some (t, None)
            | _ :: _ => Divisions.note_point_rev t loc rinit
            end = Some (t1, r1) /\
            lower_toponym_to_division t1 = lower_toponym_to_division t /\
            (forall p, is_Some (path_to_division t1 !! p)
                       <-> is_Some (path_to_division t !! p))).
  { destruct rinit as [| n2 rinit'].
    - exists t, None. split; [reflexivity |]. split; [reflexivity |]. reflexivity.
    - apply IH; [discriminate |]. intros p Hp. apply Hall.
      cbn [rev]. apply noted_snoc. left; exact Hp. }
  destruct Hhigher as (t1 & r1 & E1 & Hidx & Hkeys).
  cbn [Divisions.note_point_rev rev]. rewrite E1.
  destruct (String.eqb_spec name EmptyString) as [-> | Hname]; [eauto |].
  assert (Hhere : is_Some (path_to_division t1 !! (rev rinit ++ [name]))).
  { apply Hkeys, Hall. cbn [rev]. apply noted_snoc. right. auto. }
  destruct Hhere as [d0 Ed]. rewrite Ed.
  eexists _, _. split; [reflexivity |]. cbn. split; [exact Hidx |].
  intros p. rewrite lookup_insert. case_decide as Ep; [| apply Hkeys].
  subst p. split; [intros _; apply Hkeys; eauto | eauto].
Qed.

(** Noting a second locality on the same path creates no division: after one
    call for [path], another call for [path] returns the same division and
    leaves the toponym index and the set of division paths as they are (only
    the lists of localities grow). *)
Theorem note_point_again_creates_no_division
    (t t1 : DivisionTables) (loc loc2 : Locality) (path : list string)
    (r1 : option (list string)) :
  Divisions.note_point_seen_in_division t loc path = Some (t1, r1) ->
  exists t2,
    Divisions.note_point_seen_in_division t1 loc2 path = Some (t2, r1) /\
    lower_toponym_to_division t2 = lower_toponym_to_division t1 /\
    (forall p, is_Some (path_to_division t2 !! p)
               <-> is_Some (path_to_division t1 !! p)).
Proof.
  intros E. assert (Hne : path <> []).
  { intros ->. discriminate E. }
  assert (Hrne : rev path <> []).
  { intros Hr. apply Hne. rewrite <- (rev_involutive path), Hr. reflexivity. }
  unfold Divisions.note_point_seen_in_division in *.
  destruct (note_point_rev_noted loc (rev path) t Hrne) as (t1' & r1' & E' & Hnoted).
  rewrite E in E'. injection E' as <- <-. rewrite rev_involutive in Hnoted.
  destruct (note_point_rev_creates_nothing loc2 (rev path) t1 Hrne)
    as (t2 & r2 & E2 & Hidx & Hkeys).
  { rewrite rev_involutive. intros p Hp. destruct (Hnoted p) as [Hyes _].
    destruct (Hyes Hp) as (d & Hd & _). eauto. }
  destruct (note_point_rev_returns_deepest loc (rev path) t Hrne) as (ta & ra & Ea & Ha).
  destruct (note_point_rev_returns_deepest loc2 (rev path) t1 Hrne) as (tb & rb & Eb & Hb).
  rewrite E in Ea. injection Ea as <- <-. rewrite E2 in Eb. injection Eb as <- <-.
  exists t2. split; [| split; assumption]. rewrite E2. do 2 f_equal.
  rewrite rev_involutive in Ha, Hb.
  destruct r1 as [p1 |], r2 as [p2 |]; cbn in Ha, Hb.
  - destruct Ha as [Ha1 Ha2], Hb as [Hb1 Hb2]. f_equal.
    apply (anti_symm prefix); auto.
  - destruct Ha as [Ha1 _]. destruct (Hb p1 Ha1).
  - destruct Hb as [Hb1 _]. destruct (Ha p2 Hb1).
  - reflexivity.
Qed.

End NotePointReturn.

Section NotePointReturnExamples.
#[local] Open Scope R_scope.

Lemma note_point_returns_deepest_division_witness :
  snd <$> Divisions.note_point_seen_in_division no_divisions austin austin_path
  = Some (Some ["United States"; "Texas"]).
Proof.
  destruct (note_point_returns_deepest_division no_divisions austin austin_path)
    as (t' & r & E & H); [discriminate |].
  rewrite E. cbn. vm_compute in E. injection E as _ <-. reflexivity.
Defined.

Lemma note_point_again_creates_no_division_witness :
  exists t1 t2 r,
    Divisions.note_point_seen_in_division no_divisions austin austin_path
    = Some (t1, r) /\
    Divisions.note_point_seen_in_division t1 austin austin_path = Some (t2, r) /\
    lower_toponym_to_division t2 = lower_toponym_to_division t1.
Proof.
  destruct (Divisions.note_point_seen_in_division no_divisions austin austin_path)
    as [[t1 r] |] eqn:E.
  - destruct (note_point_again_creates_no_division no_divisions t1 austin austin
                austin_path r E) as (t2 & E2 & Hidx & _).
    exists t1, t2, r. auto.
  - vm_compute in E. discriminate E.
Defined.

End NotePointReturnExamples.

(** ** Short forms of article names *)

Section ShortForm.

Lemma append_cons c a b : String c a +:+ b = String c (a +:+ b).
Proof. reflexivity. Qed.

Lemma append_nil b : EmptyString +:+ b = b.
Proof. reflexivity. Qed.

Lemma prefix_append sep r : String.prefix sep (sep +:+ r) = true.
Proof.
  induction sep as [| c sep IH]; [destruct r; reflexivity |].
  rewrite append_cons. simpl. destruct (ascii_dec c c); [exact IH | contradiction].
Qed.

Lemma prefix_drop sep : forall s,
  String.prefix sep s = true -> s = sep +:+ Str.drop (String.length sep) s.
Proof.
  induction sep as [| c sep IH]; intros s H; [reflexivity |].
  destruct s as [| d s]; [discriminate H |]. simpl in H.
  destruct (ascii_dec c d) as [<- | _]; [| discriminate].
  rewrite append_cons. cbn [String.length Str.drop]. f_equal. apply IH, H.
Qed.

Lemma not_prefix_no_head sep s b :
  String.prefix sep s = false -> s <> sep +:+ b.
Proof. intros Hp E. rewrite E, prefix_append in Hp. discriminate. Qed.

Lemma split_first_Some sep s : forall a b,
  Str.split_first sep s = Some (a, b) ->
  s = a +:+ sep +:+ b /\
  forall a' b', s = a' +:+ sep +:+ b' -> (String.length a <= String.length a')%nat.
Proof.
  induction s as [| c s IH]; intros a b; cbn [Str.split_first].
  - destruct (String.prefix sep EmptyString) eqn:Ep; [| discriminate].
    intros [= <- <-]. split; [apply (prefix_drop sep _ Ep) | intros; cbn; lia].
  - destruct (String.prefix sep (String c s)) eqn:Ep.
    + intros [= <- <-]. split; [apply (prefix_drop sep _ Ep) | intros; cbn; lia].
    + destruct (Str.split_first sep s) as [[a0 b0] |] eqn:Es; [| discriminate].
      intros [= <- <-]. destruct (IH a0 b0 eq_refl) as [E Hmin]. split.
      * rewrite append_cons. f_equal. exact E.
      * intros a' b' E'. destruct a' as [| c' a'].
        -- rewrite append_nil in E'. destruct (not_prefix_no_head _ _ _ Ep E').
        -- rewrite append_cons in E'. injection E' as _ E'.
           cbn [String.length]. apply le_n_S, (Hmin a' b' E').
Qed.

Lemma split_first_None sep s :
  Str.split_first sep s = None -> forall a b, s <> a +:+ sep +:+ b.
Proof.
  induction s as [| c s IH]; cbn [Str.split_first].
  - destruct (String.prefix sep EmptyString) eqn:Ep; [discriminate |].
    intros _ a b E. destruct a as [| c' a]; [| rewrite append_cons in E; discriminate].
    rewrite append_nil in E. exact (not_prefix_no_head _ _ _ Ep E).
  - destruct (String.prefix sep (String c s)) eqn:Ep; [discriminate |].
    destruct (Str.split_first sep s) as [[a0 b0] |] eqn:Es; [discriminate |].
    intros _ a b E. destruct a as [| c' a].
    + rewrite append_nil in E. exact (not_prefix_no_head _ _ _ Ep E).
    + rewrite append_cons in E. injection E as _ E. exact (IH eq_refl a b E).
Qed.

Lemma split_last_None sep s :
  Str.split_last sep s = None -> forall a b, s <> a +:+ sep +:+ b.
Proof.
  induction s as [| c s IH]; cbn [Str.split_last].
  - destruct (String.prefix sep EmptyString) eqn:Ep; [discriminate |].
    intros _ a b E. destruct a as [| c' a]; [| rewrite append_cons in E; discriminate].
    rewrite append_nil in E. exact (not_prefix_no_head _ _ _ Ep E).
  - destruct (Str.split_last sep s) as [[a0 b0] |] eqn:Es; [discriminate |].
    destruct (String.prefix sep (String c s)) eqn:Ep; [discriminate |].
    intros _ a b E. destruct a as [| c' a].
    + rewrite append_nil in E. exact (not_prefix_no_head _ _ _ Ep E).
    + rewrite append_cons in E. injection E as _ E. exact (IH eq_refl a b E).
Qed.

Lemma split_last_Some sep s : forall a b,
  Str.split_last sep s = Some (a, b) ->
  s = a +:+ sep +:+ b /\
  forall a' b', s = a' +:+ sep +:+ b' -> (String.length a' <= String.length a)%nat.
Proof.
  induction s as [| c s IH]; intros a b; cbn [Str.split_last].
  - destruct (String.prefix sep EmptyString) eqn:Ep; [| discriminate].
    intros [= <- <-]. split; [destruct sep; [reflexivity | discriminate Ep] |].
    intros a' b' E. destruct a'; [cbn; lia | rewrite append_cons in E; discriminate].
  - destruct (Str.split_last sep s) as [[a0 b0] |] eqn:Es.
    + intros [= <- <-]. destruct (IH a0 b0 eq_refl) as [E Hmax]. split.
      * rewrite append_cons. f_equal. exact E.
      * intros a' b' E'. destruct a' as [| c' a']; [cbn; lia |].
        rewrite append_cons in E'. injection E' as _ E'.
        cbn [String.length]. apply le_n_S, (Hmax a' b' E').
    + destruct (String.prefix sep (String c s)) eqn:Ep; [| discriminate].
      intros [= <- <-]. split; [apply (prefix_drop sep _ Ep) |].
      intros a' b' E'. destruct a' as [| c' a']; [cbn; lia |].
      rewrite append_cons in E'. injection E' as _ E'.
      destruct (split_last_None sep s Es a' b' E').
Qed.

(** For a name without a newline, [compute_short_form] cuts the name at its
    first comma-space, and the two parts recompose the name; a name without
    comma-space that ends with a closing parenthesis is cut at its last
    space-parenthesis; any other name is its own short form. *)
Theorem compute_short_form_recomposes (name : string) :
  has_newline name = false ->
  match compute_short_form name with
  | (short, Some div) =>
      name = short +:+ ", " +:+ div /\
      forall a b, name = a +:+ ", " +:+ b ->
                  (String.length short <= String.length a)%nat
  | (short, None) =>
      (forall a b, name <> a +:+ ", " +:+ b) /\
      ((exists rest,
          name = short +:+ " (" +:+ rest /\ Str.ends_with ")" name = true /\
          forall a b, name = a +:+ " (" +:+ b ->
                      (String.length a <= String.length short)%nat) \/
       (short = name /\
        (Str.ends_with ")" name = false \/ forall a b, name <> a +:+ " (" +:+ b)))
  end.
Proof.
  intros _. unfold compute_short_form.
  destruct (Str.split_first ", " name) as [[short div] |] eqn:E1.
  { apply split_first_Some, E1. }
  pose proof (split_first_None _ _ E1) as Hno.
  destruct (Str.ends_with ")" name) eqn:Ee.
  - destruct (Str.split_last " (" name) as [[short rest] |] eqn:E2.
    + split; [exact Hno |]. left. exists rest.
      destruct (split_last_Some _ _ _ _ E2) as [E Hmax]. auto.
    + split; [exact Hno |]. right. split; [reflexivity |]. right.
      apply split_last_None, E2.
  - split; [exact Hno |]. right. split; [reflexivity |]. left. reflexivity.
Qed.

Lemma compute_short_form_recomposes_witness :
  "Tucson, Arizona"%string = "Tucson" +:+ ", " +:+ "Arizona" /\
  forall a b, "Tucson, Arizona"%string = a +:+ ", " +:+ b ->
              (String.length "Tucson" <= String.length a)%nat.
Proof. exact (compute_short_form_recomposes "Tucson, Arizona" eq_refl). Defined.

End ShortForm.

(** ** Matching a location against the article table *)

Section WikipediaMatch.
Variable py_sorted : (Article -> Article -> Z) -> list Article -> list Article.
Variable t : ArticleTable.
Variable check_match : Locality -> Article -> bool.
Variable prefer_match : Locality -> Article -> Article -> bool.

(** [find_wikipedia_match], for any [check_match] and [prefer_match] and with
    [sorted] returning a permutation of its argument: an article returned is
    a candidate of the location that passes [check_match]; [None] is returned
    exactly when no candidate passes it; and an article filed under the
    location's own name that passes it is preferred to every other
    candidate, whatever [prefer_match] says: the first such article in the
    table's order is returned. *)
Theorem find_wikipedia_match_finds_checked_candidate (loc : Locality) :
  (forall cmp l, Permutation l (py_sorted cmp l)) ->
  let result :=
    ArticleTables.find_wikipedia_match py_sorted t check_match prefer_match loc in
  (forall art, result = Some art ->
     check_match loc art = true /\ In art (candidates t loc)) /\
  (result = None <->
   forall c, In c (candidates t loc) -> check_match loc c = false) /\
  (forall a,
     List.find (check_match loc)
       (ArticleTables.same_name_articles t (loc_name loc)) = Some a ->
     result = Some a).
Proof.
  intros Hperm result. subst result.
  unfold ArticleTables.find_wikipedia_match, candidates. split; [| split].
  - intros art H. exact (first_match_sound py_sorted Hperm t _ _ _ _ _ H).
  - split.
    + intros Hnone c Hc. destruct (check_match loc c) eqn:Ec; [| reflexivity].
      destruct (first_match_complete py_sorted Hperm t check_match prefer_match
                  loc _ c Hc Ec) as [art Ha].
      congruence.
    + intros Hall.
      destruct (ArticleTables.first_match _ _ _ _ _ _) as [art |] eqn:E;
        [| reflexivity].
      apply (first_match_sound py_sorted Hperm) in E as [Hc Hin].
      rewrite (Hall art Hin) in Hc. discriminate.
  - intros a Ha. cbn [ArticleTables.first_match].
    unfold ArticleTables.find_one_wikipedia_match. rewrite Ha. reflexivity.
Qed.

End WikipediaMatch.

Lemma find_wikipedia_match_finds_checked_candidate_witness :
  ArticleTables.find_wikipedia_match sorted_desc austin_table (fun _ _ => true)
    (fun _ _ _ => true) austin = Some austin_article.
Proof.
  destruct (find_wikipedia_match_finds_checked_candidate sorted_desc austin_table
              (fun _ _ => true) (fun _ _ _ => true) austin sorted_desc_permutes)
    as (_ & _ & Hfirst).
  apply Hfirst. vm_compute. reflexivity.
Defined.

(** ** Results by number of candidates and by rank *)

Section ResultTables.

Lemma count_of_cons {A} (P : A -> bool) x l :
  count_of P (x :: l) = (if P x then 1 else 0) + count_of P l.
Proof. unfold count_of. cbn [List.filter]. destruct (P x); cbn [length]; lia. Qed.

Lemma count_of_nonneg {A} (P : A -> bool) l : 0 <= count_of P l.
Proof. unfold count_of. lia. Qed.

Lemma intdict_incr_lookup (d : gmap Z Z) k n :
  intdict_get (intdict_incr d k) n = intdict_get d n + (if k =? n then 1 else 0).
Proof.
  unfold intdict_incr, intdict_get. rewrite lookup_insert.
  destruct (Z.eqb_spec k n) as [-> | Hne].
  - rewrite decide_True by reflexivity. reflexivity.
  - rewrite decide_False by exact Hne. lia.
Qed.

Lemma fold_incr_lookup l : forall (d : gmap Z Z) n,
  intdict_get (fold_left intdict_incr l d) n = intdict_get d n + count_of (Z.eqb n) l.
Proof.
  induction l as [| k l IH]; intros d n; cbn [fold_left].
  - unfold count_of. cbn. lia.
  - rewrite IH, intdict_incr_lookup, count_of_cons, (Z.eqb_sym n k). lia.
Qed.

Lemma count_of_range a b n :
  count_of (Z.eqb n) (StatRegions.range a b)
  = if (a <=? n) && (n <? b) then 1 else 0.
Proof.
  unfold StatRegions.range.
  assert (Hgen : forall l : list Z, NoDup l ->
            count_of (Z.eqb n) l = if bool_decide (n ∈ l) then 1 else 0).
  { induction 1 as [| x l Hx Hnd IH].
    - rewrite bool_decide_eq_false_2 by apply not_elem_of_nil. reflexivity.
    - rewrite count_of_cons, IH. destruct (Z.eqb_spec n x) as [-> | Hne].
      + rewrite (bool_decide_eq_false_2 _ Hx).
        rewrite bool_decide_eq_true_2 by left. reflexivity.
      + destruct (bool_decide (n ∈ l)) eqn:Eb.
        * apply bool_decide_eq_true_1 in Eb.
          rewrite bool_decide_eq_true_2 by (right; exact Eb). reflexivity.
        * apply bool_decide_eq_false_1 in Eb.
          rewrite bool_decide_eq_false_2; [reflexivity |].
          intros Hin. apply elem_of_cons in Hin as [-> | Hin]; contradiction. }
  rewrite (Hgen _ (NoDup_seqZ a (b - a))).
  destruct (Z.leb_spec a n), (Z.ltb_spec n b); cbn [andb];
    first [ rewrite bool_decide_eq_true_2 by (apply elem_of_seqZ; lia); reflexivity
          | rewrite bool_decide_eq_false_2
              by (rewrite elem_of_seqZ; lia); reflexivity ].
Qed.

(** One call of [EvalWithCandidateList.record_result]. *)
Lemma candidate_list_step self correct reason num_arts t c i :
  sound (cl_base self) -> Evals.reason_of (cl_base self) reason ->
  Evals.total_instances (cl_base self) = Some t ->
  Evals.correct_instances (cl_base self) = Some c ->
  Evals.incorrect_instances (cl_base self) = Some i ->
  exists self',
    EvalsWithCandidateList.record_result self correct reason num_arts = Some self' /\
    sound (cl_base self') /\
    incorrect_reasons (cl_base self') = incorrect_reasons (cl_base self) /\
    Evals.total_instances (cl_base self') = Some (t + 1) /\
    Evals.correct_instances (cl_base self') = Some (if correct then c + 1 else c) /\
    Evals.incorrect_instances (cl_base self') = Some (if correct then i else i + 1) /\
    (forall n,
       intdict_get (total_instances_by_num_candidates self') n
       = intdict_get (total_instances_by_num_candidates self) n
         + (if num_arts =? n then 1 else 0) /\
       intdict_get (correct_instances_by_num_candidates self') n
       = intdict_get (correct_instances_by_num_candidates self) n
         + (if correct && (num_arts =? n) then 1 else 0) /\
       intdict_get (incorrect_instances_by_num_candidates self') n
       = intdict_get (incorrect_instances_by_num_candidates self) n
         + (if negb correct && (num_arts =? n) then 1 else 0)).
Proof.
  intros Hs Hr Ht Hc Hi.
  destruct (record_result_counts _ correct reason t c i Hs Hr Ht Hc Hi)
    as (base & E & Hs' & Hrs & Ht' & Hc' & Hi').
  unfold EvalsWithCandidateList.record_result. rewrite E.
  eexists. split; [reflexivity |]. cbn.
  do 5 (split; [assumption |]). intros n.
  destruct correct; cbn [andb negb]; rewrite !intdict_incr_lookup;
    repeat split; lia.
Qed.

(** The tables of an [EvalWithCandidateList] count the results by number of
    candidates: after a sequence of results, each with a reason that is
    [None] or in the object's table, the entry of each table for [n] has
    grown by the number of (all, correct, incorrect) results with [n]
    candidates and the total by the number of results; so the entries for
    [n] keep adding up, total = correct + incorrect, when they did before. *)
Theorem candidate_tables_count_results (self : EvalWithCandidateList)
    (results : list (bool * option string * Z)) (t c i : Z) :
  sound (cl_base self) ->
  Evals.total_instances (cl_base self) = Some t ->
  Evals.correct_instances (cl_base self) = Some c ->
  Evals.incorrect_instances (cl_base self) = Some i ->
  Forall (fun x => Evals.reason_of (cl_base self) (snd (fst x))) results ->
  exists self',
    EvalsWithCandidateList.record_results self results = Some self' /\
    Evals.total_instances (cl_base self') = Some (t + Z.of_nat (length results)) /\
    (forall n,
       intdict_get (total_instances_by_num_candidates self') n
       = intdict_get (total_instances_by_num_candidates self) n
         + count_of (fun x => snd x =? n) results /\
       intdict_get (correct_instances_by_num_candidates self') n
       = intdict_get (correct_instances_by_num_candidates self) n
         + count_of (fun x => fst (fst x) && (snd x =? n)) results /\
       intdict_get (incorrect_instances_by_num_candidates self') n
       = intdict_get (incorrect_instances_by_num_candidates self) n
         + count_of (fun x => negb (fst (fst x)) && (snd x =? n)) results) /\
    ((forall n, intdict_get (total_instances_by_num_candidates self) n
                = intdict_get (correct_instances_by_num_candidates self) n
                  + intdict_get (incorrect_instances_by_num_candidates self) n) ->
     forall n, intdict_get (total_instances_by_num_candidates self') n
               = intdict_get (correct_instances_by_num_candidates self') n
                 + intdict_get (incorrect_instances_by_num_candidates self') n).
Proof.
  revert self t c i.
  induction results as [| [[correct reason] num_arts] results IH];
    intros self t c i Hs Ht Hc Hi Hall.
  - exists self. cbn [EvalsWithCandidateList.record_results length].
    split; [reflexivity |]. split; [rewrite Z.add_0_r; exact Ht |].
    split; [| auto]. intros n. unfold count_of. cbn. lia.
  - apply Forall_cons in Hall as [Hr Hall]. cbn [fst snd] in Hr.
    destruct (candidate_list_step self correct reason num_arts t c i Hs Hr Ht Hc Hi)
      as (self1 & E1 & Hs1 & Hrs1 & Ht1 & Hc1 & Hi1 & Htab1).
    assert (Hall1 : Forall (fun x => Evals.reason_of (cl_base self1) (snd (fst x)))
                      results).
    { eapply Forall_impl; [exact Hall |]. intros x. unfold Evals.reason_of.
      rewrite Hrs1. auto. }
    destruct (IH self1 _ _ _ Hs1 Ht1 Hc1 Hi1 Hall1) as (self' & E & Ht' & Htab & _).
    exists self'. cbn [EvalsWithCandidateList.record_results]. rewrite E1.
    split; [exact E |].
    split; [rewrite Ht'; f_equal; cbn [length]; lia |].
    assert (Hcount : forall n,
       intdict_get (total_instances_by_num_candidates self') n
       = intdict_get (total_instances_by_num_candidates self) n
         + count_of (fun x => snd x =? n) ((correct, reason, num_arts) :: results) /\
       intdict_get (correct_instances_by_num_candidates self') n
       = intdict_get (correct_instances_by_num_candidates self) n
         + count_of (fun x => fst (fst x) && (snd x =? n))
             ((correct, reason, num_arts) :: results) /\
       intdict_get (incorrect_instances_by_num_candidates self') n
       = intdict_get (incorrect_instances_by_num_candidates self) n
         + count_of (fun x => negb (fst (fst x)) && (snd x =? n))
             ((correct, reason, num_arts) :: results)).
    { intros n. destruct (Htab n) as (H1 & H2 & H3).
      destruct (Htab1 n) as (G1 & G2 & G3).
      rewrite !count_of_cons. cbn [fst snd]. rewrite H1, H2, H3, G1, G2, G3.
      repeat split; lia. }
    split; [exact Hcount |]. intros Hbal n.
    destruct (Hcount n) as (H1 & H2 & H3). rewrite H1, H2, H3, (Hbal n).
    assert (Hsplit : forall l : list (bool * option string * Z),
              count_of (fun x => snd x =? n) l
              = count_of (fun x => fst (fst x) && (snd x =? n)) l
                + count_of (fun x => negb (fst (fst x)) && (snd x =? n)) l).
    { induction l as [| [[b r] k] l IHl]; [reflexivity |].
      rewrite !count_of_cons, IHl. cbn [fst snd].
      destruct b, (k =? n); cbn [andb negb]; lia. }
    rewrite Hsplit. lia.
Qed.

(** [EvalWithCandidateList.__init__] builds a sound object, with the counters
    at 0 and empty tables, from a table of reasons that reuses no attribute
    name. *)
Lemma candidate_list_init_sound reasons m :
  (forall r, In r (map fst reasons) ->
     ~ In r Evals.counter_names /\ r <> "other_stats" /\
     ~ In r ["max_individual_candidates"; "total_instances_by_num_candidates";
             "correct_instances_by_num_candidates";
             "incorrect_instances_by_num_candidates"]) ->
  let self := EvalsWithCandidateList.init reasons m in
  sound (cl_base self) /\
  incorrect_reasons (cl_base self) = reasons /\
  Evals.total_instances (cl_base self) = Some 0 /\
  Evals.correct_instances (cl_base self) = Some 0 /\
  Evals.incorrect_instances (cl_base self) = Some 0.
Proof.
  intros Hnames self. subst self.
  destruct (init_sound reasons) as ([Hcnt Hrs] & Ht & Hc & Hi).
  { intros r Hr. destruct (Hnames r Hr) as (H1 & H2 & _). auto. }
  assert (Hlook : forall n,
            ~ In n ["max_individual_candidates"; "total_instances_by_num_candidates";
                    "correct_instances_by_num_candidates";
                    "incorrect_instances_by_num_candidates"] ->
            attrs (cl_base (EvalsWithCandidateList.init reasons m)) !! n
            = attrs (Evals.init reasons) !! n).
  { intros n Hn. cbn [EvalsWithCandidateList.init cl_base attrs].
    rewrite !lookup_delete_ne, lookup_insert_ne; [reflexivity | ..];
      intros <-; apply Hn; cbn; auto. }
  assert (Hcounter : forall n, In n Evals.counter_names ->
            attrs (cl_base (EvalsWithCandidateList.init reasons m)) !! n
            = attrs (Evals.init reasons) !! n).
  { intros n Hn. apply Hlook. cbn in Hn |- *.
    destruct Hn as [<- | [<- | [<- | []]]];
      intros [H | [H | [H | [H | []]]]]; discriminate H. }
  split; [split |].
  - intros n Hn. rewrite (Hcounter n Hn). apply Hcnt, Hn.
  - intros r Hr. cbn [EvalsWithCandidateList.init cl_base incorrect_reasons] in Hr.
    destruct (Hrs r Hr) as [H1 H2]. split; [exact H1 |].
    rewrite init_reasons in Hr. destruct (Hnames r Hr) as (_ & _ & H3).
    rewrite (Hlook r H3). exact H2.
  - split; [apply init_reasons |].
    unfold Evals.total_instances, Evals.correct_instances,
      Evals.incorrect_instances in *.
    rewrite !Hcounter by (cbn; auto). auto.
Qed.

Lemma toponym_reasons_fresh r :
  In r (map fst Evals.incorrect_geotag_toponym_reasons) ->
  ~ In r Evals.counter_names /\ r <> "other_stats" /\
  ~ In r ["max_individual_candidates"; "total_instances_by_num_candidates";
          "correct_instances_by_num_candidates";
          "incorrect_instances_by_num_candidates"].
Proof.
  cbn. intros Hr.
  repeat (destruct Hr as [<- | Hr]); try contradiction;
    (split; [| split]);
    try discriminate;
    intros Hc; repeat (destruct Hc as [Hc | Hc]; try discriminate Hc);
    contradiction.
Qed.

(** One call of [record_geotag_toponym_result] on three sound accumulators
    with the table of reasons of [Results]. *)
Lemma toponym_result_step cls x ta ca ia ts cs js th ch ih :
  let ok (self : EvalWithCandidateList) (t c i : Z) :=
    sound (cl_base self) /\
    incorrect_reasons (cl_base self) = Evals.incorrect_geotag_toponym_reasons /\
    Evals.total_instances (cl_base self) = Some t /\
    Evals.correct_instances (cl_base self) = Some c /\
    Evals.incorrect_instances (cl_base self) = Some i in
  ok (all_toponym cls) ta ca ia ->
  ok (diff_surface cls) ts cs js ->
  ok (diff_short cls) th ch ih ->
  toponym_reason (tr_reason x) ->
  exists cls' ca' ia' cs' js' ch' ih',
    Results.record_geotag_toponym_result cls x = Some cls' /\
    ok (all_toponym cls') (ta + 1) ca' ia' /\
    ok (diff_surface cls') (ts + (if differs_from_name x then 1 else 0)) cs' js' /\
    ok (diff_short cls') (th + (if differs_from_short_form x then 1 else 0)) ch' ih'.
Proof.
  intros ok (Hsa & Hra & Hta & Hca & Hia) (Hss & Hrs & Hts & Hcs & Hjs)
    (Hsh & Hrh & Hth & Hch & Hih) Hreason.
  assert (Hstep : forall self t c i, ok self t c i ->
            exists self' c' i',
              EvalsWithCandidateList.record_result self (tr_correct x) (tr_reason x)
                (tr_num_arts x) = Some self' /\ ok self' (t + 1) c' i').
  { intros self t c i (Hs & Hr & Ht & Hc & Hi).
    destruct (candidate_list_step self (tr_correct x) (tr_reason x) (tr_num_arts x)
                t c i Hs) as (self' & E & Hs' & Hr' & Ht' & Hc' & Hi' & _);
      try assumption.
    { unfold Evals.reason_of. rewrite Hr. exact Hreason. }
    exists self', (if tr_correct x then c + 1 else c),
      (if tr_correct x then i else i + 1).
    split; [exact E |]. unfold ok. rewrite Hr'. auto. }
  unfold Results.record_geotag_toponym_result, differs_from_short_form,
    differs_from_name.
  destruct (Hstep (all_toponym cls) ta ca ia) as (a' & ca' & ia' & Ea & Hoka);
    [unfold ok; auto |].
  rewrite Ea.
  destruct (String.eqb (tr_toponym x) (tr_trueloc x)); cbn [negb andb].
  { eexists; exists ca', ia', cs, js, ch, ih. split; [reflexivity |].
    cbn [all_toponym diff_surface diff_short]. rewrite !Z.add_0_r.
    unfold ok; auto 10. }
  destruct (Hstep (diff_surface cls) ts cs js) as (s' & cs' & js' & Es & Hoks);
    [unfold ok; auto |].
  rewrite Es. destruct (compute_short_form (tr_trueloc x)) as [short div].
  cbn [fst]. destruct (String.eqb (tr_toponym x) short); cbn [negb].
  { eexists; exists ca', ia', cs', js', ch, ih. split; [reflexivity |].
    cbn [all_toponym diff_surface diff_short]. rewrite !Z.add_0_r.
    unfold ok; auto 10. }
  destruct (Hstep (diff_short cls) th ch ih) as (h' & ch' & ih' & Eh & Hokh);
    [unfold ok; auto |].
  rewrite Eh. eexists; exists ca', ia', cs', js', ch', ih'. split; [reflexivity |].
  cbn [all_toponym diff_surface diff_short]. auto.
Qed.

Lemma toponym_results_counts xs : forall cls ta ca ia ts cs js th ch ih,
  let ok (self : EvalWithCandidateList) (t c i : Z) :=
    sound (cl_base self) /\
    incorrect_reasons (cl_base self) = Evals.incorrect_geotag_toponym_reasons /\
    Evals.total_instances (cl_base self) = Some t /\
    Evals.correct_instances (cl_base self) = Some c /\
    Evals.incorrect_instances (cl_base self) = Some i in
  ok (all_toponym cls) ta ca ia ->
  ok (diff_surface cls) ts cs js ->
  ok (diff_short cls) th ch ih ->
  Forall (fun x => toponym_reason (tr_reason x)) xs ->
  exists cls',
    Results.record_all cls xs = Some cls' /\
    Evals.total_instances (cl_base (all_toponym cls'))
    = Some (ta + Z.of_nat (length xs)) /\
    Evals.total_instances (cl_base (diff_surface cls'))
    = Some (ts + count_of differs_from_name xs) /\
    Evals.total_instances (cl_base (diff_short cls'))
    = Some (th + count_of differs_from_short_form xs).
Proof.
  induction xs as [| x xs IH]; intros cls ta ca ia ts cs js th ch ih ok Ha Hs Hh Hall.
  - exists cls. cbn [Results.record_all length]. unfold count_of. cbn.
    rewrite !Z.add_0_r. destruct Ha as (_ & _ & Ha & _), Hs as (_ & _ & Hs & _),
      Hh as (_ & _ & Hh & _). auto.
  - apply Forall_cons in Hall as [Hx Hall].
    destruct (toponym_result_step cls x ta ca ia ts cs js th ch ih Ha Hs Hh Hx)
      as (cls1 & ca' & ia' & cs' & js' & ch' & ih' & E1 & Ha1 & Hs1 & Hh1).
    destruct (IH cls1 _ _ _ _ _ _ _ _ _ Ha1 Hs1 Hh1 Hall)
      as (cls' & E & Hta & Hts & Hth).
    exists cls'. cbn [Results.record_all]. rewrite E1. split; [exact E |].
    rewrite Hta, Hts, Hth, !count_of_cons. cbn [length].
    repeat split; f_equal; lia.
Qed.

(** The three accumulators of [Results] are nested: after any sequence of
    results recorded by [record_geotag_toponym_result], each with a reason of
    the table of [Results] or none, [all_toponym] has counted every result,
    [diff_surface] those whose toponym differs from the name of the true
    location, and [diff_short] those whose toponym differs from that name
    and from its short form; so the totals never increase from [all_toponym]
    to [diff_surface] to [diff_short]. *)
Theorem toponym_accumulators_are_nested (xs : list ToponymResult) :
  Forall (fun x => toponym_reason (tr_reason x)) xs ->
  exists cls' all surface short,
    Results.record_all Results.init xs = Some cls' /\
    Evals.total_instances (cl_base (all_toponym cls')) = Some all /\
    Evals.total_instances (cl_base (diff_surface cls')) = Some surface /\
    Evals.total_instances (cl_base (diff_short cls')) = Some short /\
    all = Z.of_nat (length xs) /\
    surface = count_of differs_from_name xs /\
    short = count_of differs_from_short_form xs /\
    0 <= short <= surface /\ surface <= all.
Proof.
  intros Hall.
  destruct (candidate_list_init_sound Evals.incorrect_geotag_toponym_reasons 5
              toponym_reasons_fresh) as (Hs & Hr & Ht & Hc & Hi).
  destruct (toponym_results_counts xs Results.init 0 0 0 0 0 0 0 0 0)
    as (cls' & E & Hta & Hts & Hth);
    [split; [exact Hs | repeat split; assumption]
     | split; [exact Hs | repeat split; assumption]
     | split; [exact Hs | repeat split; assumption] | exact Hall |].
  exists cls', (Z.of_nat (length xs)), (count_of differs_from_name xs),
    (count_of differs_from_short_form xs).
  split; [exact E |]. rewrite Hta, Hts, Hth. do 6 (split; [reflexivity |]).
  assert (Hle : forall l : list ToponymResult,
            count_of differs_from_short_form l <= count_of differs_from_name l
            /\ count_of differs_from_name l <= Z.of_nat (length l)).
  { induction l as [| y l [IH1 IH2]]; [unfold count_of; cbn; lia |].
    rewrite !count_of_cons. cbn [length]. unfold differs_from_short_form at 1.
    destruct (differs_from_name y); cbn [andb];
      [destruct (negb _) |]; lia. }
  destruct (Hle xs). pose proof (count_of_nonneg differs_from_short_form xs). lia.
Qed.

End ResultTables.

Section ResultTablesExamples.

Lemma candidate_tables_count_results_witness :
  exists self',
    EvalsWithCandidateList.record_results
      (EvalsWithCandidateList.init Evals.incorrect_geotag_toponym_reasons 5)
      [(true, None, 2); (false, Some "incorrect_with_no_candidates", 0);
       (false, Some "incorrect_one_correct_candidate", 2)] = Some self' /\
    intdict_get (total_instances_by_num_candidates self') 2 = 2 /\
    intdict_get (correct_instances_by_num_candidates self') 2 = 1 /\
    intdict_get (incorrect_instances_by_num_candidates self') 2 = 1.
Proof.
  destruct (candidate_list_init_sound Evals.incorrect_geotag_toponym_reasons 5
              toponym_reasons_fresh) as (Hs & Hr & Ht & Hc & Hi).
  destruct (candidate_tables_count_results
              (EvalsWithCandidateList.init Evals.incorrect_geotag_toponym_reasons 5)
              [(true, None, 2); (false, Some "incorrect_with_no_candidates", 0);
               (false, Some "incorrect_one_correct_candidate", 2)]
              0 0 0 Hs Ht Hc Hi) as (self' & E & _ & Htab & _).
  - repeat constructor; unfold Evals.reason_of; rewrite Hr; cbn; auto 10.
  - exists self'. split; [exact E |]. destruct (Htab 2) as (H1 & H2 & H3).
    rewrite H1, H2, H3. repeat split; vm_compute; reflexivity.
Defined.

Lemma toponym_accumulators_are_nested_witness :
  exists cls',
    Results.record_all Results.init
      [{| tr_correct := true; tr_toponym := "Paris"; tr_trueloc := "Paris";
          tr_reason := None; tr_num_arts := 3 |};
       {| tr_correct := false; tr_toponym := "Paris"; tr_trueloc := "Paris, Texas";
          tr_reason := Some "incorrect_one_correct_candidate"; tr_num_arts := 3 |};
       {| tr_correct := true; tr_toponym := "Big Apple"; tr_trueloc := "New York";
          tr_reason := None; tr_num_arts := 1 |}] = Some cls' /\
    Evals.total_instances (cl_base (all_toponym cls')) = Some 3 /\
    Evals.total_instances (cl_base (diff_surface cls')) = Some 2 /\
    Evals.total_instances (cl_base (diff_short cls')) = Some 1.
Proof.
  destruct (toponym_accumulators_are_nested
    [{| tr_correct := true; tr_toponym := "Paris"; tr_trueloc := "Paris";
        tr_reason := None; tr_num_arts := 3 |};
     {| tr_correct := false; tr_toponym := "Paris"; tr_trueloc := "Paris, Texas";
        tr_reason := Some "incorrect_one_correct_candidate"; tr_num_arts := 3 |};
     {| tr_correct := true; tr_toponym := "Big Apple"; tr_trueloc := "New York";
        tr_reason := None; tr_num_arts := 1 |}])
    as (cls' & all & surface & short & E & Ha & Hs & Hh & -> & -> & -> & _).
  - constructor; [exact I |]. constructor; [cbn; auto 10 |].
    constructor; [exact I | constructor].
  - exists cls'. split; [exact E |]. rewrite Ha, Hs, Hh.
    repeat split; vm_compute; reflexivity.
Defined.

End ResultTablesExamples.

(** ** Results by rank *)

Section RankTables.

Lemma count_of_le {A} (P Q : A -> bool) l :
  (forall x, In x l -> P x = true -> Q x = true) -> count_of P l <= count_of Q l.
Proof.
  induction l as [| x l IH]; intros H; [unfold count_of; cbn; lia |].
  rewrite !count_of_cons.
  assert (IH' : count_of P l <= count_of Q l) by (apply IH; intros; apply H; cbn; auto).
  pose proof (H x (or_introl eq_refl)) as Hx.
  destruct (P x), (Q x); first [lia | specialize (Hx eq_refl); discriminate Hx].
Qed.

Lemma count_of_ext {A} (P Q : A -> bool) l :
  (forall x, In x l -> P x = Q x) -> count_of P l = count_of Q l.
Proof.
  intros H. apply Z.le_antisymm; apply count_of_le; intros x Hx;
    rewrite (H x Hx); auto.
Qed.

Lemma count_of_split {A} (P : A -> bool) l :
  count_of P l + count_of (fun x => negb (P x)) l = Z.of_nat (length l).
Proof.
  induction l as [| x l IH]; [reflexivity |].
  rewrite !count_of_cons. cbn [length]. destruct (P x); cbn [negb]; lia.
Qed.

Lemma credit_of_bounds m ranks :
  0 <= m -> Forall (fun x => 1 <= x) ranks ->
  0 <= credit_of m ranks <= m * Z.of_nat (length ranks).
Proof.
  intros Hm. induction 1 as [| x l Hx Hl IH]; cbn [credit_of fold_right length];
    [lia |].
  fold (credit_of m l). destruct (Z.leb_spec x m); nia.
Qed.

(** One call of [EvalWithRank.record_result] with a rank of at least 1. *)
Lemma rank_step self rank t c i :
  sound (rk_base self) ->
  Evals.total_instances (rk_base self) = Some t ->
  Evals.correct_instances (rk_base self) = Some c ->
  Evals.incorrect_instances (rk_base self) = Some i ->
  1 <= rank ->
  let m := max_rank_for_credit self in
  exists self',
    EvalsWithRank.record_result self rank = Some self' /\
    sound (rk_base self') /\
    max_rank_for_credit self' = m /\
    Evals.total_instances (rk_base self') = Some (t + 1) /\
    Evals.correct_instances (rk_base self')
    = Some (c + (if 1 =? rank then 1 else 0)) /\
    Evals.incorrect_instances (rk_base self')
    = Some (i + (if negb (1 =? rank) then 1 else 0)) /\
    (forall r, intdict_get (incorrect_by_exact_rank self') r
               = intdict_get (incorrect_by_exact_rank self) r
                 + (if (rank =? r) && (rank <=? m) then 1 else 0)) /\
    (forall k, intdict_get (correct_by_up_to_rank self') k
               = intdict_get (correct_by_up_to_rank self) k
                 + (if (rank <=? k) && (k <=? m) then 1 else 0)) /\
    incorrect_past_max_rank self'
    = incorrect_past_max_rank self + (if m <? rank then 1 else 0) /\
    total_credit self'
    = total_credit self + (if rank <=? m then m + 1 - rank else 0).
Proof.
  intros Hs Ht Hc Hi Hrank m. subst m.
  destruct (record_result_counts (rk_base self) (rank =? 1) None t c i Hs I Ht Hc Hi)
    as (base & E & Hs' & _ & Ht' & Hc' & Hi').
  unfold EvalsWithRank.record_result.
  destruct (Z.ltb_spec rank 1); [lia |]. rewrite E.
  rewrite (Z.eqb_sym 1 rank).
  assert (Hc2 : Evals.correct_instances base
                = Some (c + (if rank =? 1 then 1 else 0))).
  { rewrite Hc'. destruct (rank =? 1); f_equal; lia. }
  assert (Hi2 : Evals.incorrect_instances base
                = Some (i + (if negb (rank =? 1) then 1 else 0))).
  { rewrite Hi'. destruct (rank =? 1); cbn [negb]; f_equal; lia. }
  destruct (Z.leb_spec rank (max_rank_for_credit self)) as [Hle | Hgt].
  - eexists. split; [reflexivity |]. cbn.
    do 5 (split; [assumption || reflexivity |]).
    split; [| split; [| split]].
    + intros r. rewrite intdict_incr_lookup, andb_true_r. reflexivity.
    + intros k. rewrite fold_incr_lookup, count_of_range.
      destruct (Z.leb_spec rank k), (Z.ltb_spec k (max_rank_for_credit self + 1)),
        (Z.leb_spec k (max_rank_for_credit self)); cbn [andb]; lia.
    + destruct (Z.ltb_spec (max_rank_for_credit self) rank); lia.
    + reflexivity.
  - eexists. split; [reflexivity |]. cbn.
    do 5 (split; [assumption || reflexivity |]).
    split; [| split; [| split]].
    + intros r. rewrite andb_false_r. lia.
    + intros k.
      destruct (Z.leb_spec rank k), (Z.leb_spec k (max_rank_for_credit self));
        cbn [andb]; lia.
    + destruct (Z.ltb_spec (max_rank_for_credit self) rank); lia.
    + lia.
Qed.

Lemma rank_results_counts ranks : forall self t c i,
  sound (rk_base self) ->
  Evals.total_instances (rk_base self) = Some t ->
  Evals.correct_instances (rk_base self) = Some c ->
  Evals.incorrect_instances (rk_base self) = Some i ->
  Forall (fun x => 1 <= x) ranks ->
  let m := max_rank_for_credit self in
  exists self',
    EvalsWithRank.record_results self ranks = Some self' /\
    Evals.total_instances (rk_base self') = Some (t + Z.of_nat (length ranks)) /\
    Evals.correct_instances (rk_base self') = Some (c + count_of (Z.eqb 1) ranks) /\
    Evals.incorrect_instances (rk_base self')
    = Some (i + count_of (fun x => negb (1 =? x)) ranks) /\
    (forall r, intdict_get (incorrect_by_exact_rank self') r
               = intdict_get (incorrect_by_exact_rank self) r
                 + count_of (fun x => (x =? r) && (x <=? m)) ranks) /\
    (forall k, intdict_get (correct_by_up_to_rank self') k
               = intdict_get (correct_by_up_to_rank self) k
                 + count_of (fun x => (x <=? k) && (k <=? m)) ranks) /\
    incorrect_past_max_rank self'
    = incorrect_past_max_rank self + count_of (fun x => m <? x) ranks /\
    total_credit self' = total_credit self + credit_of m ranks.
Proof.
  induction ranks as [| rank ranks IH]; intros self t c i Hs Ht Hc Hi Hall m.
  - exists self. cbn [EvalsWithRank.record_results length credit_of fold_right].
    unfold count_of. cbn. rewrite !Z.add_0_r.
    repeat split; try assumption; intros; lia.
  - apply Forall_cons in Hall as [Hrank Hall].
    destruct (rank_step self rank t c i Hs Ht Hc Hi Hrank)
      as (self1 & E1 & Hs1 & Hm1 & Ht1 & Hc1 & Hi1 & Hex1 & Hup1 & Hpast1 & Hcr1).
    destruct (IH self1 _ _ _ Hs1 Ht1 Hc1 Hi1 Hall)
      as (self' & E & Ht' & Hc' & Hi' & Hex & Hup & Hpast & Hcr).
    rewrite Hm1 in Hex, Hup, Hpast, Hcr. fold m in Hex, Hup, Hpast, Hcr.
    fold m in Hex1, Hup1, Hpast1, Hcr1.
    exists self'. cbn [EvalsWithRank.record_results]. rewrite E1.
    split; [exact E |]. rewrite Ht', Hc', Hi', Hpast, Hcr, Hpast1, Hcr1.
    rewrite !count_of_cons. cbn [length credit_of fold_right]. fold (credit_of m ranks).
    split; [f_equal; lia |]. split; [f_equal; lia |]. split; [f_equal; lia |].
    split; [| split; [| split; lia]].
    + intros r. rewrite Hex, Hex1, count_of_cons. lia.
    + intros k. rewrite Hup, Hup1, count_of_cons. lia.
Qed.

Lemma init_rank_sound m :
  sound (rk_base (EvalsWithRank.init m)) /\
  Evals.total_instances (rk_base (EvalsWithRank.init m)) = Some 0 /\
  Evals.correct_instances (rk_base (EvalsWithRank.init m)) = Some 0 /\
  Evals.incorrect_instances (rk_base (EvalsWithRank.init m)) = Some 0.
Proof. apply (init_sound []). intros r []. Qed.

(** The tables of an [EvalWithRank] count the ranks recorded.  After the
    ranks [ranks], all of at least 1, on a new object with maximum rank [m]:
    the total is the number of ranks and the correct instances are the ranks
    equal to 1; [incorrect_by_exact_rank[r]] is the number of ranks equal to
    [r], for [r] up to [m] (the entry for 1 counts the correct results);
    [correct_by_up_to_rank[k]] is the number of ranks of at most [k], for
    [k] up to [m]; [incorrect_past_max_rank] is the number of ranks above
    [m]; and [total_credit] is the sum of [m + 1 - rank] over the ranks up to
    [m].  A rank below 1 makes [record_result] fail its assertion. *)
Theorem rank_tables_count_results (m : Z) (ranks : list Z) :
  (Forall (fun x => 1 <= x) ranks ->
   exists self',
     EvalsWithRank.record_results (EvalsWithRank.init m) ranks = Some self' /\
     Evals.total_instances (rk_base self') = Some (Z.of_nat (length ranks)) /\
     Evals.correct_instances (rk_base self') = Some (count_of (Z.eqb 1) ranks) /\
     Evals.incorrect_instances (rk_base self')
     = Some (count_of (fun x => negb (1 =? x)) ranks) /\
     (forall r, intdict_get (incorrect_by_exact_rank self') r
                = if r <=? m then count_of (Z.eqb r) ranks else 0) /\
     (forall k, intdict_get (correct_by_up_to_rank self') k
                = if k <=? m then count_of (fun x => x <=? k) ranks else 0) /\
     incorrect_past_max_rank self' = count_of (fun x => m <? x) ranks /\
     total_credit self' = credit_of m ranks) /\
  (forall self rank, rank < 1 -> EvalsWithRank.record_result self rank = None).
Proof.
  split.
  - intros Hall. destruct (init_rank_sound m) as (Hs & Ht & Hc & Hi).
    destruct (rank_results_counts ranks (EvalsWithRank.init m) 0 0 0 Hs Ht Hc Hi Hall)
      as (self' & E & Ht' & Hc' & Hi' & Hex & Hup & Hpast & Hcr).
    cbn [EvalsWithRank.init max_rank_for_credit incorrect_by_exact_rank
         correct_by_up_to_rank incorrect_past_max_rank total_credit] in *.
    exists self'. split; [exact E |].
    rewrite Ht', Hc', Hi', Hpast, Hcr. do 3 (split; [f_equal; lia |]).
    split; [| split; [| split; lia]].
    + intros r. rewrite Hex. unfold intdict_get at 1. rewrite lookup_empty. cbn.
      destruct (Z.leb_spec r m).
      * apply count_of_ext. intros x _. rewrite (Z.eqb_sym r x).
        destruct (Z.eqb_spec x r) as [-> | _]; [| reflexivity].
        destruct (Z.leb_spec r m); [reflexivity | lia].
      * transitivity (count_of (fun _ : Z => false) ranks);
          [| unfold count_of; clear; induction ranks; auto].
        apply count_of_ext. intros x _.
        destruct (Z.eqb_spec x r) as [-> | _]; [| reflexivity].
        destruct (Z.leb_spec r m); [lia | reflexivity].
    + intros k. rewrite Hup. unfold intdict_get at 1. rewrite lookup_empty. cbn.
      destruct (Z.leb_spec k m).
      * apply count_of_ext. intros x _. apply andb_true_r.
      * transitivity (count_of (fun _ : Z => false) ranks);
          [| unfold count_of; clear; induction ranks; auto].
        apply count_of_ext. intros x _. apply andb_false_r.
  - intros self rank Hr. unfold EvalsWithRank.record_result.
    destruct (Z.ltb_spec rank 1); [reflexivity | lia].
Qed.

(** The partial credit of an [EvalWithRank] never exceeds the possible
    credit that [output_correct_results] divides it by: after any ranks of at
    least 1 on a new object with a maximum rank [m >= 0],
    [0 <= total_credit <= m * total_instances].  For [m >= 1] moreover every
    instance is either correct up to rank [m] or past the maximum rank, and
    the entries of [correct_by_up_to_rank] do not decrease with the rank. *)
Theorem rank_credit_is_bounded (m : Z) (ranks : list Z) :
  0 <= m ->
  Forall (fun x => 1 <= x) ranks ->
  exists self' t,
    EvalsWithRank.record_results (EvalsWithRank.init m) ranks = Some self' /\
    Evals.total_instances (rk_base self') = Some t /\
    0 <= total_credit self' <= max_rank_for_credit self' * t /\
    (1 <= m ->
     intdict_get (correct_by_up_to_rank self') m + incorrect_past_max_rank self' = t) /\
    (forall j k, j <= k <= m ->
       intdict_get (correct_by_up_to_rank self') j
       <= intdict_get (correct_by_up_to_rank self') k).
Proof.
  intros Hm Hall. destruct (init_rank_sound m) as (Hs & Ht & Hc & Hi).
  destruct (rank_results_counts ranks (EvalsWithRank.init m) 0 0 0 Hs Ht Hc Hi Hall)
    as (self' & E & Ht' & _ & _ & _ & Hup & Hpast & Hcr).
  assert (Hmax : max_rank_for_credit self' = m).
  { assert (Hgen : forall l s0 s1,
              EvalsWithRank.record_results s0 l = Some s1 ->
              max_rank_for_credit s1 = max_rank_for_credit s0).
    { clear. induction l as [| x l IH]; intros s0 s1; cbn;
        [intros [= <-]; reflexivity |].
      destruct (EvalsWithRank.record_result s0 x) as [s2 |] eqn:E1; [| discriminate].
      intros E. rewrite (IH _ _ E). unfold EvalsWithRank.record_result in E1.
      destruct (x <? 1); [discriminate |].
      destruct (Evals.record_result _ _ _); [| discriminate].
      destruct (x <=? _); injection E1 as <-; reflexivity. }
    rewrite (Hgen _ _ _ E). reflexivity. }
  cbn [EvalsWithRank.init max_rank_for_credit incorrect_by_exact_rank
       correct_by_up_to_rank incorrect_past_max_rank total_credit] in *.
  exists self', (Z.of_nat (length ranks)).
  split; [exact E |]. split; [rewrite Ht'; f_equal; lia |].
  split; [rewrite Hcr, Hmax; pose proof (credit_of_bounds m ranks Hm Hall); lia |].
  assert (Hupto : forall k, k <= m ->
            intdict_get (correct_by_up_to_rank self') k
            = count_of (fun x => x <=? k) ranks).
  { intros k Hk. rewrite Hup. unfold intdict_get at 1. rewrite lookup_empty. cbn.
    apply count_of_ext. intros x _.
    destruct (Z.leb_spec k m); [apply andb_true_r | lia]. }
  split.
  - intros _. rewrite Hupto, Hpast by lia.
    rewrite <- (count_of_split (fun x => x <=? m) ranks). f_equal.
    apply count_of_ext. intros x _. rewrite Z.leb_antisym, negb_involutive.
    reflexivity.
  - intros j k [Hjk Hk]. rewrite !Hupto by lia. apply count_of_le.
    intros x _ Hx. apply Z.leb_le in Hx. apply Z.leb_le. lia.
Qed.

End RankTables.

Section RankTablesExamples.

Lemma rank_tables_count_results_witness :
  exists self',
    EvalsWithRank.record_results (EvalsWithRank.init 10) [1; 3; 12; 3] = Some self' /\
    Evals.total_instances (rk_base self') = Some 4 /\
    Evals.correct_instances (rk_base self') = Some 1 /\
    intdict_get (incorrect_by_exact_rank self') 3 = 2 /\
    intdict_get (correct_by_up_to_rank self') 2 = 1 /\
    intdict_get (correct_by_up_to_rank self') 10 = 3 /\
    incorrect_past_max_rank self' = 1 /\
    total_credit self' = 26.
Proof.
  destruct (rank_tables_count_results 10 [1; 3; 12; 3]) as [H _].
  destruct H as (self' & E & Ht & Hc & _ & Hex & Hup & Hpast & Hcr).
  - repeat (constructor; [lia |]). constructor.
  - exists self'. split; [exact E |].
    rewrite Ht, Hc, Hex, !Hup, Hpast, Hcr. repeat split; vm_compute; reflexivity.
Defined.

Lemma rank_credit_is_bounded_witness :
  exists self' t,
    EvalsWithRank.record_results (EvalsWithRank.init 10) [1; 3; 12; 3] = Some self' /\
    Evals.total_instances (rk_base self') = Some t /\
    0 <= total_credit self' <= 10 * t.
Proof.
  destruct (rank_credit_is_bounded 10 [1; 3; 12; 3])
    as (self' & t & E & Ht & Hcr & _); [lia | |].
  - repeat (constructor; [lia |]). constructor.
  - exists self', t. split; [exact E |]. split; [exact Ht |].
    assert (Hm : max_rank_for_credit self' = 10).
    { vm_compute in E. injection E as <-. reflexivity. }
    rewrite Hm in Hcr. exact Hcr.
Defined.

End RankTablesExamples.

(** ** Contexts of toponyms *)

Section ContextProperties.
Variable nbcl : Z.
Variable stopwords : gset string.

Lemma context_at_empty results i :
  0 <= nbcl -> 0 <= i < Z.of_nat (length results) ->
  Documents.context_at nbcl stopwords results i = [].
Proof.
  intros Hn Hi. unfold Documents.context_at, StatRegions.range.
  rewrite seqZ_nil by lia. reflexivity.
Qed.

(** The context that [yield_documents] computes for a toponym is empty: for
    every non-negative context length, every word it yields (the words with a
    coordinate, when the strategy needs a context) has the empty list as its
    context, because the distances [range(i-minind, i-maxind)] run from a
    non-negative number down to a negative one. *)
Theorem yield_documents_contexts_are_empty (results : list GeogWord) (w : GeogWord) :
  0 <= nbcl ->
  w ∈ Documents.yield_document nbcl stopwords true results ->
  gw_context w = Some [] /\ is_Some (gw_coord w).
Proof.
  intros Hn Hw. unfold Documents.yield_document in Hw.
  apply list_elem_of_In, filter_In in Hw as [Hw Hc].
  apply list_elem_of_In, elem_of_lookup_imap_1 in Hw as (i & y & -> & Hy).
  unfold Documents.set_context in *.
  destruct (gw_coord y) as [c |] eqn:Ey.
  - cbn [gw_context gw_coord]. split; [| eauto].
    f_equal. apply context_at_empty; [exact Hn |].
    apply lookup_lt_Some in Hy. lia.
  - rewrite Ey in Hc. discriminate Hc.
Qed.

End ContextProperties.

Section ContextExamples.
#[local] Open Scope R_scope.

Lemma yield_documents_contexts_are_empty_witness :
  gw_context <$>
    Documents.yield_document 10 ∅ true
      [word_of_file "flights" None; word_of_file "to" None;
       word_of_file "Austin" (Some {| lat := 30.27; long := -97.74 |});
       word_of_file "resumed" None]
  = [Some []].
Proof.
  assert (E : exists w,
            Documents.yield_document 10 ∅ true
              [word_of_file "flights" None; word_of_file "to" None;
               word_of_file "Austin" (Some {| lat := 30.27; long := -97.74 |});
               word_of_file "resumed" None] = [w]).
  { eexists. unfold Documents.yield_document. cbn. reflexivity. }
  destruct E as [w E]. rewrite E. cbn. do 2 f_equal.
  apply (yield_documents_contexts_are_empty 10 ∅
           [word_of_file "flights" None; word_of_file "to" None;
            word_of_file "Austin" (Some {| lat := 30.27; long := -97.74 |});
            word_of_file "resumed" None] w); [lia |].
  rewrite E. left.
Defined.

End ContextExamples.

(** ** Disambiguating a toponym *)

Section DisambiguateProperties.
#[local] Open Scope R_scope.
Variable compute_score : Article -> option R.
Variable matches_coord : Article -> bool.

Lemma article_in_app a l1 l2 :
  article_in a (l1 ++ l2) = (article_in a l1 || article_in a l2)%bool.
Proof. unfold article_in. apply existsb_app. Qed.

(** The loop over the locations appends to the list: the new articles are
    matches that were not in the list. *)
Lemma add_matches_appends ms : forall l,
  exists new,
    Toponyms.add_matches l ms = l ++ new /\
    forall a, In a new -> In (Some a) ms /\ article_in a l = false.
Proof.
  induction ms as [| [m |] ms IH]; intros l; cbn [Toponyms.add_matches].
  - exists []. split; [symmetry; apply app_nil_r | intros a []].
  - destruct (article_in m l) eqn:Em.
    + destruct (IH l) as (new & E & Hnew). exists new. split; [exact E |].
      intros a Ha. destruct (Hnew a Ha). split; [right |]; assumption.
    + destruct (IH (l ++ [m])) as (new & E & Hnew). exists (m :: new).
      split; [rewrite E, <- app_assoc; reflexivity |].
      intros a [<- | Ha]; [split; [left; reflexivity | exact Em] |].
      destruct (Hnew a Ha) as [H1 H2]. split; [right; exact H1 |].
      rewrite article_in_app in H2. apply orb_false_iff in H2 as [H2 _]. exact H2.
  - destruct (IH l) as (new & E & Hnew). exists new. split; [exact E |].
    intros a Ha. destruct (Hnew a Ha). split; [right |]; assumption.
Qed.

Lemma add_matches_keeps ms : forall l a,
  article_in a l = true -> article_in a (Toponyms.add_matches l ms) = true.
Proof.
  intros l a Ha. destruct (add_matches_appends ms l) as (new & -> & _).
  rewrite article_in_app, Ha. reflexivity.
Qed.

Lemma add_matches_lists ms : forall l m,
  In (Some m) ms -> article_in m (Toponyms.add_matches l ms) = true.
Proof.
  induction ms as [| [m0 |] ms IH]; intros l m Hin; cbn [Toponyms.add_matches].
  - destruct Hin.
  - destruct Hin as [[= ->] | Hin].
    + destruct (article_in m l) eqn:Em; apply add_matches_keeps; [exact Em |].
      rewrite article_in_app. cbn. rewrite same_article_refl.
      apply orb_true_iff. right. reflexivity.
    + destruct (article_in m0 l); apply IH, Hin.
  - destruct Hin as [Hin | Hin]; [discriminate Hin | apply IH, Hin].
Qed.

Lemma add_matches_fixed ms : forall l,
  (forall m, In (Some m) ms -> article_in m l = true) ->
  Toponyms.add_matches l ms = l.
Proof.
  induction ms as [| [m |] ms IH]; intros l H; cbn [Toponyms.add_matches];
    [reflexivity | |].
  - rewrite (H m (or_introl eq_refl)). apply IH. intros m' Hm'. apply H. right; exact Hm'.
  - apply IH. intros m' Hm'. apply H. right; exact Hm'.
Qed.

(** The loop over the candidate articles. *)
Lemma best_loop_spec l : forall bs ba bs' ba',
  Toponyms.best_loop compute_score l bs ba = Some (bs', ba') ->
  bs <= bs' /\
  (forall a sa, In a l -> compute_score a = Some sa -> sa <= bs') /\
  ((bs' = bs /\ ba' = ba) \/
   exists l1 b l2,
     l = l1 ++ b :: l2 /\ ba' = Some b /\ compute_score b = Some bs' /\ bs < bs' /\
     forall a sa, In a l1 -> compute_score a = Some sa -> sa < bs').
Proof.
  induction l as [| art l IH]; intros bs ba bs' ba'; cbn [Toponyms.best_loop].
  - intros [= <- <-]. split; [lra |]. split; [intros a sa [] | left; auto].
  - destruct (compute_score art) as [s |] eqn:Es; [| discriminate].
    destruct (Rlt_dec bs s) as [Hlt | Hge]; intros E;
      destruct (IH _ _ _ _ E) as (Hle & Hall & Hcase).
    + split; [lra |]. split.
      * intros a sa [<- | Ha] Hsa; [rewrite Es in Hsa; injection Hsa as <-; exact Hle |].
        exact (Hall a sa Ha Hsa).
      * right. destruct Hcase as [[-> ->] | (l1 & b & l2 & -> & -> & Hb & Hs & Hl1)].
        -- exists [], art, l. repeat split; auto. intros a sa [].
        -- exists (art :: l1), b, l2. repeat split; auto; [lra |].
           intros a sa [<- | Ha] Hsa; [rewrite Es in Hsa; injection Hsa as <-; exact Hs |].
           exact (Hl1 a sa Ha Hsa).
    + split; [exact Hle |]. split.
      * intros a sa [<- | Ha] Hsa; [rewrite Es in Hsa; injection Hsa as <-; lra |].
        exact (Hall a sa Ha Hsa).
      * destruct Hcase as [[-> ->] | (l1 & b & l2 & -> & -> & Hb & Hs & Hl1)];
          [left; auto |].
        right. exists (art :: l1), b, l2. repeat split; auto.
        intros a sa [<- | Ha] Hsa; [rewrite Es in Hsa; injection Hsa as <-; lra |].
        exact (Hl1 a sa Ha Hsa).
Qed.

Lemma best_loop_returns l : forall bs ba,
  (forall a, In a l -> is_Some (compute_score a)) ->
  is_Some (Toponyms.best_loop compute_score l bs ba).
Proof.
  induction l as [| art l IH]; intros bs ba H; cbn [Toponyms.best_loop]; [eauto |].
  destruct (H art (or_introl eq_refl)) as [s ->].
  destruct (Rlt_dec bs s); apply IH; intros a Ha; apply H; right; exact Ha.
Qed.

(** The article that [disambiguate_toponym] selects is the first candidate
    with the highest score: when there are candidates and every candidate
    has a score above [-1e308], the selected article has a score that no
    candidate exceeds, every candidate before it has a strictly lower score,
    and the result is correct exactly when that article matches the
    coordinate. *)
Theorem best_article_is_first_maximum
    (articles0 : list Article) (matches : list (option Article)) :
  let articles := Toponyms.add_matches articles0 matches in
  articles <> [] ->
  (forall a, In a articles ->
     exists s, compute_score a = Some s /\ Toponyms.lowest_score < s) ->
  exists l1 b l2 sb reason,
    Toponyms.judge compute_score matches_coord articles0 matches
    = Some (articles, Some b, matches_coord b, reason) /\
    articles = l1 ++ b :: l2 /\
    compute_score b = Some sb /\
    (forall a sa, In a articles -> compute_score a = Some sa -> sa <= sb) /\
    (forall a sa, In a l1 -> compute_score a = Some sa -> sa < sb).
Proof.
  intros articles Hne Hscores. unfold Toponyms.judge. fold articles.
  destruct articles as [| a0 l0] eqn:Ea; [contradiction |].
  destruct (best_loop_returns (a0 :: l0) Toponyms.lowest_score None)
    as [[bs' ba'] E].
  { intros a Ha. destruct (Hscores a Ha) as (s & -> & _). eauto. }
  rewrite E. destruct (best_loop_spec _ _ _ _ _ E) as (Hle & Hall & Hcase).
  destruct Hcase as [[-> ->] | (l1 & b & l2 & El & -> & Hb & Hs & Hl1)].
  - exfalso. destruct (Hscores a0 (or_introl eq_refl)) as (s & Hs & Hlow).
    pose proof (Hall a0 s (or_introl eq_refl) Hs). lra.
  - exists l1, b, l2, bs'. eexists. split; [reflexivity |]. auto.
Qed.

(** The reason that [disambiguate_toponym] records is one that
    [record_result] knows: it is [None] exactly for a correct result, and
    otherwise one of the five names of the table of [Results];
    'incorrect_with_no_candidates' is given exactly when there is no
    candidate, and 'incorrect_with_no_correct_candidates' exactly when there
    are candidates, the result is incorrect and no candidate matches the
    coordinate. *)
Theorem disambiguation_reason_is_known
    (articles0 : list Article) (matches : list (option Article))
    (articles : list Article) (best : option Article) (correct : bool)
    (reason : option string) :
  Toponyms.judge compute_score matches_coord articles0 matches
  = Some (articles, best, correct, reason) ->
  toponym_reason reason /\
  (reason = None <-> correct = true) /\
  (correct = true -> exists b, best = Some b /\ matches_coord b = true) /\
  (reason = Some "incorrect_with_no_candidates"%string <-> articles = []) /\
  (reason = Some "incorrect_with_no_correct_candidates"%string <->
   articles <> [] /\ correct = false /\
   forall a, In a articles -> matches_coord a = false).
Proof.
  unfold Toponyms.judge.
  assert (Hreason : forall a l,
            In (Toponyms.incorrect_reason matches_coord (a :: l))
               (map fst Evals.incorrect_geotag_toponym_reasons) /\
            Toponyms.incorrect_reason matches_coord (a :: l)
            <> "incorrect_with_no_candidates"%string /\
            (Toponyms.incorrect_reason matches_coord (a :: l)
             = "incorrect_with_no_correct_candidates"%string <->
             forall x, In x (a :: l) -> matches_coord x = false)).
  { intros a l. unfold Toponyms.incorrect_reason.
    destruct (List.filter matches_coord (a :: l)) as [| g [| g2 gs]] eqn:Ef.
    - split; [cbn; auto |]. split; [discriminate |]. split; [| reflexivity].
      intros _ x Hx. destruct (matches_coord x) eqn:Ex; [| reflexivity].
      assert (Hin : In x (List.filter matches_coord (a :: l)))
        by (apply filter_In; auto).
      rewrite Ef in Hin. destruct Hin.
    - assert (Hg : In g (a :: l) /\ matches_coord g = true).
      { apply filter_In. rewrite Ef. left. reflexivity. }
      destruct (art_incoming_links g); (split; [cbn; auto 10 |]);
        (split; [discriminate |]); (split; [discriminate |]);
        intros Hall; destruct Hg as [Hg1 Hg2]; rewrite (Hall g Hg1) in Hg2;
        discriminate.
    - assert (Hg : In g (a :: l) /\ matches_coord g = true).
      { apply filter_In. rewrite Ef. left. reflexivity. }
      split; [cbn; auto 10 |]. split; [discriminate |]. split; [discriminate |].
      intros Hall. destruct Hg as [Hg1 Hg2]. rewrite (Hall g Hg1) in Hg2.
      discriminate. }
  destruct (Toponyms.add_matches articles0 matches) as [| a l] eqn:Ea.
  - intros [= <- <- <- <-]. cbn.
    split; [auto |]. split; [split; discriminate |]. split; [discriminate |].
    split; [split; reflexivity |].
    split; [discriminate | intros [H _]; contradiction].
  - destruct (Toponyms.best_loop _ _ _ _) as [[bs ba] |]; [| discriminate].
    intros [= <- <- <- <-]. destruct (Hreason a l) as (Hin & Hno & Hnc).
    destruct ba as [b |]; [destruct (matches_coord b) eqn:Eb |].
    + split; [exact I |]. split; [split; reflexivity |]. split; [eauto |].
      split; [split; discriminate |].
      split; [discriminate | intros (_ & H & _); discriminate H].
    + split; [exact Hin |]. split; [split; discriminate |]. split; [discriminate |].
      split; [split; [intros [= H]; contradiction | discriminate] |].
      split.
      * intros [= H]. split; [discriminate |]. split; [reflexivity |]. apply Hnc, H.
      * intros (_ & _ & H). f_equal. apply Hnc, H.
    + split; [exact Hin |]. split; [split; discriminate |]. split; [discriminate |].
      split; [split; [intros [= H]; contradiction | discriminate] |].
      split.
      * intros [= H]. split; [discriminate |]. split; [reflexivity |]. apply Hnc, H.
      * intros (_ & _ & H). f_equal. apply Hnc, H.
Qed.

End DisambiguateProperties.

Section DisambiguateToponym.
#[local] Open Scope R_scope.
Variable compute_score : Article -> option R.
Variable matches_coord : Article -> bool.

Lemma incorrect_reason_in_table l :
  In (Toponyms.incorrect_reason matches_coord l)
     (map fst Evals.incorrect_geotag_toponym_reasons).
Proof.
  unfold Toponyms.incorrect_reason. destruct l as [| a l]; [cbn; auto |].
  destruct (List.filter matches_coord (a :: l)) as [| g [| g2 gs]];
    [cbn; auto | destruct (art_incoming_links g); cbn; auto 10 | cbn; auto 10].
Qed.

Lemma judge_reason_known articles0 matches articles best correct reason :
  Toponyms.judge compute_score matches_coord articles0 matches
  = Some (articles, best, correct, reason) ->
  toponym_reason reason /\
  articles = Toponyms.add_matches articles0 matches.
Proof.
  unfold Toponyms.judge.
  destruct (Toponyms.add_matches articles0 matches) as [| a l] eqn:Ea.
  - intros [= <- <- <- <-]. split; [apply (incorrect_reason_in_table []) | reflexivity].
  - destruct (Toponyms.best_loop _ _ _ _) as [[bs ba] |]; [| discriminate].
    intros [= <- <- <- <-]. split; [| reflexivity].
    destruct (match ba with Some art => matches_coord art | None => false end);
      [exact I | apply (incorrect_reason_in_table (a :: l))].
Qed.

Lemma judge_returns articles0 matches :
  (forall a, In a (Toponyms.add_matches articles0 matches) ->
     is_Some (compute_score a)) ->
  is_Some (Toponyms.judge compute_score matches_coord articles0 matches).
Proof.
  intros H. unfold Toponyms.judge.
  destruct (Toponyms.add_matches articles0 matches) as [| a l]; [eauto |].
  destruct (best_loop_returns compute_score (a :: l) Toponyms.lowest_score None H)
    as [[bs ba] ->].
  eauto.
Qed.

Lemma sound_counters self :
  sound self ->
  exists t c i,
    Evals.total_instances self = Some t /\ Evals.correct_instances self = Some c /\
    Evals.incorrect_instances self = Some i.
Proof.
  intros [Hcnt _].
  destruct (Hcnt "total_instances"%string) as [t Ht]; [cbn; auto |].
  destruct (Hcnt "correct_instances"%string) as [c Hc]; [cbn; auto |].
  destruct (Hcnt "incorrect_instances"%string) as [i Hi]; [cbn; auto |].
  exists t, c, i. auto.
Qed.

Lemma disambiguate_toponym_returns
    (t : ArticleTable) (cls : ToponymResults) (matches : list (option Article))
    (geogword : GeogWord) :
  results_ok cls ->
  (forall a,
     In a (Toponyms.add_matches
             (lower_toponym_to_article t !!! Str.lower (gw_word geogword)) matches) ->
     is_Some (compute_score a)) ->
  is_Some (gw_coord geogword) -> is_Some (gw_location geogword) ->
  exists t' cls' total,
    Toponyms.disambiguate_toponym compute_score matches_coord t cls matches geogword
    = Some (t', cls') /\
    results_ok cls' /\
    Evals.total_instances (cl_base (all_toponym cls)) = Some total /\
    Evals.total_instances (cl_base (all_toponym cls')) = Some (total + 1)%Z.
Proof.
  intros (Ha & Hs & Hh) Hscores [c Hc] [trueloc Hl].
  unfold Toponyms.disambiguate_toponym. rewrite Hc, Hl.
  destruct (judge_returns _ matches Hscores) as [[[[articles best] correct] reason] Ej].
  rewrite Ej. destruct (judge_reason_known _ _ _ _ _ _ Ej) as [Hreason _].
  destruct Ha as [Ha1 Ha2], Hs as [Hs1 Hs2], Hh as [Hh1 Hh2].
  destruct (sound_counters _ Ha1) as (ta & ca & ia & Hta & Hca & Hia).
  destruct (sound_counters _ Hs1) as (ts & cs & js & Hts & Hcs & Hjs).
  destruct (sound_counters _ Hh1) as (th & ch & jh & Hth & Hch & Hjh).
  destruct (toponym_result_step cls
              {| tr_correct := correct; tr_toponym := gw_word geogword;
                 tr_trueloc := trueloc; tr_reason := reason;
                 tr_num_arts := Z.of_nat (length articles) |}
              ta ca ia ts cs js th ch jh)
    as (cls' & ca' & ia' & cs' & js' & ch' & jh' & E & Hoka & Hoks & Hokh);
    [split; [exact Ha1 | repeat split; assumption]
     | split; [exact Hs1 | repeat split; assumption]
     | split; [exact Hh1 | repeat split; assumption] | exact Hreason |].
  rewrite E. eexists _, cls', ta. split; [reflexivity |].
  destruct Hoka as (H1 & H2 & H3 & _), Hoks as (H4 & H5 & _), Hokh as (H6 & H7 & _).
  split; [| split; assumption].
  split; [split; assumption |]. split; split; assumption.
Qed.

(** [disambiguate_toponym] records exactly one result for a toponym with a
    coordinate and a true location, and none for a word without a
    coordinate: whenever the strategy returns a score for every candidate and
    the accumulators of [Results] are as [Results] builds and keeps them, the
    call returns, the accumulators stay so, and [all_toponym] has counted one
    more instance. *)
Theorem disambiguate_toponym_records_one_result
    (t : ArticleTable) (cls : ToponymResults) (matches : list (option Article))
    (geogword : GeogWord) :
  results_ok cls ->
  (forall a,
     In a (Toponyms.add_matches
             (lower_toponym_to_article t !!! Str.lower (gw_word geogword)) matches) ->
     is_Some (compute_score a)) ->
  (gw_coord geogword = None ->
   Toponyms.disambiguate_toponym compute_score matches_coord t cls matches geogword
   = Some (t, cls)) /\
  (is_Some (gw_coord geogword) -> is_Some (gw_location geogword) ->
   exists t' cls' total,
     Toponyms.disambiguate_toponym compute_score matches_coord t cls matches geogword
     = Some (t', cls') /\
     results_ok cls' /\
     Evals.total_instances (cl_base (all_toponym cls)) = Some total /\
     Evals.total_instances (cl_base (all_toponym cls')) = Some (total + 1)%Z).
Proof.
  intros Hok Hscores. split.
  - intros Hc. unfold Toponyms.disambiguate_toponym. rewrite Hc. reflexivity.
  - apply disambiguate_toponym_returns; assumption.
Qed.

(** [disambiguate_toponym] files the matches of the gazetteer locations in
    the article table: after a call for a toponym with a coordinate, the
    list of [lower_toponym_to_article] for the lowercased toponym is the
    former list followed by the matches that were not in it, every match is
    in it, and the other lists are as before; a second call for the same
    toponym and locations leaves the table unchanged. *)
Theorem disambiguate_toponym_files_matches
    (t t' : ArticleTable) (cls cls' : ToponymResults)
    (matches : list (option Article)) (geogword : GeogWord) :
  Toponyms.disambiguate_toponym compute_score matches_coord t cls matches geogword
  = Some (t', cls') ->
  is_Some (gw_coord geogword) ->
  let lotop := Str.lower (gw_word geogword) in
  let old := lower_toponym_to_article t !!! lotop in
  (exists new,
     lower_toponym_to_article t' !!! lotop = old ++ new /\
     forall a, In a new -> In (Some a) matches /\ article_in a old = false) /\
  (forall m, In (Some m) matches ->
     article_in m (lower_toponym_to_article t' !!! lotop) = true) /\
  (forall k, k <> lotop ->
     lower_toponym_to_article t' !! k = lower_toponym_to_article t !! k) /\
  (forall cls2 t2 cls2',
     Toponyms.disambiguate_toponym compute_score matches_coord t' cls2 matches
       geogword = Some (t2, cls2') ->
     lower_toponym_to_article t2 = lower_toponym_to_article t').
Proof.
  intros E [c Hc] lotop old.
  assert (Hstep : forall t0 cls0 t1 cls1,
            Toponyms.disambiguate_toponym compute_score matches_coord t0 cls0 matches
              geogword = Some (t1, cls1) ->
            lower_toponym_to_article t1
            = <[lotop := Toponyms.add_matches (lower_toponym_to_article t0 !!! lotop)
                           matches]> (lower_toponym_to_article t0)).
  { intros t0 cls0 t1 cls1. unfold Toponyms.disambiguate_toponym. rewrite Hc.
    fold lotop.
    destruct (Toponyms.judge _ _ _ _) as [[[[articles best] correct] reason] |] eqn:Ej;
      [| discriminate].
    destruct (gw_location geogword); [| discriminate].
    destruct (Results.record_geotag_toponym_result _ _); [| discriminate].
    intros [= <- _]. cbn.
    destruct (judge_reason_known _ _ _ _ _ _ Ej) as [_ ->]. reflexivity. }
  pose proof (Hstep _ _ _ _ E) as Ht'. fold old in Ht'.
  split; [| split; [| split]].
  - rewrite Ht', lookup_total_insert_eq. apply add_matches_appends.
  - intros m Hm. rewrite Ht', lookup_total_insert_eq. apply add_matches_lists, Hm.
  - intros k Hk. rewrite Ht'. apply lookup_insert_ne. congruence.
  - intros cls2 t2 cls2' E2. rewrite (Hstep _ _ _ _ E2), Ht'.
    rewrite lookup_total_insert_eq, insert_insert_eq. f_equal.
    apply add_matches_fixed. intros m Hm. apply add_matches_lists, Hm.
Qed.

End DisambiguateToponym.

Section DisambiguateExamples.
#[local] Open Scope R_scope.

Lemma lowest_score_negative : Toponyms.lowest_score < 0.
Proof.
  unfold Toponyms.lowest_score. assert (0 < 10 ^ 308) by (apply pow_lt; lra). lra.
Qed.

Lemma link_score_of_austin : link_score austin_article = Some 120.
Proof. reflexivity. Qed.

Lemma link_score_of_springfield : link_score springfield = Some 30.
Proof. reflexivity. Qed.

Lemma results_init_ok : results_ok Results.init.
Proof.
  destruct (candidate_list_init_sound Evals.incorrect_geotag_toponym_reasons 5
              toponym_reasons_fresh) as (Hs & Hr & _).
  split; [split; assumption |]. split; split; assumption.
Qed.

Lemma results_init_total :
  Evals.total_instances (cl_base (all_toponym Results.init)) = Some 0%Z.
Proof.
  destruct (candidate_list_init_sound Evals.incorrect_geotag_toponym_reasons 5
              toponym_reasons_fresh) as (_ & _ & Ht & _).
  exact Ht.
Qed.

Lemma best_article_is_first_maximum_witness :
  exists l1 b l2 sb reason,
    Toponyms.judge link_score (fun _ => true) [springfield; austin_article] []
    = Some ([springfield; austin_article], Some b, true, reason) /\
    [springfield; austin_article] = l1 ++ b :: l2 /\
    link_score b = Some sb /\ 120 <= sb.
Proof.
  destruct (best_article_is_first_maximum link_score (fun _ => true)
              [springfield; austin_article] [])
    as (l1 & b & l2 & sb & reason & E & El & Hb & Hmax & _).
  - discriminate.
  - pose proof lowest_score_negative.
    intros a [<- | [<- | []]]; eexists; (split; [reflexivity |]); cbn; lra.
  - exists l1, b, l2, sb, reason. split; [exact E |]. split; [exact El |].
    split; [exact Hb |].
    apply (Hmax austin_article 120); [right; left; reflexivity | reflexivity].
Defined.

Lemma disambiguation_reason_is_known_witness :
  toponym_reason (Some "incorrect_with_no_candidates"%string).
Proof.
  destruct (disambiguation_reason_is_known link_score (fun _ => true) [] [] []
              None false (Some "incorrect_with_no_candidates"%string) eq_refl)
    as (H & _).
  exact H.
Defined.

Lemma disambiguate_toponym_records_one_result_witness :
  exists t' cls',
    Toponyms.disambiguate_toponym link_score (fun _ => true) austin_table
      Results.init [] austin_word = Some (t', cls') /\
    Evals.total_instances (cl_base (all_toponym cls')) = Some 1%Z.
Proof.
  destruct (disambiguate_toponym_records_one_result link_score (fun _ => true)
              austin_table Results.init [] austin_word results_init_ok) as [_ H].
  - intros a _. unfold link_score. eauto.
  - destruct H as (t' & cls' & total & E & _ & Ht & Ht'); [cbn; eauto | cbn; eauto |].
    rewrite results_init_total in Ht. injection Ht as <-.
    exists t', cls'. split; [exact E | exact Ht'].
Defined.

Lemma disambiguate_toponym_files_matches_witness :
  exists t' cls',
    Toponyms.disambiguate_toponym link_score (fun _ => true) ArticleTables.initial
      Results.init [Some austin_article; None; Some austin_article] austin_word
    = Some (t', cls') /\
    article_in austin_article (lower_toponym_to_article t' !!! "austin") = true.
Proof.
  destruct (disambiguate_toponym_returns link_score (fun _ => true)
              ArticleTables.initial Results.init
              [Some austin_article; None; Some austin_article] austin_word
              results_init_ok)
    as (t' & cls' & _ & E & _).
  - intros a _. unfold link_score. eauto.
  - cbn. eauto.
  - cbn. eauto.
  - exists t', cls'. split; [exact E |].
    destruct (disambiguate_toponym_files_matches link_score (fun _ => true)
                ArticleTables.initial t' Results.init cls'
                [Some austin_article; None; Some austin_article] austin_word E)
      as (_ & Hlisted & _); [cbn; eauto |].
    apply (Hlisted austin_article). left. reflexivity.
Defined.

End DisambiguateExamples.

(** ** The ring search below its first radius, and link counts *)

Section SmallLimit.
#[local] Open Scope R_scope.

(** With [max_dist_for_close_match] below 5 the matching loop of
    [match_world_gazetteer_entry] never runs its body: no radius is tried,
    and the test [if not match] that follows reads a variable that was never
    assigned, which raises. *)
Theorem match_locality_below_first_radius
    (py_sorted : (Article -> Article -> Z) -> list Article -> list Article)
    (M : MathModule) (G : Globals) (t : ArticleTable) (loc : Locality) :
  max_dist_for_close_match (Opts G) < 5 ->
  WorldGazetteer.match_locality py_sorted M G t loc
  = Some ([], WorldGazetteer.Unbound).
Proof. intros H. unfold WorldGazetteer.match_locality. apply ring_search_unbound, H. Qed.

Lemma match_locality_below_first_radius_witness :
  WorldGazetteer.match_locality sorted_desc exact_math (globals_with_limit 3)
    austin_table austin
  = Some ([], WorldGazetteer.Unbound).
Proof. apply match_locality_below_first_radius. cbn. lra. Defined.

(** [get_adjusted_incoming_links] never returns 0 and keeps the order of the
    link counts: for articles whose count is unknown or not negative the
    result is positive (so its logarithm exists), an unknown count ranks
    like 0, and a smaller count gives a smaller result. *)
Theorem adjusted_links_are_positive_and_ordered (a b : Article) :
  (0 <= links_of a)%Z -> (0 <= links_of b)%Z ->
  0 < Strategies.get_adjusted_incoming_links a /\
  ((links_of a < links_of b)%Z ->
   Strategies.get_adjusted_incoming_links a
   < Strategies.get_adjusted_incoming_links b) /\
  (links_of a = links_of b ->
   Strategies.get_adjusted_incoming_links a
   = Strategies.get_adjusted_incoming_links b).
Proof.
  assert (Hadj : forall x,
            Strategies.get_adjusted_incoming_links x
            = if (links_of x =? 0)%Z then 0.01 else IZR (links_of x)).
  { intros x. unfold Strategies.get_adjusted_incoming_links, links_of.
    destruct (art_incoming_links x); reflexivity. }
  intros Ha Hb. rewrite !Hadj.
  assert (Hone : forall z : Z, (0 <= z)%Z -> (z =? 0)%Z = false -> 1 <= IZR z).
  { intros z Hz Hne. apply Z.eqb_neq in Hne. apply IZR_le. lia. }
  split; [| split].
  - destruct (links_of a =? 0)%Z eqn:Ea; [lra |]. pose proof (Hone _ Ha Ea). lra.
  - intros Hlt. destruct (links_of a =? 0)%Z eqn:Ea, (links_of b =? 0)%Z eqn:Eb.
    + apply Z.eqb_eq in Ea, Eb. lia.
    + pose proof (Hone _ Hb Eb). lra.
    + apply Z.eqb_eq in Eb. lia.
    + apply IZR_lt, Hlt.
  - intros ->. reflexivity.
Qed.

Lemma adjusted_links_are_positive_and_ordered_witness :
  Strategies.get_adjusted_incoming_links springfield
  < Strategies.get_adjusted_incoming_links austin_article.
Proof.
  destruct (adjusted_links_are_positive_and_ordered springfield austin_article)
    as (_ & Hlt & _); [cbn; lia | cbn; lia |].
  apply Hlt. cbn. lia.
Defined.

End SmallLimit.

(** ** Reading the article data *)

Section ReadArticleDataProperties.
Variable G : Globals.

Lemma record_article_splits t name art is_redirect t' :
  ArticleTables.record_article t name art is_redirect = Some t' ->
  forall split,
    articles_by_split t' !!! split
    = (articles_by_split t !!! split)
      ++ (if negb is_redirect && String.eqb (art_split art) split then [art] else []).
Proof.
  unfold ArticleTables.record_article.
  destruct (negb (String.eqb name (Str.capfirst name))); [discriminate |].
  destruct (compute_short_form (Str.lower name)) as [short div].
  intros [= <-] split. cbn [articles_by_split].
  destruct is_redirect; cbn [negb andb]; [symmetry; apply app_nil_r |].
  destruct (String.eqb_spec (art_split art) split) as [<- | Hne].
  - rewrite lookup_total_insert_eq. f_equal.
    destruct (articles_by_split t !! art_split art) as [l |] eqn:El; [reflexivity |].
    rewrite lookup_total_insert_eq, lookup_total_alt, El. reflexivity.
  - rewrite app_nil_r, lookup_total_insert_ne by exact Hne.
    destruct (articles_by_split t !! art_split art); [reflexivity |].
    apply lookup_total_insert_ne, Hne.
Qed.

Lemma add_article_tiles s art s' :
  StatRegions.add_article_to_region G s art = Some s' ->
  corner_to_stat_region s' = corner_to_stat_region s /\
  heap s' = heap s /\ all_regions_computed s' = all_regions_computed s /\
  forall k,
    tiling_region_to_articles s' !!! k
    = (tiling_region_to_articles s !!! k)
      ++ (if match art_coord art with
             | Some c => bool_decide (Coords.coord_to_tiling_region_indices G c = k)
             | None => false
             end then [art] else []).
Proof.
  unfold StatRegions.add_article_to_region.
  destruct (art_coord art) as [c |]; [| discriminate].
  intros [= <-]. cbn. do 3 (split; [reflexivity |]). intros k.
  destruct (bool_decide _) eqn:Eb.
  - apply bool_decide_eq_true_1 in Eb. subst k. apply lookup_total_insert_eq.
  - apply bool_decide_eq_false_1 in Eb.
    rewrite app_nil_r. apply lookup_total_insert_ne, Eb.
Qed.

Lemma filter_app_singleton {A} (P : A -> bool) l x :
  List.filter P (l ++ [x]) = List.filter P l ++ (if P x then [x] else []).
Proof. rewrite List.filter_app. cbn. destruct (P x); reflexivity. Qed.

(** The loop of [process] over the rows, from any state. *)
Lemma process_all_spec rows : forall t s redirects t1 s1 redirects1,
  Reader.process_all G (t, s, redirects) rows = Some (t1, s1, redirects1) ->
  (forall split,
     articles_by_split t1 !!! split
     = (articles_by_split t !!! split) ++ recorded_in_split rows split) /\
  (forall k,
     tiling_region_to_articles s1 !!! k
     = (tiling_region_to_articles s !!! k) ++ filed_in_tile G rows k) /\
  corner_to_stat_region s1 = corner_to_stat_region s /\
  heap s1 = heap s /\ all_regions_computed s1 = all_regions_computed s /\
  redirects1
  = redirects
    ++ List.filter (fun row => String.eqb (row_namespace row) "Main"
                               && negb (String.eqb (row_redir row) EmptyString))
         rows.
Proof.
  induction rows as [| row rows IH]; intros t s redirects t1 s1 redirects1;
    cbn [Reader.process_all].
  - intros [= <- <- <-]. unfold recorded_in_split, filed_in_tile, recorded_articles.
    cbn. repeat split; intros; rewrite app_nil_r; reflexivity.
  - unfold recorded_in_split, filed_in_tile, recorded_articles, is_recorded in *.
    cbn [List.filter]. unfold Reader.process.
    destruct (String.eqb (row_namespace row) "Main") eqn:En; cbn [negb andb];
      [| intros E; exact (IH _ _ _ _ _ _ E)].
    destruct (String.eqb (row_redir row) EmptyString) eqn:Er; cbn [negb andb].
    + destruct (art_coord (row_article row)) as [c |] eqn:Ec;
        [| intros E; exact (IH _ _ _ _ _ _ E)].
      destruct (ArticleTables.record_article t _ _ false) as [t0 |] eqn:Erec;
        [| discriminate].
      pose proof (record_article_splits _ _ _ _ _ Erec) as Hsplit.
      cbn [map List.filter].
      destruct (String.eqb (art_split (row_article row)) "training") eqn:Et.
      * destruct (StatRegions.add_article_to_region G s (row_article row))
          as [s0 |] eqn:Eadd; [| discriminate].
        destruct (add_article_tiles _ _ _ Eadd) as (Hc0 & Hh0 & Ha0 & Htile).
        intros E. destruct (IH _ _ _ _ _ _ E) as (H1 & H2 & H3 & H4 & H5 & H6).
        split; [| split; [| repeat split; congruence]].
        -- intros split. rewrite H1, Hsplit. cbn [negb andb].
           rewrite <- app_assoc. f_equal.
           destruct (String.eqb (art_split (row_article row)) split); reflexivity.
        -- intros k. rewrite H2, Htile, Ec. cbn [andb].
           rewrite <- app_assoc. f_equal.
           destruct (bool_decide _); reflexivity.
      * intros E. destruct (IH _ _ _ _ _ _ E) as (H1 & H2 & H3 & H4 & H5 & H6).
        split; [| split; [| repeat split; assumption]].
        -- intros split. rewrite H1, Hsplit. cbn [negb andb].
           rewrite <- app_assoc. f_equal.
           destruct (String.eqb (art_split (row_article row)) split); reflexivity.
        -- intros k. rewrite H2. reflexivity.
    + intros E. destruct (IH _ _ _ _ _ _ E) as (H1 & H2 & H3 & H4 & H5 & H6).
      repeat split; try assumption. rewrite H6, <- app_assoc. reflexivity.
Qed.

Lemma resolve_redirects_splits redirects : forall t t',
  Reader.resolve_redirects t redirects = Some t' ->
  articles_by_split t' = articles_by_split t.
Proof.
  induction redirects as [| x redirects IH]; intros t t';
    cbn [Reader.resolve_redirects]; [intros [= <-]; reflexivity |].
  destruct (ArticleTables.lookup_article t (row_redir x)) as [redart |];
    [| apply IH].
  destruct (ArticleTables.record_article t _ redart true) as [t0 |] eqn:Erec;
    [| discriminate].
  intros E. rewrite (IH _ _ E). revert Erec. unfold ArticleTables.record_article.
  destruct (negb _); [discriminate |].
  destruct (compute_short_form _) as [short div]. intros [= <-]. reflexivity.
Qed.

(** [read_article_data] enters in the enumeration of a split exactly the
    articles of the file that are in the main namespace, are not redirects,
    have a coordinate and are of that split, in the order of the file, and
    it files in a tiling region exactly those of them that are training
    articles with a coordinate in that region; redirects and articles
    without a coordinate are in neither, and no statistical region is
    built. *)
Theorem read_article_data_fills_splits_and_tiles
    (t t' : ArticleTable) (s s' : StatRegionClass) (rows : list ArticleRow) :
  Reader.read_article_data G t s rows = Some (t', s') ->
  (forall split,
     articles_by_split t' !!! split
     = (articles_by_split t !!! split) ++ recorded_in_split rows split) /\
  (forall k,
     tiling_region_to_articles s' !!! k
     = (tiling_region_to_articles s !!! k) ++ filed_in_tile G rows k) /\
  corner_to_stat_region s' = corner_to_stat_region s /\
  heap s' = heap s /\
  all_regions_computed s' = all_regions_computed s.
Proof.
  unfold Reader.read_article_data.
  destruct (Reader.process_all G (t, s, []) rows) as [[[t1 s1] redirects] |] eqn:E1;
    [| discriminate].
  destruct (Reader.resolve_redirects t1 redirects) as [t2 |] eqn:E2; [| discriminate].
  intros [= <- <-].
  destruct (process_all_spec _ _ _ _ _ _ _ E1) as (H1 & H2 & H3 & H4 & H5 & _).
  rewrite (resolve_redirects_splits _ _ _ E2). auto.
Qed.

End ReadArticleDataProperties.

Lemma read_article_data_fills_splits_and_tiles_witness :
  exists t' s',
    Reader.read_article_data (globals_2deg 1) ArticleTables.initial
      StatRegions.initial [austin_redirect_row; austin_row] = Some (t', s') /\
    articles_by_split t' !!! "training" = [austin_article] /\
    articles_by_split t' !!! "test" = [] /\
    corner_to_stat_region s' = corner_to_stat_region StatRegions.initial.
Proof.
  destruct (Reader.read_article_data (globals_2deg 1) ArticleTables.initial
              StatRegions.initial [austin_redirect_row; austin_row])
    as [[t' s'] |] eqn:E.
  - exists t', s'. split; [reflexivity |].
    destruct (read_article_data_fills_splits_and_tiles (globals_2deg 1)
                ArticleTables.initial t' StatRegions.initial s'
                [austin_redirect_row; austin_row] E) as (H1 & _ & H3 & _).
    rewrite !H1. split; [reflexivity | split; [reflexivity | exact H3]].
  - vm_compute in E. discriminate E.
Defined.

(** ** The rank of the true region of a document *)

Section EvaluateDocumentProperties.
Variable G : Globals.
Variable return_ranked_regions : StatRegionClass -> WordDist -> list StatRegion.

Lemma rank_loop_spec ij regs : forall rank,
  let r := DocumentEvaluators.rank_loop (fst ij) (snd ij) regs rank in
  rank <= r <= rank + Z.of_nat (length regs) /\
  (forall i reg, Z.of_nat i < r - rank -> regs !! i = Some reg ->
     ~ has_indices reg ij) /\
  (r < rank + Z.of_nat (length regs) ->
   exists reg, regs !! Z.to_nat (r - rank) = Some reg /\ has_indices reg ij).
Proof.
  induction regs as [| reg regs IH]; intros rank; cbn [DocumentEvaluators.rank_loop].
  - cbn. split; [lia |]. split; [intros i reg Hi; lia | lia].
  - destruct (bool_decide (latind reg = Some (fst ij))
              && bool_decide (longind reg = Some (snd ij))) eqn:Eb.
    + apply andb_true_iff in Eb as [E1 E2].
      apply bool_decide_eq_true_1 in E1, E2.
      cbn [length]. split; [lia |]. split; [intros i r Hi; lia |].
      intros _. exists reg. rewrite Z.sub_diag. split; [reflexivity |].
      split; assumption.
    + destruct (IH (rank + 1)) as (Hb & Hbefore & Hat). cbn zeta in *.
      cbn [length]. split; [lia |]. split.
      * intros [| i] r Hi Hr.
        -- injection Hr as <-. intros [E1 E2].
           rewrite (bool_decide_eq_true_2 _ E1), (bool_decide_eq_true_2 _ E2) in Eb.
           discriminate Eb.
        -- apply (Hbefore i r); [lia | exact Hr].
      * intros Hlt. destruct Hat as (r & Hr & Hij); [lia |].
        exists r. split; [| exact Hij].
        replace (Z.to_nat (DocumentEvaluators.rank_loop (fst ij) (snd ij) regs
                             (rank + 1) - rank))
          with (S (Z.to_nat (DocumentEvaluators.rank_loop (fst ij) (snd ij) regs
                               (rank + 1) - (rank + 1)))) by lia.
        exact Hr.
Qed.

(** When [evaluate_document] returns, either the article has no word
    distribution, and then the class is unchanged, the only call is the
    statistic 'Skipped articles' and the value is [False]; or it records one
    result whose rank is the position, counted from 1, of the first ranked
    region that has the statistical-region indices of the article's
    coordinate, and one more than the number of ranked regions when no
    region has them.  The rank is at least 1, so [record_result] of an
    [EvalWithRank] accepts it; the predicted indices are those of the first
    ranked region; the number of articles is that of the region found for
    the coordinate, and the second statistic is recorded exactly when it is
    0. *)
Theorem evaluate_document_ranks_true_region
    (s s' : StatRegionClass) (article : Article) (calls : list ResultsCall)
    (b : bool) :
  DocumentEvaluators.evaluate_document G return_ranked_regions s article
  = Some (s', calls, b) ->
  (art_dist article = None /\ s' = s /\
   calls = [OtherStat "Skipped articles"] /\ b = false) \/
  (exists dist coord r true_statreg reg0 rest rank,
     art_dist article = Some dist /\ art_coord article = Some coord /\
     StatRegions.find_region_for_coord G s coord = Some (s', r) /\
     heap s' !! r = Some true_statreg /\
     return_ranked_regions s' dist = reg0 :: rest /\
     b = true /\
     calls
     = DocumentResult rank coord (latind reg0) (longind reg0)
         (num_arts (worddist true_statreg))
       :: (if num_arts (worddist true_statreg) =? 0
           then [OtherStat "Articles with no training articles in region"]
           else []) /\
     1 <= rank <= Z.of_nat (length (reg0 :: rest)) + 1 /\
     (forall i reg, Z.of_nat i < rank - 1 -> (reg0 :: rest) !! i = Some reg ->
        ~ has_indices reg (Coords.coord_to_stat_region_indices G coord)) /\
     (rank <= Z.of_nat (length (reg0 :: rest)) ->
      exists reg, (reg0 :: rest) !! Z.to_nat (rank - 1) = Some reg /\
                  has_indices reg (Coords.coord_to_stat_region_indices G coord)) /\
     forall m, exists self',
       EvalsWithRank.record_result (EvalsWithRank.init m) rank = Some self').
Proof.
  unfold DocumentEvaluators.evaluate_document.
  destruct (art_dist article) as [dist |] eqn:Ed.
  2: { intros [= <- <- <-]. left. auto. }
  destruct (finished dist); cbn [negb]; [| discriminate].
  destruct (art_coord article) as [coord |] eqn:Ec; [| discriminate].
  destruct (Coords.coord_to_stat_region_indices G coord) as [tl tg] eqn:Eij.
  destruct (StatRegions.find_region_for_coord G s coord) as [[s1 r] |] eqn:Ef;
    [| discriminate].
  destruct (heap s1 !! r) as [true_statreg |] eqn:Eh; [| discriminate].
  destruct (return_ranked_regions s1 dist) as [| reg0 rest] eqn:Er; [discriminate |].
  intros [= <- <- <-]. right.
  destruct (rank_loop_spec (tl, tg) (reg0 :: rest) 1) as (Hb & Hbefore & Hat).
  cbn [fst snd] in Hb, Hbefore, Hat. cbn zeta in Hb, Hbefore, Hat.
  exists dist, coord, r, true_statreg, reg0, rest,
    (DocumentEvaluators.rank_loop tl tg (reg0 :: rest) 1).
  rewrite Eij. do 7 (split; [reflexivity || assumption |]).
  split; [lia |]. split; [exact Hbefore |]. split; [intros H; apply Hat; lia |].
  intros m. destruct (init_rank_sound m) as (Hs & Ht & Hc & Hi).
  destruct (rank_step (EvalsWithRank.init m)
              (DocumentEvaluators.rank_loop tl tg (reg0 :: rest) 1) 0 0 0
              Hs Ht Hc Hi) as (self' & E & _); [lia |].
  exists self'. exact E.
Qed.

End EvaluateDocumentProperties.

Lemma evaluate_document_ranks_true_region_witness :
  exists s' calls rank naitr,
    DocumentEvaluators.evaluate_document (globals_2deg 2) two_regions
      StatRegions.initial north_pole = Some (s', calls, true) /\
    head calls
    = Some (DocumentResult rank {| lat := 90; long := 0.5 |} (Some 0) (Some 0)
              naitr) /\
    1 <= rank <= 3.
Proof.
  destruct (DocumentEvaluators.evaluate_document (globals_2deg 2) two_regions
              StatRegions.initial north_pole) as [[[s' calls] b] |] eqn:E.
  - destruct (evaluate_document_ranks_true_region (globals_2deg 2) two_regions
                StatRegions.initial s' north_pole calls b E)
      as [(Hd & _) | (dist & coord & r & reg & reg0 & rest & rank & Hd & Hc & Hf
                      & Hh & Hr & -> & -> & Hrank & _)]; [discriminate Hd |].
    injection Hc as <-. injection Hr as <- <-.
    eexists s', _, rank, (num_arts (worddist reg)).
    split; [reflexivity |]. split; [reflexivity | exact Hrank].
  - exfalso. revert E. unfold DocumentEvaluators.evaluate_document.
    cbn [art_dist art_coord north_pole finished dist_ice negb].
    unfold StatRegions.find_region_for_coord.
    destruct (Coords.coord_to_stat_region_indices _ _) as [i j].
    destruct (find_region_fresh (globals_2deg 2) StatRegions.initial i j false
                initial_tiles_finished (lookup_empty _) eq_refl)
      as (s2 & Ef & Hheap & _).
    rewrite Ef, Hheap. cbn. discriminate.
Defined.
